(** * Kafky event bus, domain events and projector

    A shallow embedding of the event pipeline of the chat service:

    - [domain-event.js]: the [DomainEvent] class (constructor only);
    - [event-bus.js]: [EventBusWrapper], a proxy around Node's
      [EventEmitter] whose [emit] performs the double emit (eager
      notification, durable append, guaranteed notification);
    - [persistence-service.js]: [PersistenceService.listen], the projector
      subscribed to ['incoming-message-KAFKED'];
    - [server.js]: the gateway's handlers of a connection's frames and of
      its end.

    Events are JavaScript objects shared by reference, so they live in a
    heap and are passed around as references.  Code that can throw runs in
    a state-and-exception monad over the world.  The world also carries a
    ghost trace of observations (handler invocations, database calls,
    console output); the trace is what the temporal statements are about.

    Conventions.  One publish is followed from start to end: nothing else
    runs while [emit] waits for the store.  A listener is what the emitter
    sees of it, its synchronous call; what an [async] listener does after
    its first [await] is a run of its own (the projector's is modelled
    below).  Listeners do not subscribe or unsubscribe while an event is
    being delivered.  The database and [uuidv4] are parameters. *)

From Stdlib Require Import ZArith String List.
From stdpp Require Import base option list gmap strings sorting.

Local Open Scope string_scope.
Local Open Scope Z_scope.
Local Open Scope nat_scope.
Local Open Scope list_scope.

(** ** Data model *)

(** Scalar fields found in payloads. *)
Inductive Value :=
| VNum (z : Z)
| VStr (s : string).

(** A payload is a JavaScript object used as a record of scalars; reading a
    missing property gives [undefined], here [None]. *)
Abbreviation Payload := (gmap string Value).

(** [event.metadata].  Absent, [undefined] and [null] are all [None]. *)
Record Metadata := {
  timestamp : string;
  correlationId : option string;
  causationId : option string;
  logId : option Z
}.

(** An instance of [class DomainEvent]. *)
Record DomainEvent := {
  eventId : string;
  type : string;
  payload : Payload;
  metadata : Metadata
}.

(** The optional third argument of the constructor; the two properties it
    reads may each be missing. *)
Record MetadataArg := {
  arg_correlationId : option string;
  arg_causationId : option string
}.

(** The default [metadata = {}]. *)
Definition empty_metadata : MetadataArg :=
  {| arg_correlationId := None; arg_causationId := None |}.

(** [x || null] on a string-or-missing value: JavaScript's [||] keeps the
    left operand only when it is truthy, and the empty string is falsy. *)
Definition or_null (x : option string) : option string :=
  match x with
  | Some s => if decide (s = "") then None else Some s
  | None => None
  end.

(** The body of [constructor(type, payload, metadata = {})], given the
    value of [uuidv4()] and of [new Date().toISOString()]. *)
Definition DomainEvent_constructor (uuid now : string)
    (ty : string) (pl : Payload) (md : option MetadataArg) : DomainEvent :=
  let metadata := default empty_metadata md in
  {| eventId := uuid;
     type := ty;
     payload := pl;
     metadata := {| timestamp := now;
                    correlationId := or_null (arg_correlationId metadata);
                    causationId := or_null (arg_causationId metadata);
                    logId := None |} |}.

(** ** Errors and handler completions *)

Inductive Error :=
| TypeError                (* property access on [undefined] *)
| UnhandledError           (* [emit('error', ...)] with no listener *)
| Exn (msg : string).      (* anything thrown by a handler or by the database *)

(** How a synchronous listener call ends. *)
Inductive Completion :=
| Normal
| Abrupt (err : Error).

(** How a computation ends. *)
Inductive Outcome (A : Type) :=
| Ret (a : A)
| Throw (err : Error).
Arguments Ret {A} a.
Arguments Throw {A} err.

(** ** The database collaborator

    [database.js] is injected ([require('./database.js')] in the bus,
    constructor argument in the projector); only the three operations the
    pipeline calls are needed.  Each may reject. *)

(** A row of [event_log] as returned by [getEventByLogId]. *)
Record StoredRecord := {
  rec_logId : Z;
  rec_eventId : string;
  rec_type : string;
  rec_payload : Payload;
  rec_metadata : Metadata;
  rec_storedAt : string
}.

(** The object [db.logEvent] resolves to; the bus reads its [eventId]
    property and calls it [logId]. *)
Record LogReceipt := { receipt_eventId : Z }.

Record Database := {
  DbState : Type;
  logEvent : DomainEvent → DbState → DbState * (Error + LogReceipt);
  getEventByLogId : option Z → DbState → DbState * (Error + option StoredRecord);
  addMessage : option Value → option Value → option Value →
               DbState → DbState * (Error + Payload)
}.

(** ** Observations

    Ghost instrumentation: what an outside observer of one run could note
    down, in order. *)

Inductive Phase := Eager | Guaranteed.

#[global] Instance Phase_eq_dec : EqDecision Phase.
Proof. solve_decision. Defined.

(** The console lines of the bus and of the projector. *)
Inductive ConsoleLine :=
| BusPersisted (ty : string) (logId : Z)            (* console.log, bus *)
| BusCritical (ty : string) (err : Error)           (* console.error, bus *)
| ProjectorReceived (logId : option Z)              (* console.log, projector *)
| ProjectorInvalid (logId : option Z)               (* console.error, projector *)
| ProjectorFailed (err : Error).                    (* console.error, projector *)

Inductive Obs :=
| EmitCalled (r : nat) (event : DomainEvent)
    (* the bus's [emit] was entered with object [r], whose content is [event] *)
| Invoked (ph : Phase) (name : string) (idx : nat) (r : nat) (seen : DomainEvent)
    (* the [idx]-th listener of [name] is called with object [r]; [seen] is
       the content of the object at that instant *)
| Threw (ph : Phase) (name : string) (idx : nat) (err : Error)
    (* that listener threw synchronously *)
| LogEventCall (event : DomainEvent) (res : Error + Z)
    (* [db.logEvent(event)] settled: rejected, or resolved with that id *)
| GetEventByLogIdCall (logId : option Z) (res : Error + option StoredRecord)
| AddMessageCall (chatId userId messageText : option Value) (res : Error + Payload)
| Console (line : ConsoleLine).

(** [console.error] as opposed to [console.log]. *)
Definition is_error_line (l : ConsoleLine) : bool :=
  match l with
  | BusCritical _ _ | ProjectorInvalid _ | ProjectorFailed _ => true
  | BusPersisted _ _ | ProjectorReceived _ => false
  end.

(** ** Listeners

    A listener receives a reference to the live event object.  Its
    synchronous run may rewrite that object in place and ends normally or
    by throwing; it is modelled by its effect on the object's content.

    This is the boundary of the model: a listener that writes to another
    object, builds an event, publishes or subscribes on the bus, or goes on
    after an [await], does things that a [Handler] cannot express.  Every
    statement below that ranges over listeners ranges over listeners of
    this kind; what it says about other objects, about the store or about
    the order of the steps is a statement about the code of the bus and of
    its callers, not about what a listener could do. *)
Definition Handler := DomainEvent → DomainEvent * Completion.

(** [EventEmitter]'s table: event name to listeners in registration
    order. *)
Abbreviation Registry := (gmap string (list Handler)).

Definition listeners (reg : Registry) (name : string) : list Handler :=
  default [] (reg !! name).

(** [eventBus.on(name, h)]: the proxy forwards to the native emitter, which
    appends the listener. *)
Definition on (name : string) (h : Handler) (reg : Registry) : Registry :=
  <[name := listeners reg name ++ [h]]> reg.

(** The bus's promotion of a persisted event: lines 85 and 86 of the proxy,
    [event.metadata.logId = logId; event.type = kafkedEventName]. *)
Definition set_logId (l : Z) (e : DomainEvent) : DomainEvent :=
  {| eventId := eventId e; type := type e; payload := payload e;
     metadata := {| timestamp := timestamp (metadata e);
                    correlationId := correlationId (metadata e);
                    causationId := causationId (metadata e);
                    logId := Some l |} |}.

Definition set_type (ty : string) (e : DomainEvent) : DomainEvent :=
  {| eventId := eventId e; type := ty; payload := payload e;
     metadata := metadata e |}.

Definition KAFKED : string := "-KAFKED".

Section Pipeline.

(** The injected database and the identifier source: [uuidv4 n] is the
    value of the [n]-th call of [uuidv4()]. *)
Variable db : Database.
Variable uuidv4 : nat → string.

(** *** World and monad *)

Record World := {
  heap : list DomainEvent;      (* event objects; a reference is an index *)
  store : DbState db;           (* the database *)
  trace : list Obs;             (* ghost: observations so far *)
  uuidSeed : nat;               (* how many uuids were drawn *)
  clock : string                (* what [new Date().toISOString()] reads *)
}.

Definition M (A : Type) : Type := World → World * Outcome A.

#[global] Instance M_ret : MRet M := λ A a w, (w, Ret a).
#[global] Instance M_bind : MBind M := λ A B k m w,
  match m w with
  | (w1, Ret a) => k a w1
  | (w1, Throw err) => (w1, Throw err)
  end.

Definition throw {A} (err : Error) : M A := λ w, (w, Throw err).

(** [try { body } catch (error) { handler }] *)
Definition try_catch {A} (body : M A) (handler : Error → M A) : M A := λ w,
  match body w with
  | (w1, Ret a) => (w1, Ret a)
  | (w1, Throw err) => handler err w1
  end.

Definition with_heap (h : list DomainEvent) (w : World) : World :=
  {| heap := h; store := store w; trace := trace w;
     uuidSeed := uuidSeed w; clock := clock w |}.

Definition with_store (s : DbState db) (w : World) : World :=
  {| heap := heap w; store := s; trace := trace w;
     uuidSeed := uuidSeed w; clock := clock w |}.

Definition add_trace (t : list Obs) (w : World) : World :=
  {| heap := heap w; store := store w; trace := trace w ++ t;
     uuidSeed := uuidSeed w; clock := clock w |}.

Definition observe (o : Obs) : M unit := λ w, (add_trace [o] w, Ret tt).

(** Reading a property of the object behind [r]; a reference to nothing
    stands for [undefined], on which property access throws. *)
Definition deref (r : nat) : M DomainEvent := λ w,
  match heap w !! r with
  | Some e => (w, Ret e)
  | None => (w, Throw TypeError)
  end.

(** In-place update of the object behind [r]. *)
Definition modify (r : nat) (f : DomainEvent → DomainEvent) : M unit := λ w,
  match heap w !! r with
  | Some e => (with_heap (<[r := f e]> (heap w)) w, Ret tt)
  | None => (w, Throw TypeError)
  end.

(** [new DomainEvent(type, payload, metadata)]: draws a uuid, reads the
    clock, and allocates the object. *)
Definition new_DomainEvent (ty : string) (pl : Payload)
    (md : option MetadataArg) : M nat := λ w,
  let e := DomainEvent_constructor (uuidv4 (uuidSeed w)) (clock w) ty pl md in
  ({| heap := heap w ++ [e]; store := store w; trace := trace w;
      uuidSeed := S (uuidSeed w); clock := clock w |},
   Ret (length (heap w))).

(** *** Database calls, observed *)

Definition db_logEvent (event : DomainEvent) : M LogReceipt := λ w,
  match logEvent db event (store w) with
  | (s, inl err) =>
      (add_trace [LogEventCall event (inl err)] (with_store s w), Throw err)
  | (s, inr receipt) =>
      (add_trace [LogEventCall event (inr (receipt_eventId receipt))]
                 (with_store s w), Ret receipt)
  end.

Definition db_getEventByLogId (l : option Z) : M (option StoredRecord) := λ w,
  match getEventByLogId db l (store w) with
  | (s, inl err) =>
      (add_trace [GetEventByLogIdCall l (inl err)] (with_store s w), Throw err)
  | (s, inr found) =>
      (add_trace [GetEventByLogIdCall l (inr found)] (with_store s w), Ret found)
  end.

Definition db_addMessage (chatId userId messageText : option Value) : M Payload := λ w,
  match addMessage db chatId userId messageText (store w) with
  | (s, inl err) =>
      (add_trace [AddMessageCall chatId userId messageText (inl err)]
                 (with_store s w), Throw err)
  | (s, inr row) =>
      (add_trace [AddMessageCall chatId userId messageText (inr row)]
                 (with_store s w), Ret row)
  end.

(** *** Node's [EventEmitter.prototype.emit]

    Listeners are called synchronously, in order, with the same object;
    an exception thrown by one leaves the loop and propagates to the
    caller of [emit]. *)

Definition call_handler (h : Handler) (r : nat) : M Completion :=
  e ← deref r;
  let '(e', c) := h e in
  modify r (λ _, e');;
  mret c.

Fixpoint callListeners (ph : Phase) (name : string) (r : nat) (idx : nat)
    (ls : list Handler) : M unit :=
  match ls with
  | [] => mret tt
  | h :: rest =>
      seen ← deref r;
      observe (Invoked ph name idx r seen);;
      c ← call_handler h r;
      match c with
      | Normal => callListeners ph name r (S idx) rest
      | Abrupt err => observe (Threw ph name idx err);; throw err
      end
  end.

(** [originalMethod.call(target.eventBus, name, event)], the native
    [emit].  ['error'] with no listener is the one name for which it throws
    by itself.  [ph] is ghost: it tags the observations with the call
    site. *)
Definition originalMethod (ph : Phase) (reg : Registry) (name : string) (r : nat) : M unit :=
  let ls := listeners reg name in
  if decide (name = "error" ∧ ls = []) then throw UnhandledError
  else callListeners ph name r 0 ls.

(** *** The proxy's [emit] (event-bus.js, lines 52 to 121) *)

Definition emit (reg : Registry) (r : nat) : M unit :=
  try_catch
    (event ← deref r;
     observe (EmitCalled r event);;
     (* STEP 0: eager emit *)
     originalMethod Eager reg (type event) r;;
     (* STEP 1: await db.logEvent(event) *)
     event ← deref r;
     receipt ← db_logEvent event;
     let logId := receipt_eventId receipt in
     observe (Console (BusPersisted (type event) logId));;
     (* STEP 2 *)
     let kafkedEventName := type event +:+ KAFKED in
     modify r (set_logId logId);;
     modify r (set_type kafkedEventName);;
     (* STEP 3: guaranteed emit *)
     originalMethod Guaranteed reg kafkedEventName r)
    (λ error,
       event ← deref r;
       observe (Console (BusCritical (type event) error))).

(** *** The projector (persistence-service.js, lines 25 to 70)

    The listener that [PersistenceService.listen] registers for
    ['incoming-message-KAFKED'].  It is [async]: the emitter sees it return
    at its first [await].  Its whole body is modelled here as one
    sequential run. *)

(** A call of an [async] function whose promise is dropped: its effects
    happen, its rejection reaches no [catch]. *)
Definition not_awaited (m : M unit) : M unit := λ w, ((m w).1, Ret tt).

(** [!event || event.type !== 'incoming-message'] *)
Definition invalid_source (event : option StoredRecord) : bool :=
  match event with
  | None => true
  | Some record => bool_decide (rec_type record ≠ "incoming-message")
  end.

Definition projector (reg : Registry) (incomingEvent : nat) : M unit :=
  incoming ← deref incomingEvent;
  let payload := payload incoming in
  let metadata := metadata incoming in
  observe (Console (ProjectorReceived (logId metadata)));;
  try_catch
    (event ← db_getEventByLogId (logId metadata);
     if invalid_source event then
       observe (Console (ProjectorInvalid (logId metadata)))   (* return *)
     else
       let chatId := payload !! "chatId" in
       let userId := payload !! "userId" in
       let messageText := payload !! "messageText" in
       projectedMessage ← db_addMessage chatId userId messageText;
       projectedEvent ← new_DomainEvent "message-projected" projectedMessage
         (Some {| arg_correlationId := correlationId metadata;
                  arg_causationId := Some (eventId incoming) |});
       not_awaited (emit reg projectedEvent))
    (λ error, observe (Console (ProjectorFailed error))).

(** *** Reading a run *)

(** The observations a computation adds to the trace. *)
Definition emitted {A} (m : M A) (w : World) : list Obs :=
  drop (length (trace w)) (trace (m w).1).

End Pipeline.

Arguments heap {db} _.
Arguments store {db} _.
Arguments trace {db} _.
Arguments uuidSeed {db} _.
Arguments clock {db} _.
Arguments with_heap {db} h w.
Arguments with_store {db} s w.
Arguments add_trace {db} t w.
Arguments emitted {db A} m w.

(** The bus's promotion as one step. *)
Definition promote (l : Z) (e : DomainEvent) : DomainEvent :=
  set_type (type e +:+ KAFKED) (set_logId l e).

(** ** Reading traces *)

(** Is [o] the call of listener [idx] in phase [ph]? *)
Definition is_invocation (ph : Phase) (idx : nat) (o : Obs) : bool :=
  match o with
  | Invoked ph' _ idx' _ _ => bool_decide (ph' = ph ∧ idx' = idx)
  | _ => false
  end.

(** How many times listener [idx] of phase [ph] was called. *)
Definition times_invoked (ph : Phase) (idx : nat) (t : list Obs) : nat :=
  length (List.filter (is_invocation ph idx) t).

(** What the listeners of phase [ph] were handed: reference and content. *)
Definition delivered (ph : Phase) (t : list Obs) : list (nat * DomainEvent) :=
  omap (λ o, match o with
             | Invoked ph' _ _ r seen => if decide (ph' = ph) then Some (r, seen) else None
             | _ => None
             end) t.

(** The settlement of the first [db.logEvent] in the trace. *)
Fixpoint append_outcome (t : list Obs) : option (Error + Z) :=
  match t with
  | [] => None
  | LogEventCall _ res :: _ => Some res
  | _ :: t' => append_outcome t'
  end.

(** The step of the double emit a bus observation belongs to: 0 for the
    eager phase, 1 for the durable append, 2 for the guaranteed phase. *)
Definition stage (o : Obs) : option nat :=
  match o with
  | Invoked Eager _ _ _ _ | Threw Eager _ _ _ => Some 0
  | LogEventCall _ _ => Some 1
  | Invoked Guaranteed _ _ _ _ | Threw Guaranteed _ _ _ => Some 2
  | _ => None
  end.

Definition stage_of (ph : Phase) : nat :=
  match ph with Eager => 0 | Guaranteed => 2 end.

(** No step of a later stage comes before a step of an earlier one. *)
Definition phase_ordered (t : list Obs) : Prop :=
  StronglySorted le (omap stage t).

(** The lines written with [console.error]. *)
Definition errors_logged (t : list Obs) : list ConsoleLine :=
  omap (λ o, match o with
             | Console l => if is_error_line l then Some l else None
             | _ => None
             end) t.

(** What the projector wrote to the read model: arguments of each
    [addMessage] that resolved, with the record it resolved to. *)
Definition rows_written (t : list Obs)
    : list (option Value * option Value * option Value * Payload) :=
  omap (λ o, match o with
             | AddMessageCall c u m (inr row) => Some (c, u, m, row)
             | _ => None
             end) t.

(** The events handed to the bus's [emit]. *)
Definition published (t : list Obs) : list (nat * DomainEvent) :=
  omap (λ o, match o with EmitCalled r e => Some (r, e) | _ => None end) t.

(** The log ids the store was asked for. *)
Definition fetches (t : list Obs) : list (option Z) :=
  omap (λ o, match o with GetEventByLogIdCall l _ => Some l | _ => None end) t.

(** An observation made by the bus after entering [emit]: a listener
    call, a throw, the append, a console line. *)
Definition bus_step (o : Obs) : Prop :=
  match o with
  | EmitCalled _ _ | GetEventByLogIdCall _ _ | AddMessageCall _ _ _ _ => False
  | _ => True
  end.

(** ** Properties of events, listeners and runs *)

(** [s] ends with [suffix]. *)
Fixpoint ends_with (suffix s : string) : bool :=
  bool_decide (s = suffix) ||
  match s with
  | EmptyString => false
  | String _ s' => ends_with suffix s'
  end.

(** The invariant of the data model on one event: a type with the suffix
    carries a log id, a type without it carries none. *)
Definition kafked_invariant (e : DomainEvent) : Prop :=
  (ends_with KAFKED (type e) = true → logId (metadata e) ≠ None) ∧
  (ends_with KAFKED (type e) = false → logId (metadata e) = None).

(** A listener that leaves the event object as it found it.  The data
    model reserves the mutation of an event to the bus; this is that rule,
    stated for one listener and for a whole registry. *)
Definition read_only (h : Handler) : Prop := ∀ e, (h e).1 = e.

Definition handlers_read_only (reg : Registry) : Prop :=
  ∀ name, Forall read_only (listeners reg name).

(** Identifiers as the constructor leaves them: a non-empty [eventId], a
    [correlationId] that is [null] or non-empty. *)
Definition ids_normalised (e : DomainEvent) : Prop :=
  eventId e ≠ "" ∧ correlationId (metadata e) ≠ Some "".

(** Every listener of the type [ty] is called exactly once in phase [ph]. *)
Definition exactly_once (ph : Phase) (reg : Registry) (ty : string) (t : list Obs) : Prop :=
  ∀ idx, idx < length (listeners reg ty) → times_invoked ph idx t = 1.

(** The identifiers of [e] are those supplied in [md], [null] standing
    for a missing one. *)
Definition copies_supplied_ids (md : option MetadataArg) (e : DomainEvent) : Prop :=
  correlationId (metadata e) = arg_correlationId (default empty_metadata md) ∧
  causationId (metadata e) = arg_causationId (default empty_metadata md).

(** ** Runs in closed form

    Used to state what [callListeners] and [emit] compute; the lemmas
    below relate them to the monadic definitions. *)

(** The trace of one phase over listeners that leave the event [e]
    alone. *)
Fixpoint phase_trace (ph : Phase) (name : string) (r : nat) (e : DomainEvent)
    (idx : nat) (ls : list Handler) : list Obs :=
  match ls with
  | [] => []
  | h :: rest =>
      Invoked ph name idx r e ::
      match (h e).2 with
      | Normal => phase_trace ph name r e (S idx) rest
      | Abrupt err => [Threw ph name idx err]
      end
  end.

(** What the first listener to throw on [e] throws. *)
Fixpoint phase_error (e : DomainEvent) (ls : list Handler) : option Error :=
  match ls with
  | [] => None
  | h :: rest =>
      match (h e).2 with
      | Normal => phase_error e rest
      | Abrupt err => Some err
      end
  end.

(** How many listeners of [ls] get called on [e]: all of them, or those up
    to and including the first that throws. *)
Fixpoint reached (e : DomainEvent) (ls : list Handler) : nat :=
  match ls with
  | [] => 0
  | h :: rest =>
      S (match (h e).2 with
         | Normal => reached e rest
         | Abrupt _ => 0
         end)
  end.

(** What the native emit throws, over read-only listeners. *)
Definition native_error (reg : Registry) (name : string) (e : DomainEvent) : option Error :=
  if decide (name = "error" ∧ listeners reg name = []) then Some UnhandledError
  else phase_error e (listeners reg name).

(** The whole double emit over read-only listeners: final world (before
    the trace is extended) and the observations added. *)
Definition emit_read_only {db : Database} (reg : Registry) (r : nat)
    (e : DomainEvent) (w : World db) : World db * list Obs :=
  let t0 := [EmitCalled r e] ++ phase_trace Eager (type e) r e 0 (listeners reg (type e)) in
  match native_error reg (type e) e with
  | Some err => (w, t0 ++ [Console (BusCritical (type e) err)])
  | None =>
      match logEvent db e (store w) with
      | (s, inl err) =>
          (with_store s w,
           t0 ++ [LogEventCall e (inl err); Console (BusCritical (type e) err)])
      | (s, inr receipt) =>
          let l := receipt_eventId receipt in
          let e' := promote l e in
          let w' := with_heap (<[r := e']> (heap w)) (with_store s w) in
          let t1 := t0 ++ [LogEventCall e (inr l); Console (BusPersisted (type e) l)]
                       ++ phase_trace Guaranteed (type e') r e' 0 (listeners reg (type e')) in
          match native_error reg (type e') e' with
          | Some err => (w', t1 ++ [Console (BusCritical (type e') err)])
          | None => (w', t1)
          end
      end
  end.

(** What a run of phase [ph] over [len] listeners, numbered from [idx],
    leaves in the trace whatever the listeners do: steps of that phase
    only; a prefix of the listeners called, once each, and all of them when
    the run returns; a throw recorded exactly when the run throws. *)
Definition phase_run (ph : Phase) (idx len : nat) (t : list Obs) (o : Outcome unit) : Prop :=
  Forall (λ ob, stage ob = Some (stage_of ph)) t ∧
  (∃ n, n ≤ len ∧ (o = Ret tt → n = len) ∧
        ∀ i, times_invoked ph i t = if decide (idx ≤ i < idx + n) then 1 else 0) ∧
  match o with
  | Ret _ => ∀ ph' n i err, ¬ In (Threw ph' n i err) t
  | Throw err => ∀ ph' n i err', In (Threw ph' n i err') t → err' = err
  end.

(** ** Runs in closed form, for any listeners

    A listener may rewrite the event it is handed, so the next one is
    handed what it left.  These functions follow the content of the
    published object through one phase. *)

(** The contents the listeners of a phase are handed, in the order of the
    calls: the first is handed [e], each later one what the one before it
    left; the listeners registered after one that throws are handed
    nothing. *)
Fixpoint handed (e : DomainEvent) (ls : list Handler) : list DomainEvent :=
  match ls with
  | [] => []
  | h :: rest =>
      e :: match (h e).2 with
           | Normal => handed (h e).1 rest
           | Abrupt _ => []
           end
  end.

(** The content of the object when the phase is over. *)
Fixpoint left_by (e : DomainEvent) (ls : list Handler) : DomainEvent :=
  match ls with
  | [] => e
  | h :: rest =>
      match (h e).2 with
      | Normal => left_by (h e).1 rest
      | Abrupt _ => (h e).1
      end
  end.

(** What the phase throws: the exception of the first listener that
    throws on what it is handed. *)
Fixpoint thrown_by (e : DomainEvent) (ls : list Handler) : option Error :=
  match ls with
  | [] => None
  | h :: rest =>
      match (h e).2 with
      | Normal => thrown_by (h e).1 rest
      | Abrupt err => Some err
      end
  end.

(** The observations of the phase. *)
Fixpoint phase_steps (ph : Phase) (name : string) (r : nat) (e : DomainEvent)
    (idx : nat) (ls : list Handler) : list Obs :=
  match ls with
  | [] => []
  | h :: rest =>
      Invoked ph name idx r e ::
      match (h e).2 with
      | Normal => phase_steps ph name r (h e).1 (S idx) rest
      | Abrupt err => [Threw ph name idx err]
      end
  end.

(** What the native emit throws. *)
Definition native_thrown (reg : Registry) (name : string) (e : DomainEvent) : option Error :=
  if decide (name = "error" ∧ listeners reg name = []) then Some UnhandledError
  else thrown_by e (listeners reg name).

(** The whole double emit, for any listeners: final world (before the
    trace is extended) and the observations added. *)
Definition emit_steps {db : Database} (reg : Registry) (r : nat)
    (e : DomainEvent) (w : World db) : World db * list Obs :=
  let e1 := left_by e (listeners reg (type e)) in
  let t0 := [EmitCalled r e] ++ phase_steps Eager (type e) r e 0 (listeners reg (type e)) in
  match native_thrown reg (type e) e with
  | Some err =>
      (with_heap (<[r := e1]> (heap w)) w,
       t0 ++ [Console (BusCritical (type e1) err)])
  | None =>
      match logEvent db e1 (store w) with
      | (s, inl err) =>
          (with_heap (<[r := e1]> (heap w)) (with_store s w),
           t0 ++ [LogEventCall e1 (inl err); Console (BusCritical (type e1) err)])
      | (s, inr receipt) =>
          let l := receipt_eventId receipt in
          let e2 := promote l e1 in
          let e3 := left_by e2 (listeners reg (type e2)) in
          let t1 := t0 ++ [LogEventCall e1 (inr l); Console (BusPersisted (type e1) l)]
                       ++ phase_steps Guaranteed (type e2) r e2 0 (listeners reg (type e2)) in
          (with_heap (<[r := e3]> (heap w)) (with_store s w),
           match native_thrown reg (type e2) e2 with
           | Some err => t1 ++ [Console (BusCritical (type e3) err)]
           | None => t1
           end)
      end
  end.

(** The event as the eager phase leaves it. *)
Definition after_eager (reg : Registry) (e : DomainEvent) : DomainEvent :=
  left_by e (listeners reg (type e)).

(** The listeners of the guaranteed phase: those of the type the event
    has when the eager phase is over, followed by the suffix. *)
Definition guaranteed_listeners (reg : Registry) (e : DomainEvent) : list Handler :=
  listeners reg (type (after_eager reg e) +:+ KAFKED).

(** The contents [cs], each delivered through the reference [r]. *)
Definition through (r : nat) (contents : list DomainEvent) : list (nat * DomainEvent) :=
  (λ c, (r, c)) <$> contents.

(** Right-nest appends and push conses outwards. *)
Ltac norm_app := repeat first [rewrite <- app_assoc | progress simpl].

(** ** An in-memory database *)

(** Modelled from the spec: [database.js] is not among the sources.  The
    event store is an append-only log whose identifiers are assigned on
    append ([append(event) -> logId], [fetchByLogId(logId) -> event |
    not-found]); the read model is a table of rows
    ([writeProjection(chatId, userId, text) -> projectedRecord]).  Either
    write can be made to fail.  It serves as the concrete collaborator of
    the examples; the theorems hold for any [Database]. *)
Record MemDb := {
  event_log : list StoredRecord;
  messages : list (option Value * option Value * option Value);
  log_fault : bool;
  messages_fault : bool;
  db_now : string
}.

Definition mem_logEvent (e : DomainEvent) (s : MemDb) : MemDb * (Error + LogReceipt) :=
  if log_fault s then (s, inl (Exn "StoreWriteError"))
  else
    let l := Z.of_nat (S (length (event_log s))) in
    let record := {| rec_logId := l; rec_eventId := eventId e; rec_type := type e;
                     rec_payload := payload e; rec_metadata := metadata e;
                     rec_storedAt := db_now s |} in
    ({| event_log := event_log s ++ [record]; messages := messages s;
        log_fault := log_fault s; messages_fault := messages_fault s;
        db_now := db_now s |},
     inr {| receipt_eventId := l |}).

Definition mem_getEventByLogId (l : option Z) (s : MemDb)
    : MemDb * (Error + option StoredRecord) :=
  (s, inr (l' ← l; List.find (λ record, bool_decide (rec_logId record = l')) (event_log s))).

Definition projected_record (chatId userId messageText : option Value) : Payload :=
  list_to_map (omap (λ '(k, v), (λ v', (k, v')) <$> v)
    [("id_chat", chatId); ("id_user", userId); ("message", messageText)]).

Definition mem_addMessage (chatId userId messageText : option Value) (s : MemDb)
    : MemDb * (Error + Payload) :=
  if messages_fault s then (s, inl (Exn "ProjectionWriteError"))
  else
    ({| event_log := event_log s;
        messages := messages s ++ [(chatId, userId, messageText)];
        log_fault := log_fault s; messages_fault := messages_fault s;
        db_now := db_now s |},
     inr (projected_record chatId userId messageText)).

Definition memDb : Database :=
  {| DbState := MemDb;
     logEvent := mem_logEvent;
     getEventByLogId := mem_getEventByLogId;
     addMessage := mem_addMessage |}.

(** ** Sample listeners, registries, stores and worlds *)

Definition quiet : Handler := λ e, (e, Normal).
Definition failing : Handler := λ e, (e, Abrupt (Exn "listener failed")).

(** A generator of pairwise distinct, non-empty identifiers. *)
Fixpoint sample_uuid (n : nat) : string :=
  match n with
  | 0 => "u"
  | S k => "x" +:+ sample_uuid k
  end.

(** One eager and one guaranteed subscriber of ['incoming-message']. *)
Definition sample_registry : Registry :=
  on "incoming-message-KAFKED" quiet (on "incoming-message" quiet ∅).

(** Two guaranteed subscribers, the first of which throws. *)
Definition failing_first_registry : Registry :=
  on "incoming-message-KAFKED" quiet (on "incoming-message-KAFKED" failing ∅).

(** An eager subscriber that throws. *)
Definition failing_eager_registry : Registry :=
  on "incoming-message-KAFKED" quiet (on "incoming-message" failing ∅).

(** A listener that writes a logId of its own into the event. *)
Definition stamping : Handler := λ e, (set_logId 99 e, Normal).

(** Two eager and two guaranteed subscribers of ['incoming-message'];
    the first of each phase stamps the event. *)
Definition stamping_registry : Registry :=
  on "incoming-message-KAFKED" quiet
    (on "incoming-message-KAFKED" stamping
       (on "incoming-message" quiet (on "incoming-message" stamping ∅))).

Definition hello : Payload :=
  {[ "chatId" := VNum 1; "userId" := VNum 7; "messageText" := VStr "hi" ]}.

(** The event of scenario A, as the gateway builds it. *)
Definition incoming_message : DomainEvent :=
  DomainEvent_constructor "c0ffee" "2024-01-01T00:00:00.000Z" "incoming-message" hello
    (Some {| arg_correlationId := Some "corr-1"; arg_causationId := None |}).

(** An event built with a type that already carries the suffix. *)
Definition suffixed_from_birth : DomainEvent :=
  DomainEvent_constructor "c0ffee" "2024-01-01T00:00:00.000Z" "incoming-message-KAFKED"
    hello None.

(** The guaranteed notification for logId 42, as the bus delivers it. *)
Definition hello_notification : DomainEvent := promote 42 incoming_message.

(** The same notification whose live payload was rewritten after the
    append: the text differs from what the store holds. *)
Definition tampered_notification : DomainEvent :=
  {| eventId := eventId hello_notification;
     type := type hello_notification;
     payload := <["messageText" := VStr "tampered"]> hello;
     metadata := metadata hello_notification |}.

(** Supplied metadata whose correlationId is the empty string. *)
Definition empty_correlation : MetadataArg :=
  {| arg_correlationId := Some ""; arg_causationId := None |}.

Definition empty_db : MemDb :=
  {| event_log := []; messages := []; log_fault := false;
     messages_fault := false; db_now := "2024-01-01T00:00:01.000Z" |}.

(** A store whose appends are rejected. *)
Definition faulty_db : MemDb :=
  {| event_log := []; messages := []; log_fault := true;
     messages_fault := false; db_now := "2024-01-01T00:00:01.000Z" |}.

(** The row a store holds for [incoming_message] under logId 42. *)
Definition stored_hello : StoredRecord :=
  {| rec_logId := 42; rec_eventId := "c0ffee"; rec_type := "incoming-message";
     rec_payload := hello; rec_metadata := metadata incoming_message;
     rec_storedAt := "2024-01-01T00:00:01.000Z" |}.

Definition db_with_hello : MemDb :=
  {| event_log := [stored_hello]; messages := []; log_fault := false;
     messages_fault := false; db_now := "2024-01-01T00:00:02.000Z" |}.

(** A world over the in-memory database: the given objects, the given
    store, nothing observed yet. *)
Definition mem_world (objects : list DomainEvent) (s : MemDb) : World memDb :=
  Build_World memDb objects s [] 0 "2024-01-01T00:00:00.000Z".

(** Scenario A: ['incoming-message'] about to be published. *)
Definition scenario_a : World memDb := mem_world [incoming_message] empty_db.

(** Scenario C: the same, on a store that rejects the append. *)
Definition scenario_c : World memDb := mem_world [incoming_message] faulty_db.

(** Scenario B: the notification for logId 42 about to reach the
    projector, and the store holds record 42. *)
Definition scenario_b : World memDb := mem_world [hello_notification] db_with_hello.

(** Scenario D: the same notification, and the store holds nothing. *)
Definition scenario_d : World memDb := mem_world [hello_notification] empty_db.

(** Scenario B with the tampered notification. *)
Definition scenario_tampered : World memDb :=
  mem_world [tampered_notification] db_with_hello.

(** An event born with the suffix about to be published. *)
Definition scenario_suffixed : World memDb := mem_world [suffixed_from_birth] empty_db.

(** ** More readers of a run *)

(** Every [db.logEvent] of the trace: the event it was handed and how it
    settled. *)
Definition appends (t : list Obs) : list (DomainEvent * (Error + Z)) :=
  omap (λ o, match o with LogEventCall e res => Some (e, res) | _ => None end) t.

(** [w'] differs from [w] at most in the object behind [r], the store and
    the trace: no object was allocated, no other object rewritten, no uuid
    drawn. *)
Definition same_elsewhere {db : Database} (r : nat) (w w' : World db) : Prop :=
  length (heap w') = length (heap w) ∧
  (∀ r', r' ≠ r → heap w' !! r' = heap w !! r') ∧
  uuidSeed w' = uuidSeed w ∧
  clock w' = clock w.

(** A computation that leaves every object but [r] alone. *)
Definition touches_only {db : Database} {A} (r : nat) (m : M db A) : Prop :=
  ∀ w, same_elsewhere r w (m w).1.

(** ** The gateway (server.js)

    The WebSocket handlers of [server.js]: [ws.on('message', ...)] and
    [ws.on('close', ...)], registered for every connection.  A socket is a
    number.  What the handlers keep between frames is the map [clients]
    (user id to sockets, shared by all connections) and, per connection,
    the property [ws.userId] and the closure variable [participants].

    [dispatcher.js] and [database.js] are not among the sources: the calls
    to the dispatcher are recorded and taken to return, as is [ws.send];
    the two queries the gateway sends to the database are parameters.  One
    handler run is followed from start to end, as for the bus.  Ids are
    numbers or strings; as in the data model, [undefined] and [null] are
    both [None]. *)

#[global] Instance Value_eq_dec : EqDecision Value.
Proof. solve_decision. Defined.

#[global] Instance Value_countable : Countable Value.
Proof.
  refine (inj_countable'
            (λ v, match v with VNum z => inl z | VStr s => inr s end)
            (λ x, match x with inl z => VNum z | inr s => VStr s end) _).
  by intros [].
Defined.

(** JavaScript's truthiness on an id that is a number, a string or
    missing: [undefined], [null], [0] and [''] are falsy. *)
Definition truthy (v : option Value) : bool :=
  match v with
  | None => false
  | Some (VNum z) => bool_decide (z ≠ 0%Z)
  | Some (VStr s) => bool_decide (s ≠ "")
  end.

(** The row [db.getChatParticipants] resolves to. *)
Record Participants := {
  id_user1 : option Value;
  id_user2 : option Value
}.

(** What a connection remembers: [ws.userId] and [participants], both
    [null] when the connection opens. *)
Record Conn := {
  ws_userId : option Value;
  participants : option Participants
}.

Definition fresh_conn : Conn := {| ws_userId := None; participants := None |}.

(** A frame as [JSON.parse(message)] leaves it: not JSON at all; the
    value [null], on which [data.type] throws; or a value whose [type] is
    a string or something else ([None]) and whose [payload] is an object
    of scalars or is [null] or missing ([None]). *)
Inductive Incoming :=
| Malformed
| JsonNull
| Json (data_type : option string) (data_payload : option Payload).

(** The two queries of the gateway. *)
Record ChatQueries (db : Database) := {
  getChatParticipants : option Value → DbState db →
                        DbState db * (Error + option Participants);
  getChatHistory : option Value → DbState db →
                   DbState db * (Error + list Payload)
}.
Arguments getChatParticipants {db} _ _ _.
Arguments getChatHistory {db} _ _ _.

(** The console lines of the gateway. *)
Inductive GatewayLine :=
| GwReceived (ty : option string) (userId : option Value)        (* console.log *)
| GwPayload (payload : option Payload)                           (* console.log *)
| GwIdentified (userId : option Value)       (* console.log; the keys it lists are not kept *)
| GwPublishing (correlationId : string)                          (* console.log *)
| GwSecurityAlert (userId : option Value) (chatId : option Value) (* console.error *)
| GwFailed (err : Error)                                         (* console.error *)
| GwUnidentifiedClosed                                           (* console.log *)
| GwConnectionClosed (userId : option Value) (remaining : nat)   (* console.log *)
| GwLastConnectionClosed (userId : option Value).                (* console.log *)

(** What an observer of the gateway notes down. *)
Inductive GwObs :=
| GwConsole (line : GatewayLine)
| GetChatParticipantsCall (chatId : option Value) (res : Error + option Participants)
| GetChatHistoryCall (chatId : option Value) (res : Error + list Payload)
| Subscribe (ws : nat) (chatId : option Value)     (* dispatcher.subscribe(ws, chatId) *)
| Unsubscribe (ws : nat)                           (* dispatcher.unsubscribe(ws) *)
| Send (ws : nat) (history : list Payload).        (* ws.send of a 'chat.history' frame *)

Definition is_gateway_error (l : GatewayLine) : bool :=
  match l with
  | GwSecurityAlert _ _ | GwFailed _ => true
  | _ => false
  end.

(** [!participants || (ws.userId !== participants.id_user1 &&
    ws.userId !== participants.id_user2)] *)
Definition not_participant (userId : option Value) (found : option Participants) : bool :=
  match found with
  | None => true
  | Some row => bool_decide (userId ≠ id_user1 row) && bool_decide (userId ≠ id_user2 row)
  end.

(** The object literal [{ chatId, userId: ws.userId, messageText }]; a
    property whose value is [undefined] reads like a missing one. *)
Definition message_payload (chatId userId messageText : option Value) : Payload :=
  list_to_map (omap (λ '(k, v), (λ v', (k, v')) <$> v)
    [("chatId", chatId); ("userId", userId); ("messageText", messageText)]).

Section Gateway.

Variable db : Database.
Variable uuidv4 : nat → string.
Variable queries : ChatQueries db.

Record Gateway := {
  world : World db;                            (* heap, store, bus trace, uuids *)
  clients : gmap (option Value) (list nat);    (* the Map [clients] *)
  conns : gmap nat Conn;                       (* per socket: userId, participants *)
  gateway_log : list GwObs                     (* ghost: observations so far *)
}.

Definition G (A : Type) : Type := Gateway → Gateway * Outcome A.

#[global] Instance G_ret : MRet G := λ A a g, (g, Ret a).
#[global] Instance G_bind : MBind G := λ A B k m g,
  match m g with
  | (g1, Ret a) => k a g1
  | (g1, Throw err) => (g1, Throw err)
  end.

Definition gw_throw {A} (err : Error) : G A := λ g, (g, Throw err).

Definition gw_try_catch {A} (body : G A) (handler : Error → G A) : G A := λ g,
  match body g with
  | (g1, Ret a) => (g1, Ret a)
  | (g1, Throw err) => handler err g1
  end.

(** A computation of the pipeline, run on the gateway's world. *)
Definition lift {A} (m : M db A) : G A := λ g,
  ({| world := (m (world g)).1; clients := clients g; conns := conns g;
      gateway_log := gateway_log g |},
   (m (world g)).2).

Definition gw_observe (o : GwObs) : G unit := λ g,
  ({| world := world g; clients := clients g; conns := conns g;
      gateway_log := gateway_log g ++ [o] |},
   Ret tt).

(** [uuidv4()] *)
Definition next_uuid : M db string := λ w,
  (Build_World db (heap w) (store w) (trace w) (S (uuidSeed w)) (clock w),
   Ret (uuidv4 (uuidSeed w))).

Definition conn_of (g : Gateway) (ws : nat) : Conn :=
  default fresh_conn (conns g !! ws).

Definition get_conn (ws : nat) : G Conn := λ g, (g, Ret (conn_of g ws)).

(** [ws.userId = userId] *)
Definition set_userId (ws : nat) (userId : option Value) : G unit := λ g,
  ({| world := world g; clients := clients g;
      conns := <[ws := {| ws_userId := userId;
                          participants := participants (conn_of g ws) |}]> (conns g);
      gateway_log := gateway_log g |},
   Ret tt).

(** [participants = ...] *)
Definition set_participants (ws : nat) (found : option Participants) : G unit := λ g,
  ({| world := world g; clients := clients g;
      conns := <[ws := {| ws_userId := ws_userId (conn_of g ws);
                          participants := found |}]> (conns g);
      gateway_log := gateway_log g |},
   Ret tt).

Definition set_clients (c : gmap (option Value) (list nat)) : G unit := λ g,
  ({| world := world g; clients := c; conns := conns g;
      gateway_log := gateway_log g |},
   Ret tt).

Definition get_clients : G (gmap (option Value) (list nat)) := λ g, (g, Ret (clients g)).

(** [if (!clients.has(ws.userId)) clients.set(ws.userId, []);
    clients.get(ws.userId).push(ws)] *)
Definition register (ws : nat) (userId : option Value) : G unit :=
  c ← get_clients;
  set_clients (<[userId := default [] (c !! userId) ++ [ws]]> c).

Definition db_getChatParticipants (chatId : option Value)
    : G (option Participants) := λ g,
  match getChatParticipants queries chatId (store (world g)) with
  | (s, res) =>
      ({| world := with_store s (world g); clients := clients g; conns := conns g;
          gateway_log := gateway_log g ++ [GetChatParticipantsCall chatId res] |},
       match res with inl err => Throw err | inr found => Ret found end)
  end.

Definition db_getChatHistory (chatId : option Value) : G (list Payload) := λ g,
  match getChatHistory queries chatId (store (world g)) with
  | (s, res) =>
      ({| world := with_store s (world g); clients := clients g; conns := conns g;
          gateway_log := gateway_log g ++ [GetChatHistoryCall chatId res] |},
       match res with inl err => Throw err | inr history => Ret history end)
  end.

(** [data.payload.<key>]: a TypeError when there is no payload. *)
Definition field (payload : option Payload) (key : string) : G (option Value) :=
  match payload with
  | Some object => mret (object !! key)
  | None => gw_throw TypeError
  end.

(** *** [ws.on('message', ...)] (server.js: lines 220 to 312 of its source file) *)

(** [case 'user.identify'] *)
Definition user_identify (ws : nat) (payload : option Payload) : G unit :=
  userId ← field payload "userId";
  set_userId ws userId;;
  register ws userId;;
  gw_observe (GwConsole (GwIdentified userId)).

(** [case 'chat.select'].  The security alert of this case is never
    printed: its template reads [chatId], a [const] of the same [switch]
    block that is declared in the next case, so the read throws a
    ReferenceError, which the handler's [catch] reports. *)
Definition chat_select (ws : nat) (payload : option Payload) : G unit :=
  conn ← get_conn ws;
  if negb (truthy (ws_userId conn)) then mret tt   (* return *)
  else
    chatId ← field payload "chatId";
    found ← db_getChatParticipants chatId;
    set_participants ws found;;
    if not_participant (ws_userId conn) found then
      gw_throw (Exn "ReferenceError")
    else
      gw_observe (Subscribe ws chatId);;
      history ← db_getChatHistory chatId;
      gw_observe (Send ws history).

(** [case 'chat.message.new'] *)
Definition chat_message_new (reg : Registry) (ws : nat) (payload : option Payload)
    (correlationId : string) : G unit :=
  conn ← get_conn ws;
  if negb (truthy (ws_userId conn)) then mret tt   (* return *)
  else
    chatId ← field payload "chatId";
    messageText ← field payload "messageText";
    if not_participant (ws_userId conn) (participants conn) then
      gw_observe (GwConsole (GwSecurityAlert (ws_userId conn) chatId))   (* return *)
    else
      gw_observe (GwConsole (GwPublishing correlationId));;
      incomingMessageEvent ← lift
        (new_DomainEvent db uuidv4 "incoming-message"
           (message_payload chatId (ws_userId conn) messageText)
           (Some {| arg_correlationId := Some correlationId;
                    arg_causationId := None |}));
      lift (not_awaited db (emit db reg incomingMessageEvent)).

(** [switch (data.type)] *)
Definition route (reg : Registry) (ws : nat) (ty : option string)
    (payload : option Payload) (correlationId : string) : G unit :=
  if decide (ty = Some "user.identify") then user_identify ws payload
  else if decide (ty = Some "chat.select") then chat_select ws payload
  else if decide (ty = Some "chat.message.new") then
    chat_message_new reg ws payload correlationId
  else mret tt.

Definition on_message (reg : Registry) (ws : nat) (message : Incoming) : G unit :=
  correlationId ← lift next_uuid;
  gw_try_catch
    (match message with
     | Malformed => gw_throw (Exn "SyntaxError")      (* JSON.parse *)
     | JsonNull => gw_throw TypeError                 (* data.type *)
     | Json ty payload =>
         conn ← get_conn ws;
         gw_observe (GwConsole (GwReceived ty (ws_userId conn)));;
         gw_observe (GwConsole (GwPayload payload));;
         route reg ws ty payload correlationId
     end)
    (λ error, gw_observe (GwConsole (GwFailed error))).

(** *** [ws.on('close', ...)] (server.js: lines 315 to 341 of its source file) *)

Definition on_close (ws : nat) : G unit :=
  gw_observe (Unsubscribe ws);;
  conn ← get_conn ws;
  if negb (truthy (ws_userId conn)) then
    gw_observe (GwConsole GwUnidentifiedClosed)
  else
    c ← get_clients;
    match c !! ws_userId conn with
    | None => mret tt                               (* not an array *)
    | Some userConnections =>
        let remainingConnections := filter (λ socket, socket ≠ ws) userConnections in
        if decide (0 < length remainingConnections) then
          set_clients (<[ws_userId conn := remainingConnections]> c);;
          gw_observe (GwConsole (GwConnectionClosed (ws_userId conn)
                                   (length remainingConnections)))
        else
          set_clients (delete (ws_userId conn) c);;
          gw_observe (GwConsole (GwLastConnectionClosed (ws_userId conn)))
    end.

(** *** Reading a run of the gateway *)

(** What a handler adds to the gateway's log, and to the bus's trace. *)
Definition logged {A} (m : G A) (g : Gateway) : list GwObs :=
  drop (length (gateway_log g)) (gateway_log (m g).1).

Definition bus_trace {A} (m : G A) (g : Gateway) : list Obs :=
  drop (length (trace (world g))) (trace (world (m g).1)).

End Gateway.

Arguments world {db} _.
Arguments clients {db} _.
Arguments conns {db} _.
Arguments gateway_log {db} _.
Arguments conn_of {db} g ws.
Arguments logged {db A} m g.
Arguments bus_trace {db A} m g.

(** The sockets handed to [dispatcher.subscribe], with the chat. *)
Definition subscriptions (t : list GwObs) : list (nat * option Value) :=
  omap (λ o, match o with Subscribe ws chatId => Some (ws, chatId) | _ => None end) t.

(** The histories sent, with the socket. *)
Definition frames_sent (t : list GwObs) : list (nat * list Payload) :=
  omap (λ o, match o with Send ws history => Some (ws, history) | _ => None end) t.

(** The chats whose participants the store was asked for. *)
Definition participant_lookups (t : list GwObs) : list (option Value) :=
  omap (λ o, match o with GetChatParticipantsCall chatId _ => Some chatId | _ => None end) t.

(** The lines written with [console.error]. *)
Definition gateway_errors (t : list GwObs) : list GatewayLine :=
  omap (λ o, match o with
             | GwConsole l => if is_gateway_error l then Some l else None
             | _ => None
             end) t.

(** No user of [clients] is left with an empty list of sockets. *)
Definition clients_wf (c : gmap (option Value) (list nat)) : Prop :=
  map_Forall (λ _ sockets, sockets ≠ []) c.

(** The sockets registered for a user. *)
Definition sockets_of (c : gmap (option Value) (list nat)) (userId : option Value) : list nat :=
  default [] (c !! userId).

(** What a handler run on socket [ws] may change of the gateway's own
    state: the registry stays well formed, and the other connections keep
    their user and their participants. *)
Definition confined {db : Database} (ws : nat) (g g' : Gateway db) : Prop :=
  (clients_wf (clients g) → clients_wf (clients g')) ∧
  (∀ ws', ws' ≠ ws → conns g' !! ws' = conns g !! ws').

(** A handler whose every run is confined to socket [ws]. *)
Definition confines {db : Database} {A} (ws : nat) (m : G db A) : Prop :=
  ∀ g, confined ws g (m g).1.

(** The world after one more uuid was drawn. *)
Definition with_uuid_drawn {db : Database} (w : World db) : World db :=
  Build_World db (heap w) (store w) (trace w) (S (uuidSeed w)) (clock w).

(** ** Samples for the gateway and for the failure paths *)

(** The frames of the examples. *)
Definition identify_7 : Payload := {[ "userId" := VNum 7 ]}.
Definition identify_8 : Payload := {[ "userId" := VNum 8 ]}.
Definition select_chat_1 : Payload := {[ "chatId" := VNum 1 ]}.
Definition select_chat_2 : Payload := {[ "chatId" := VNum 2 ]}.
Definition post_to_chat_2 : Payload :=
  {[ "chatId" := VNum 2; "messageText" := VStr "hi" ]}.

(** A two-chat table standing in for [database.js] in the examples: users
    7 and 8 talk in chat 1, users 8 and 9 in chat 2; no history yet. *)
Definition sample_chats : ChatQueries memDb :=
  {| getChatParticipants := λ chatId s,
       (s, inr (if decide (chatId = Some (VNum 1)) then
                  Some {| id_user1 := Some (VNum 7); id_user2 := Some (VNum 8) |}
                else if decide (chatId = Some (VNum 2)) then
                  Some {| id_user1 := Some (VNum 8); id_user2 := Some (VNum 9) |}
                else None));
     getChatHistory := λ chatId s, (s, inr []) |}.

(** A gateway about to serve its first frame. *)
Definition gateway_start : Gateway memDb :=
  {| world := mem_world [] empty_db; clients := ∅; conns := ∅; gateway_log := [] |}.

(** Socket 0 after user 7 identified on it. *)
Definition gateway_identified : Gateway memDb :=
  (on_message memDb sample_uuid sample_chats sample_registry 0
     (Json (Some "user.identify") (Some identify_7)) gateway_start).1.

(** Socket 0 after user 7 selected chat 1 on it. *)
Definition gateway_selected : Gateway memDb :=
  (on_message memDb sample_uuid sample_chats sample_registry 0
     (Json (Some "chat.select") (Some select_chat_1)) gateway_identified).1.

(** An event whose type is the emitter's reserved name. *)
Definition error_event : DomainEvent :=
  DomainEvent_constructor "c0ffee" "2024-01-01T00:00:00.000Z" "error" hello None.

(** The in-memory database with an event store whose reads are
    rejected. *)
Definition unreadableDb : Database :=
  {| DbState := MemDb;
     logEvent := mem_logEvent;
     getEventByLogId := λ _ s, (s, inl (Exn "StoreReadError"));
     addMessage := mem_addMessage |}.

(** A store that holds record 42 and rejects the writes to the read
    model. *)
Definition db_read_model_fault : MemDb :=
  {| event_log := [stored_hello]; messages := []; log_fault := false;
     messages_fault := true; db_now := "2024-01-01T00:00:02.000Z" |}.

(** The notification for logId 42 about to reach the projector, on the
    database whose reads are rejected. *)
Definition scenario_unreadable : World unreadableDb :=
  Build_World unreadableDb [hello_notification] db_with_hello [] 0
    "2024-01-01T00:00:00.000Z".

(** ** Facts about the model *)

Section Facts.

Variable db : Database.
Variable uuidv4 : nat → string.
Implicit Types (w : World db) (t : list Obs) (e : DomainEvent) (reg : Registry).

Lemma add_trace_nil w : add_trace [] w = w.
Proof. destruct w; unfold add_trace; simpl. by rewrite app_nil_r. Qed.

Lemma add_trace_app t1 t2 w : add_trace t2 (add_trace t1 w) = add_trace (t1 ++ t2) w.
Proof. unfold add_trace; simpl. by rewrite app_assoc. Qed.

Lemma world_ext w1 w2 :
  heap w1 = heap w2 → store w1 = store w2 → trace w1 = trace w2 →
  uuidSeed w1 = uuidSeed w2 → clock w1 = clock w2 → w1 = w2.
Proof. destruct w1, w2; simpl; by intros -> -> -> -> ->. Qed.

(** Equal runs: same outcome, and worlds equal field by field. *)
Ltac same_run :=
  f_equal; apply world_ext;
  cbn [heap store trace uuidSeed clock add_trace with_heap with_store];
  try done; by norm_app.

Lemma with_heap_id w r e : heap w !! r = Some e → with_heap (<[r := e]> (heap w)) w = w.
Proof. intros H. destruct w; unfold with_heap; simpl in *. by rewrite list_insert_id. Qed.

Lemma emitted_add_trace {A} (m : M db A) w w1 t o :
  m w = (add_trace t w1, o) → trace w1 = trace w → emitted m w = t.
Proof.
  intros Hm Ht. unfold emitted. rewrite Hm. simpl. rewrite Ht.
  apply drop_app_length.
Qed.

(** *** Listeners that do not touch the event *)

Lemma callListeners_read_only ph name r e idx ls w :
  Forall read_only ls → heap w !! r = Some e →
  callListeners db ph name r idx ls w =
    (add_trace (phase_trace ph name r e idx ls) w,
     match phase_error e ls with None => Ret tt | Some err => Throw err end).
Proof.
  intros Hro. revert idx w. induction Hro as [|h rest Hh Hrest IH]; intros idx w Hr.
  - simpl. by rewrite add_trace_nil.
  - simpl. unfold mbind, M_bind, deref, observe, call_handler, mbind, M_bind, deref.
    rewrite Hr. simpl. rewrite Hr.
    specialize (Hh e). destruct (h e) as [e' c] eqn:Hhe. simpl in Hh. subst e'.
    unfold modify. simpl. rewrite Hr.
    change (with_heap (<[r:=e]> (heap w)) (add_trace [Invoked ph name idx r e] w))
      with (add_trace [Invoked ph name idx r e] (with_heap (<[r:=e]> (heap w)) w)).
    rewrite (with_heap_id w r e Hr). unfold mret, M_ret.
    destruct c as [|err]; simpl.
    + rewrite IH by done. by rewrite add_trace_app.
    + unfold throw. by rewrite add_trace_app.
Qed.

Lemma originalMethod_read_only ph reg name r e w :
  handlers_read_only reg → heap w !! r = Some e →
  originalMethod db ph reg name r w =
    (add_trace (phase_trace ph name r e 0 (listeners reg name)) w,
     match native_error reg name e with None => Ret tt | Some err => Throw err end).
Proof.
  intros Hro Hr. unfold originalMethod, native_error.
  destruct (decide (name = "error" ∧ listeners reg name = [])) as [[_ ->]|_].
  - simpl. by rewrite add_trace_nil.
  - by apply callListeners_read_only.
Qed.

Lemma emit_read_only_run reg r e w :
  handlers_read_only reg → heap w !! r = Some e →
  emit db reg r w =
    (add_trace (emit_read_only reg r e w).2 (emit_read_only reg r e w).1, Ret tt).
Proof.
  intros Hro Hr. unfold emit, emit_read_only, try_catch.
  unfold mbind at 1. unfold M_bind at 1. unfold deref at 1. rewrite Hr.
  unfold mbind at 1. unfold M_bind at 1. unfold observe at 1.
  unfold mbind at 1. unfold M_bind at 1.
  rewrite (originalMethod_read_only Eager reg (type e) r e) by done.
  rewrite add_trace_app.
  destruct (native_error reg (type e) e) as [err|].
  { unfold mbind, M_bind, deref, observe. simpl. rewrite Hr.
    by rewrite add_trace_app. }
  unfold mbind at 1. unfold M_bind at 1. unfold deref at 1. simpl heap. rewrite Hr.
  unfold mbind at 1. unfold M_bind at 1. unfold db_logEvent. simpl store.
  destruct (logEvent db e (store w)) as [s [err|receipt]].
  { unfold mbind, M_bind, deref, observe. simpl. rewrite Hr.
    same_run. }
  assert (Hlt : r < length (heap w)) by (by eapply lookup_lt_Some).
  set (e' := promote (receipt_eventId receipt) e).
  set (w1 := add_trace
               (EmitCalled r e :: phase_trace Eager (type e) r e 0 (listeners reg (type e))
                ++ [LogEventCall e (inr (receipt_eventId receipt));
                    Console (BusPersisted (type e) (receipt_eventId receipt))])
               (with_heap (<[r := e']> (heap w)) (with_store s w))).
  assert (Hr1 : heap w1 !! r = Some e').
  { subst w1. simpl. by rewrite list_lookup_insert_eq. }
  assert (Hty : type e +:+ KAFKED = type e') by done.
  pose proof (originalMethod_read_only Guaranteed reg (type e') r e' w1 Hro Hr1) as Hg.
  unfold mbind, M_bind, observe, modify, deref.
  cbn [heap with_heap add_trace with_store store trace uuidSeed clock].
  rewrite Hr. cbn [heap with_heap add_trace with_store store trace uuidSeed clock].
  rewrite list_lookup_insert_eq by done.
  rewrite list_insert_insert_eq.
  fold (promote (receipt_eventId receipt) e). fold e'.
  rewrite Hty.
  match goal with |- context [originalMethod db Guaranteed reg (type e') r ?w'] =>
    replace w' with w1 by (subst w1; apply world_ext;
      cbn [heap store trace uuidSeed clock add_trace with_heap with_store];
      try done; by norm_app) end.
  rewrite Hg.
  destruct (native_error reg (type e') e') as [err|]; subst w1.
  - cbn [heap with_heap add_trace with_store store trace uuidSeed clock fst snd].
    rewrite list_lookup_insert_eq by done.
    same_run.
  - cbn [fst snd]. same_run.
Qed.

(** *** Reading the trace of a phase *)

Lemma delivered_app ph t1 t2 :
  delivered ph (t1 ++ t2) = delivered ph t1 ++ delivered ph t2.
Proof. apply omap_app. Qed.

Lemma appends_app t1 t2 : appends (t1 ++ t2) = appends t1 ++ appends t2.
Proof. apply omap_app. Qed.

Lemma errors_logged_app t1 t2 :
  errors_logged (t1 ++ t2) = errors_logged t1 ++ errors_logged t2.
Proof. apply omap_app. Qed.

Lemma append_outcome_app t1 t2 :
  append_outcome (t1 ++ t2) =
    match append_outcome t1 with Some res => Some res | None => append_outcome t2 end.
Proof. induction t1 as [|[] t1 IH]; simpl; auto. Qed.

Lemma times_invoked_app ph idx t1 t2 :
  times_invoked ph idx (t1 ++ t2) = times_invoked ph idx t1 + times_invoked ph idx t2.
Proof. unfold times_invoked. by rewrite List.filter_app, length_app. Qed.

Lemma delivered_phase_trace ph name r e idx ls :
  Forall (λ d, d = (r, e)) (delivered ph (phase_trace ph name r e idx ls)).
Proof.
  revert idx. induction ls as [|h rest IH]; intros idx; simpl; [constructor|].
  destruct (decide (ph = ph)); [|done]. constructor; [done|].
  destruct (h e).2; [apply IH | constructor].
Qed.

Lemma delivered_phase_trace_other ph ph' name r e idx ls :
  ph ≠ ph' → delivered ph' (phase_trace ph name r e idx ls) = [].
Proof.
  intros Hne. revert idx. induction ls as [|h rest IH]; intros idx; simpl; [done|].
  destruct (decide (ph = ph')); [done|].
  destruct (h e).2; [apply IH | done].
Qed.

Lemma append_outcome_phase_trace ph name r e idx ls :
  append_outcome (phase_trace ph name r e idx ls) = None.
Proof.
  revert idx. induction ls as [|h rest IH]; intros idx; simpl; [done|].
  destruct (h e).2; [apply IH | done].
Qed.

Lemma errors_logged_phase_trace ph name r e idx ls :
  errors_logged (phase_trace ph name r e idx ls) = [].
Proof.
  revert idx. induction ls as [|h rest IH]; intros idx; simpl; [done|].
  destruct (h e).2; [apply IH | done].
Qed.

Lemma stage_phase_trace ph name r e idx ls :
  Forall (λ n, n = stage_of ph) (omap stage (phase_trace ph name r e idx ls)).
Proof.
  revert idx. induction ls as [|h rest IH]; intros idx; simpl; [constructor|].
  destruct ph; simpl; (constructor; [done|]);
    (destruct (h e).2; [apply IH | by repeat constructor]).
Qed.

Lemma times_invoked_phase_trace_other ph ph' i name r e idx ls :
  ph ≠ ph' → times_invoked ph' i (phase_trace ph name r e idx ls) = 0.
Proof.
  intros Hne. revert idx. induction ls as [|h rest IH]; intros idx; [done|].
  unfold times_invoked in *. simpl.
  rewrite bool_decide_eq_false_2 by (intros [? ?]; done).
  destruct (h e).2; [apply IH | done].
Qed.

Lemma times_invoked_phase_trace ph i name r e idx ls :
  times_invoked ph i (phase_trace ph name r e idx ls) =
    if decide (idx ≤ i < idx + reached e ls) then 1 else 0.
Proof.
  revert idx. induction ls as [|h rest IH]; intros idx.
  - simpl. case_decide; [lia | done].
  - unfold times_invoked in *. simpl.
    destruct (decide (idx = i)) as [Heq|Hne].
    + rewrite bool_decide_eq_true_2 by done.
      destruct (h e).2 as [|err]; simpl; rewrite ?IH; repeat case_decide; lia.
    + rewrite bool_decide_eq_false_2 by (intros [_ ?]; done).
      destruct (h e).2 as [|err]; simpl; rewrite ?IH; repeat case_decide; lia.
Qed.

(** A listener is reached when none before it throws. *)
Lemma reached_lt e ls i :
  i < length ls →
  (∀ j h, j < i → ls !! j = Some h → (h e).2 = Normal) →
  i < reached e ls.
Proof.
  revert i. induction ls as [|h rest IH]; intros i Hi Hnorm; simpl in *; [lia|].
  destruct i as [|i]; [lia|].
  rewrite (Hnorm 0 h) by (done || lia).
  apply ->Nat.succ_lt_mono. apply IH; [lia|].
  intros j h' Hj Hl. apply (Hnorm (S j) h'); [lia | done].
Qed.

(** *** Stages in order *)

Lemma sorted_constant (k : nat) (l : list nat) :
  Forall (λ n, n = k) l → StronglySorted le l.
Proof.
  induction 1 as [|x l -> Hl IH]; constructor; [done|].
  eapply Forall_impl; [exact Hl|]. simpl. lia.
Qed.

Lemma sorted_stages (zs ms ts : list nat) :
  Forall (λ n, n = 0) zs → (ms = [] ∨ ms = [1]) → Forall (λ n, n = 2) ts →
  StronglySorted le (zs ++ ms ++ ts).
Proof.
  intros Hz Hm Ht. induction Hz as [|x zs -> Hz IH]; simpl.
  - destruct Hm as [-> | ->]; simpl.
    + by eapply sorted_constant.
    + constructor; [by eapply sorted_constant|].
      eapply Forall_impl; [exact Ht|]. simpl. lia.
  - constructor; [done|]. apply Forall_forall. intros. lia.
Qed.

(** *** The double emit over read-only listeners *)

Lemma emit_read_only_trace reg r e w : trace (emit_read_only reg r e w).1 = trace w.
Proof.
  unfold emit_read_only. destruct (native_error reg (type e) e); [done|].
  destruct (logEvent db e (store w)) as [s [err|receipt]]; [done|].
  by destruct (native_error _ _ _).
Qed.

Lemma emitted_emit_read_only reg r e w :
  handlers_read_only reg → heap w !! r = Some e →
  emitted (emit db reg r) w = (emit_read_only reg r e w).2.
Proof.
  intros Hro Hr. eapply emitted_add_trace.
  - by apply emit_read_only_run.
  - apply emit_read_only_trace.
Qed.

Lemma native_error_None reg name e :
  native_error reg name e = None → phase_error e (listeners reg name) = None.
Proof. unfold native_error. by case_decide. Qed.

(** The run when the append resolved with [l]. *)
Lemma emit_read_only_appended reg r e w l :
  append_outcome (emit_read_only reg r e w).2 = Some (inr l) →
  ∃ s tail,
    phase_error e (listeners reg (type e)) = None ∧
    (emit_read_only reg r e w).1 =
      with_heap (<[r := promote l e]> (heap w)) (with_store s w) ∧
    (emit_read_only reg r e w).2 =
      ([EmitCalled r e] ++ phase_trace Eager (type e) r e 0 (listeners reg (type e)))
      ++ [LogEventCall e (inr l); Console (BusPersisted (type e) l)]
      ++ phase_trace Guaranteed (type e +:+ KAFKED) r (promote l e) 0
           (listeners reg (type e +:+ KAFKED))
      ++ tail ∧
    (tail = [] ∨ ∃ err, tail = [Console (BusCritical (type e +:+ KAFKED) err)]).
Proof.
  unfold emit_read_only.
  destruct (native_error reg (type e) e) as [err|] eqn:Hn.
  { cbn [fst snd]. rewrite !append_outcome_app, append_outcome_phase_trace. done. }
  apply native_error_None in Hn.
  destruct (logEvent db e (store w)) as [s [err|receipt]].
  { cbn [fst snd]. rewrite !append_outcome_app, append_outcome_phase_trace. done. }
  change (type (promote (receipt_eventId receipt) e)) with (type e +:+ KAFKED).
  destruct (native_error reg (type e +:+ KAFKED) _) as [err|]; cbn [fst snd];
    rewrite !append_outcome_app, append_outcome_phase_trace;
    intros [= <-]; exists s.
  - exists [Console (BusCritical (type e +:+ KAFKED) err)].
    split_and!; [done | done | by rewrite <- !app_assoc | eauto].
  - exists []. split_and!; [done | done | by rewrite app_nil_r | eauto].
Qed.

(** The run when the append was rejected with [err]. *)
Lemma emit_read_only_rejected reg r e w err :
  append_outcome (emit_read_only reg r e w).2 = Some (inl err) →
  ∃ s,
    phase_error e (listeners reg (type e)) = None ∧
    (emit_read_only reg r e w).1 = with_store s w ∧
    (emit_read_only reg r e w).2 =
      ([EmitCalled r e] ++ phase_trace Eager (type e) r e 0 (listeners reg (type e)))
      ++ [LogEventCall e (inl err); Console (BusCritical (type e) err)].
Proof.
  unfold emit_read_only.
  destruct (native_error reg (type e) e) as [err'|] eqn:Hn.
  { cbn [fst snd]. rewrite !append_outcome_app, append_outcome_phase_trace. done. }
  apply native_error_None in Hn.
  destruct (logEvent db e (store w)) as [s [err'|receipt]].
  { cbn [fst snd]. rewrite !append_outcome_app, append_outcome_phase_trace.
    intros [= <-]. by exists s. }
  destruct (native_error reg _ _); cbn [fst snd];
    rewrite !append_outcome_app, append_outcome_phase_trace; done.
Qed.

Lemma emit_read_only_eager reg r e w :
  Forall (λ d, d = (r, e)) (delivered Eager (emit_read_only reg r e w).2).
Proof.
  pose proof (delivered_phase_trace Eager (type e) r e 0 (listeners reg (type e))) as He.
  unfold emit_read_only.
  destruct (native_error reg (type e) e) as [err|].
  { cbn [fst snd]. rewrite !delivered_app.
    change (delivered Eager [_]) with (@nil (nat * DomainEvent)).
    by rewrite app_nil_r. }
  destruct (logEvent db e (store w)) as [s [err|receipt]].
  { cbn [fst snd]. rewrite !delivered_app.
    change (delivered Eager [EmitCalled _ _]) with (@nil (nat * DomainEvent)).
    change (delivered Eager [_; _]) with (@nil (nat * DomainEvent)).
    by rewrite app_nil_r. }
  destruct (native_error reg _ _); cbn [fst snd].
  all: rewrite !delivered_app, (delivered_phase_trace_other Guaranteed Eager) by discriminate.
  all: change (delivered Eager [EmitCalled _ _]) with (@nil (nat * DomainEvent)).
  all: change (delivered Eager [_; _]) with (@nil (nat * DomainEvent)).
  all: try change (delivered Eager [Console _]) with (@nil (nat * DomainEvent)).
  all: by rewrite ?app_nil_r.
Qed.

Lemma emit_read_only_guaranteed reg r e w :
  Forall (λ d, ∃ l, append_outcome (emit_read_only reg r e w).2 = Some (inr l) ∧
                    d = (r, promote l e))
         (delivered Guaranteed (emit_read_only reg r e w).2).
Proof.
  unfold emit_read_only.
  destruct (native_error reg (type e) e) as [err|].
  { cbn [fst snd]. rewrite !delivered_app.
    rewrite (delivered_phase_trace_other Eager Guaranteed) by discriminate.
    constructor. }
  destruct (logEvent db e (store w)) as [s [err|receipt]].
  { cbn [fst snd]. rewrite !delivered_app.
    rewrite (delivered_phase_trace_other Eager Guaranteed) by discriminate.
    constructor. }
  set (e' := promote _ e).
  pose proof (delivered_phase_trace Guaranteed (type e') r e' 0 (listeners reg (type e'))) as Hg.
  destruct (native_error reg _ _); cbn [fst snd].
  all: rewrite !delivered_app, !append_outcome_app, !append_outcome_phase_trace.
  all: rewrite (delivered_phase_trace_other Eager Guaranteed) by discriminate.
  all: change (delivered Guaranteed [EmitCalled _ _]) with (@nil (nat * DomainEvent)).
  all: change (delivered Guaranteed [LogEventCall _ _; _]) with (@nil (nat * DomainEvent)).
  all: try change (delivered Guaranteed [Console _]) with (@nil (nat * DomainEvent)).
  all: rewrite ?app_nil_r; simpl.
  all: eapply Forall_impl; [exact Hg|]; intros d ->; eauto.
Qed.

Lemma ends_with_app ty suffix : ends_with suffix (ty +:+ suffix) = true.
Proof.
  induction ty as [|a ty IH].
  - change ("" +:+ suffix) with suffix.
    destruct suffix; cbn [ends_with]; by rewrite bool_decide_eq_true_2.
  - change (String a ty +:+ suffix) with (String a (ty +:+ suffix)).
    cbn [ends_with]. rewrite IH. apply orb_true_r.
Qed.

Lemma kafked_invariant_promote l e : kafked_invariant (promote l e).
Proof.
  split; simpl; [done|]. unfold KAFKED. by rewrite ends_with_app.
Qed.

(** *** The claims about the bus, over read-only listeners *)

(** C9. When the append resolves with [l], the promotion changes the
    type and the logId of the published object and nothing else: eager
    listeners were handed object [r] with content [e], guaranteed
    listeners are handed the same object [r], whose eventId, payload,
    timestamp, correlationId and causationId are those of [e]; no copy is
    made, the one object is rewritten in place, so after the publish a
    retained reference [r] reads the suffixed type and the logId. *)
Theorem promotion_in_place reg r w e l :
  heap w !! r = Some e →
  handlers_read_only reg →
  append_outcome (emitted (emit db reg r) w) = Some (inr l) →
  Forall (λ d, d = (r, e)) (delivered Eager (emitted (emit db reg r) w)) ∧
  Forall (λ d, d = (r, promote l e)) (delivered Guaranteed (emitted (emit db reg r) w)) ∧
  (eventId (promote l e) = eventId e ∧
   payload (promote l e) = payload e ∧
   timestamp (metadata (promote l e)) = timestamp (metadata e) ∧
   correlationId (metadata (promote l e)) = correlationId (metadata e) ∧
   causationId (metadata (promote l e)) = causationId (metadata e) ∧
   type (promote l e) = type e +:+ "-KAFKED" ∧
   logId (metadata (promote l e)) = Some l) ∧
  heap (emit db reg r w).1 = <[r := promote l e]> (heap w) ∧
  heap (emit db reg r w).1 !! r = Some (promote l e).
Proof.
  intros Hr Hro. rewrite (emitted_emit_read_only reg r e w) by done.
  rewrite (emit_read_only_run reg r e w) by done. cbn [fst snd].
  intros Ha.
  pose proof (emit_read_only_guaranteed reg r e w) as Hg.
  destruct (emit_read_only_appended _ _ _ _ _ Ha) as (s & tail & He & Hw & Ht & Htail).
  split_and!; try done.
  - apply emit_read_only_eager.
  - eapply Forall_impl; [exact Hg|]. intros d (l' & Hl' & ->).
    rewrite Ha in Hl'. by injection Hl' as <-.
  - by rewrite Hw.
  - rewrite Hw. simpl. apply list_lookup_insert_eq. by eapply lookup_lt_Some.
Qed.

(** *** Arbitrary listeners *)

Lemma with_heap_same w : with_heap (heap w) w = w.
Proof. by destruct w. Qed.

Lemma callListeners_general ph name r idx ls w :
  is_Some (heap w !! r) →
  ∃ h' t o,
    callListeners db ph name r idx ls w = (add_trace t (with_heap h' w), o) ∧
    is_Some (h' !! r) ∧
    phase_run ph idx (length ls) t o.
Proof.
  unfold phase_run.
  revert idx w. induction ls as [|h rest IH]; intros idx w [e Hr].
  - exists (heap w), [], (Ret tt). simpl.
    rewrite add_trace_nil, with_heap_same. split_and!; eauto.
    exists 0. split_and!; [done..|]. intros i. case_decide; [lia|done].
  - simpl. unfold mbind, M_bind, deref, observe, call_handler, mbind, M_bind, deref.
    rewrite Hr. cbn [heap add_trace]. rewrite Hr.
    destruct (h e) as [e' c]. unfold modify. cbn [heap add_trace]. rewrite Hr.
    unfold mret, M_ret.
    set (w2 := with_heap _ _).
    assert (Hlt : r < length (heap w)) by (by eapply lookup_lt_Some).
    assert (Hr2 : is_Some (heap w2 !! r)).
    { subst w2. simpl. rewrite list_lookup_insert_eq; eauto. }
    assert (Hhere : ∀ i t, times_invoked ph i (Invoked ph name idx r e :: t)
                           = (if decide (idx = i) then 1 else 0) + times_invoked ph i t).
    { intros i t. unfold times_invoked. simpl. case_decide.
      - by rewrite bool_decide_eq_true_2.
      - by rewrite bool_decide_eq_false_2 by (intros [_ ?]; done). }
    destruct c as [|err].
    + destruct (IH (S idx) w2 Hr2) as (h' & t & o & Hrun & Hh' & Hst & (n & Hn & Hall & Hcnt) & Ho).
      exists h', (Invoked ph name idx r e :: t), o. rewrite Hrun. split_and!.
      * subst w2. same_run.
      * done.
      * constructor; [by destruct ph | done].
      * exists (S n). split_and!; [lia | intros Hret; f_equal; auto |].
        intros i. rewrite Hhere, Hcnt. repeat case_decide; lia.
      * destruct o; intros ph' n' i err'; [intros [?|Hin]; [done|by eapply Ho]|].
        intros [?|Hin]; [done|by eapply Ho].
    + exists (<[r:=e']> (heap w)), [Invoked ph name idx r e; Threw ph name idx err],
             (Throw err). split_and!.
      * subst w2. unfold throw. same_run.
      * rewrite list_lookup_insert_eq; eauto.
      * repeat constructor; by destruct ph.
      * exists 1. split_and!; [lia | done |].
        intros i. rewrite Hhere. change (times_invoked ph i [_]) with 0.
        repeat case_decide; lia.
      * intros ph' n i err' [?|[Heq|[]]]; [done|]. by inversion Heq.
Qed.

Lemma originalMethod_general ph reg name r w :
  is_Some (heap w !! r) →
  ∃ h' t o,
    originalMethod db ph reg name r w = (add_trace t (with_heap h' w), o) ∧
    is_Some (h' !! r) ∧
    phase_run ph 0 (length (listeners reg name)) t o.
Proof.
  intros Hr. unfold originalMethod. case_decide as Hd.
  - unfold phase_run. exists (heap w), [], (Throw UnhandledError). unfold throw.
    rewrite add_trace_nil, with_heap_same. split_and!; eauto.
    + exists 0. split_and!; [lia | done |]. intros i. case_decide; [lia|done].
    + by intros ? ? ? ? [].
  - by apply callListeners_general.
Qed.

(** Facts read off a trace whose steps all belong to one stage. *)
Lemma staged_bus_step k t :
  Forall (λ ob, stage ob = Some k) t → Forall bus_step t.
Proof.
  intros Hst. eapply Forall_impl; [exact Hst|].
  intros [] Ho; simpl in *; done.
Qed.

Lemma staged_append_outcome k t :
  k ≠ 1 → Forall (λ ob, stage ob = Some k) t → append_outcome t = None.
Proof.
  intros Hk. induction 1 as [|o t Ho _ IH]; [done|].
  destruct o as [| | | | | |]; simpl in *; try done. congruence.
Qed.

Lemma staged_delivered k ph t :
  k ≠ stage_of ph → Forall (λ ob, stage ob = Some k) t → delivered ph t = [].
Proof.
  intros Hk. induction 1 as [|o t Ho _ IH]; [done|].
  destruct o as [|ph' ? ? ? ?| | | | |]; simpl in *; try done.
  case_decide; [|done]. subst ph'. destruct ph; simpl in *; congruence.
Qed.

Lemma staged_errors_logged k t :
  Forall (λ ob, stage ob = Some k) t → errors_logged t = [].
Proof.
  induction 1 as [|o t Ho _ IH]; [done|].
  destruct o as [| | | | | |]; simpl in *; done.
Qed.

Lemma staged_no_threw k t ph n i err :
  k ≠ stage_of ph → Forall (λ ob, stage ob = Some k) t → ¬ In (Threw ph n i err) t.
Proof.
  intros Hk Hst Hin. rewrite Forall_forall in Hst.
  apply list_elem_of_In in Hin. specialize (Hst _ Hin).
  destruct ph; simpl in *; congruence.
Qed.

Lemma staged_times_invoked k ph i t :
  k ≠ stage_of ph → Forall (λ ob, stage ob = Some k) t → times_invoked ph i t = 0.
Proof.
  intros Hk. unfold times_invoked. induction 1 as [|o t Ho _ IH]; [done|].
  destruct o as [|ph' ? idx' ? ?| | | | |]; simpl in *; try done.
  rewrite bool_decide_eq_false_2; [done|].
  intros [-> _]. destruct ph; simpl in *; congruence.
Qed.

Lemma staged_stages k t :
  Forall (λ ob, stage ob = Some k) t → Forall (λ n, n = k) (omap stage t).
Proof.
  induction 1 as [|o t Ho _ IH]; [constructor|]. simpl. rewrite Ho. by constructor.
Qed.

Lemma phase_run_at_most_once ph idx len t o ph' i :
  phase_run ph idx len t o → times_invoked ph' i t ≤ 1.
Proof.
  intros (Hst & (n & _ & _ & Hcnt) & _). destruct (decide (ph' = ph)) as [->|Hne].
  - rewrite Hcnt. case_decide; lia.
  - rewrite (staged_times_invoked (stage_of ph)); [lia | | done].
    by destruct ph, ph'.
Qed.

Lemma phase_run_exactly_once ph len t i :
  phase_run ph 0 len t (Ret tt) → i < len → times_invoked ph i t = 1.
Proof.
  intros (_ & (n & _ & Hall & Hcnt) & _) Hi. rewrite Hcnt, Hall by done.
  case_decide; lia.
Qed.

(** The double emit over arbitrary listeners. *)
Lemma emit_general reg r e w :
  heap w !! r = Some e →
  ∃ w' t,
    emit db reg r w = (add_trace (EmitCalled r e :: t) w', Ret tt) ∧
    trace w' = trace w ∧
    Forall bus_step t ∧
    phase_ordered t ∧
    (∀ ph idx, times_invoked ph idx t ≤ 1) ∧
    (∀ n i err, In (Threw Eager n i err) t →
       append_outcome t = None ∧ store w' = store w ∧
       delivered Guaranteed t = [] ∧
       ∃ ty, errors_logged t = [BusCritical ty err]) ∧
    (∀ err, append_outcome t = Some (inl err) →
       delivered Guaranteed t = [] ∧
       exactly_once Eager reg (type e) t ∧
       ∃ ty, errors_logged t = [BusCritical ty err]).
Proof.
  intros Hr. unfold emit, try_catch, phase_ordered.
  unfold mbind at 1. unfold M_bind at 1. unfold deref at 1. rewrite Hr.
  unfold mbind at 1. unfold M_bind at 1. unfold observe at 1.
  unfold mbind at 1. unfold M_bind at 1.
  set (w0 := add_trace [EmitCalled r e] w).
  assert (Hr0 : is_Some (heap w0 !! r)) by (subst w0; simpl; eauto).
  destruct (originalMethod_general Eager reg (type e) r w0 Hr0)
    as (h1 & te & o1 & -> & [e1 Hr1] & Hrun1).
  pose proof Hrun1 as (Hste & _ & Ho1).
  pose proof (staged_stages _ _ Hste) as Hstages1.
  destruct o1 as [[]|err].
  2:{ (* the eager phase threw *)
    unfold mbind, M_bind, deref, observe. cbn [heap add_trace with_heap]. rewrite Hr1.
    exists (with_heap h1 w), (te ++ [Console (BusCritical (type e1) err)]).
    assert (Ha : append_outcome (te ++ [Console (BusCritical (type e1) err)]) = None).
    { by rewrite append_outcome_app, (staged_append_outcome 0). }
    split_and!.
    - subst w0. same_run.
    - done.
    - apply Forall_app. split; [by eapply staged_bus_step | by repeat constructor].
    - rewrite omap_app. change (omap stage [Console _]) with (@nil nat).
      rewrite app_nil_r. by eapply sorted_constant.
    - intros ph idx. rewrite times_invoked_app.
      change (times_invoked ph idx [Console _]) with 0.
      pose proof (phase_run_at_most_once _ _ _ _ _ ph idx Hrun1). lia.
    - intros n i err' Hin. apply in_app_or in Hin as [Hin|[?|[]]]; [|done].
      apply Ho1 in Hin as ->.
      rewrite delivered_app, (staged_delivered 0 Guaranteed) by done.
      rewrite errors_logged_app, (staged_errors_logged 0) by done.
      split_and!; eauto.
    - intros err'. by rewrite Ha. }
  (* the eager phase returned *)
  unfold mbind at 1. unfold M_bind at 1. unfold deref at 1.
  cbn [heap add_trace with_heap]. rewrite Hr1.
  unfold mbind at 1. unfold M_bind at 1. unfold db_logEvent.
  cbn [store add_trace with_heap].
  assert (Hlt : r < length h1) by (by eapply lookup_lt_Some).
  destruct (logEvent db e1 (store w0)) as [s [err|receipt]].
  { (* the append was rejected *)
    unfold mbind, M_bind, deref, observe.
    cbn [heap add_trace with_heap with_store]. rewrite Hr1.
    exists (with_heap h1 (with_store s w)),
           (te ++ [LogEventCall e1 (inl err); Console (BusCritical (type e1) err)]).
    split_and!.
    - subst w0. same_run.
    - done.
    - apply Forall_app. split; [by eapply staged_bus_step | by repeat constructor].
    - rewrite omap_app. change (omap stage [_; _]) with [1].
      by apply (sorted_stages _ [1] []); auto.
    - intros ph idx. rewrite times_invoked_app.
      change (times_invoked ph idx [_; _]) with 0.
      pose proof (phase_run_at_most_once _ _ _ _ _ ph idx Hrun1). lia.
    - intros n i err' Hin. apply in_app_or in Hin as [Hin|[?|[?|[]]]]; [|done..].
      by apply Ho1 in Hin.
    - intros err'. rewrite append_outcome_app, (staged_append_outcome 0) by done.
      intros [= <-]. split_and!.
      + by rewrite delivered_app, (staged_delivered 0 Guaranteed) by done.
      + intros idx Hidx. rewrite times_invoked_app.
        change (times_invoked Eager idx [_; _]) with 0.
        rewrite (phase_run_exactly_once _ _ _ _ Hrun1 Hidx). lia.
      + rewrite errors_logged_app, (staged_errors_logged 0) by done. eauto. }
  (* the append resolved *)
  set (l := receipt_eventId receipt).
  unfold mbind at 1. unfold M_bind at 1. unfold observe at 1.
  unfold mbind at 1. unfold M_bind at 1. unfold modify at 1.
  cbn [heap add_trace with_heap with_store]. rewrite Hr1.
  unfold mbind at 1. unfold M_bind at 1. unfold modify at 1.
  cbn [heap add_trace with_heap with_store].
  rewrite list_lookup_insert_eq by done. rewrite list_insert_insert_eq.
  set (e2 := set_type (type e1 +:+ KAFKED) (set_logId l e1)).
  set (w3 := with_heap (<[r:=e2]> h1) _).
  assert (Hr3 : is_Some (heap w3 !! r)).
  { subst w3. simpl. rewrite list_lookup_insert_eq; eauto. }
  destruct (originalMethod_general Guaranteed reg (type e1 +:+ KAFKED) r w3 Hr3)
    as (h4 & tg & o2 & -> & [e4 Hr4] & Hrun2).
  pose proof Hrun2 as (Hstg & _ & Ho2).
  pose proof (staged_stages _ _ Hstg) as Hstages2.
  set (tm := [LogEventCall e1 (inr l); Console (BusPersisted (type e1) l)]).
  assert (Hno : ∀ n i err, ¬ In (Threw Eager n i err) (te ++ tm ++ tg)).
  { intros n i err Hin. apply in_app_or in Hin as [Hin|[?|[?|Hin]]]; try done.
    - by eapply Ho1.
    - by eapply (staged_no_threw 2 tg Eager). }
  assert (Hbus : Forall bus_step (te ++ tm ++ tg)).
  { rewrite !Forall_app. split_and!;
      [by eapply staged_bus_step | by repeat constructor | by eapply staged_bus_step]. }
  assert (Hord : StronglySorted le (omap stage (te ++ tm ++ tg))).
  { rewrite !omap_app. change (omap stage tm) with [1]. by apply sorted_stages; auto. }
  assert (Hcnt : ∀ ph idx, times_invoked ph idx (te ++ tm ++ tg) ≤ 1).
  { intros ph idx. rewrite !times_invoked_app.
    change (times_invoked ph idx tm) with 0.
    destruct ph.
    - rewrite (staged_times_invoked 2 Eager idx tg) by done.
      pose proof (phase_run_at_most_once _ _ _ _ _ Eager idx Hrun1). lia.
    - rewrite (staged_times_invoked 0 Guaranteed idx te) by done.
      pose proof (phase_run_at_most_once _ _ _ _ _ Guaranteed idx Hrun2). lia. }
  assert (Hout : append_outcome (te ++ tm ++ tg) = Some (inr l)).
  { by rewrite append_outcome_app, (staged_append_outcome 0). }
  destruct o2 as [[]|err].
  - exists (with_heap h4 (with_store s w)), (te ++ tm ++ tg).
    split_and!; try done.
    + subst w3 w0 tm. same_run.
    + intros n i err Hin. by apply Hno in Hin.
    + intros err. by rewrite Hout.
  - unfold mbind, M_bind, deref, observe. cbn [heap add_trace with_heap]. rewrite Hr4.
    exists (with_heap h4 (with_store s w)),
           ((te ++ tm ++ tg) ++ [Console (BusCritical (type e4) err)]).
    split_and!.
    + subst w3 w0 tm. same_run.
    + done.
    + apply Forall_app. split; [done | by repeat constructor].
    + rewrite omap_app. change (omap stage [Console _]) with (@nil nat).
      by rewrite app_nil_r.
    + intros ph idx. rewrite times_invoked_app.
      change (times_invoked ph idx [Console _]) with 0. specialize (Hcnt ph idx). lia.
    + intros n i err' Hin. apply in_app_or in Hin as [Hin|[?|[]]]; [|done].
      by apply Hno in Hin.
    + intros err'. by rewrite append_outcome_app, Hout.
Qed.

(** *** The claims about the bus, over arbitrary listeners *)

Lemma emitted_emit_general reg r e w w' t :
  emit db reg r w = (add_trace (EmitCalled r e :: t) w', Ret tt) →
  trace w' = trace w →
  emitted (emit db reg r) w = EmitCalled r e :: t.
Proof. intros Hrun Htr. by eapply emitted_add_trace. Qed.

(** C10. For any listeners at all, [emit] on an event object resolves:
    no failure reaches the publisher.  And when an eager-phase listener
    throws, [db.logEvent] is not called and the store is left as it was,
    no guaranteed-phase listener is called, and the exception shows up
    only as one line on the error console. *)
Theorem emit_swallows_failures reg r w e :
  heap w !! r = Some e →
  (emit db reg r w).2 = Ret tt ∧
  (∀ name idx err,
     In (Threw Eager name idx err) (emitted (emit db reg r) w) →
     append_outcome (emitted (emit db reg r) w) = None ∧
     store (emit db reg r w).1 = store w ∧
     delivered Guaranteed (emitted (emit db reg r) w) = [] ∧
     ∃ ty, errors_logged (emitted (emit db reg r) w) = [BusCritical ty err]).
Proof.
  intros Hr.
  destruct (emit_general reg r e w Hr) as (w' & t & Hrun & Htr & _ & _ & _ & Hthrew & _).
  rewrite (emitted_add_trace _ _ _ _ _ Hrun Htr), Hrun. split; [done|].
  intros name idx err [?|Hin]; [done|]. cbn [fst store add_trace].
  destruct (Hthrew _ _ _ Hin) as (Ha & Hs & Hd & Hl). done.
Qed.

(** *** The projector *)

Lemma bus_step_rows_written t : Forall bus_step t → rows_written t = [].
Proof. induction 1 as [|[] t Ho _ IH]; simpl in *; done. Qed.

Lemma bus_step_published t : Forall bus_step t → published t = [].
Proof. induction 1 as [|[] t Ho _ IH]; simpl in *; done. Qed.

(** The four ways a run of the projector can go. *)
Lemma projector_run reg r incoming w :
  heap w !! r = Some incoming →
  ∃ w' t,
    projector db uuidv4 reg r w =
      (add_trace (Console (ProjectorReceived (logId (metadata incoming))) :: t) w', Ret tt) ∧
    trace w' = trace w ∧
    ((∃ s err,
        getEventByLogId db (logId (metadata incoming)) (store w) = (s, inl err) ∧
        w' = with_store s w ∧
        t = [GetEventByLogIdCall (logId (metadata incoming)) (inl err);
             Console (ProjectorFailed err)]) ∨
     (∃ s found,
        getEventByLogId db (logId (metadata incoming)) (store w) = (s, inr found) ∧
        invalid_source found = true ∧
        w' = with_store s w ∧
        t = [GetEventByLogIdCall (logId (metadata incoming)) (inr found);
             Console (ProjectorInvalid (logId (metadata incoming)))]) ∨
     (∃ s found s2 err,
        getEventByLogId db (logId (metadata incoming)) (store w) = (s, inr found) ∧
        invalid_source found = false ∧
        addMessage db (payload incoming !! "chatId") (payload incoming !! "userId")
          (payload incoming !! "messageText") s = (s2, inl err) ∧
        w' = with_store s2 w ∧
        t = [GetEventByLogIdCall (logId (metadata incoming)) (inr found);
             AddMessageCall (payload incoming !! "chatId") (payload incoming !! "userId")
               (payload incoming !! "messageText") (inl err);
             Console (ProjectorFailed err)]) ∨
     (∃ s found s2 row tb,
        getEventByLogId db (logId (metadata incoming)) (store w) = (s, inr found) ∧
        invalid_source found = false ∧
        addMessage db (payload incoming !! "chatId") (payload incoming !! "userId")
          (payload incoming !! "messageText") s = (s2, inr row) ∧
        Forall bus_step tb ∧
        t = [GetEventByLogIdCall (logId (metadata incoming)) (inr found);
             AddMessageCall (payload incoming !! "chatId") (payload incoming !! "userId")
               (payload incoming !! "messageText") (inr row);
             EmitCalled (length (heap w))
               (DomainEvent_constructor (uuidv4 (uuidSeed w)) (clock w)
                  "message-projected" row
                  (Some {| arg_correlationId := correlationId (metadata incoming);
                           arg_causationId := Some (eventId incoming) |}))]
            ++ tb)).
Proof.
  intros Hr. unfold projector.
  unfold mbind at 1. unfold M_bind at 1. unfold deref at 1. rewrite Hr.
  unfold mbind at 1. unfold M_bind at 1. unfold observe at 1.
  unfold try_catch.
  unfold mbind at 1. unfold M_bind at 1. unfold db_getEventByLogId.
  cbn [store add_trace].
  destruct (getEventByLogId db _ (store w)) as [s [err|found]] eqn:Hget.
  { unfold observe. eexists (with_store s w), _. split_and!; [|done|].
    2:{ left. exists s, err. split_and!; done. }
    same_run. }
  destruct (invalid_source found) eqn:Hinv.
  { unfold observe. eexists (with_store s w), _. split_and!; [|done|].
    2:{ right; left. exists s, found. split_and!; done. }
    same_run. }
  unfold mbind at 1. unfold M_bind at 1. unfold db_addMessage.
  cbn [store add_trace with_store].
  destruct (addMessage db _ _ _ s) as [s2 [err|row]] eqn:Hadd.
  { unfold observe. eexists (with_store s2 w), _. split_and!; [|done|].
    2:{ right; right; left. exists s, found, s2, err. split_and!; done. }
    same_run. }
  unfold mbind at 1. unfold M_bind at 1. unfold new_DomainEvent.
  cbn [heap store trace uuidSeed clock add_trace with_store].
  set (pe := DomainEvent_constructor _ _ _ _ _).
  set (w4 := Build_World _ _ _ _ _ _).
  assert (Hr4 : heap w4 !! length (heap w) = Some pe).
  { subst w4. simpl. by rewrite list_lookup_middle. }
  unfold not_awaited.
  destruct (emit_general reg (length (heap w)) pe w4 Hr4) as (w' & tb & -> & Htr & Hbus & _).
  cbn [fst].
  eexists (Build_World db (heap w') (store w') (trace w) (uuidSeed w') (clock w')), _.
  split_and!; [|done|].
  2:{ right; right; right. exists s, found, s2, row, tb. split_and!; done. }
  f_equal. apply world_ext; cbn [heap store trace uuidSeed clock add_trace]; try done.
  rewrite Htr. subst w4. by norm_app.
Qed.

(** Whatever row the projector writes, its three columns are read from
    the payload of the notification. *)
Lemma projector_row_source reg r incoming w c u m row :
  heap w !! r = Some incoming →
  In (c, u, m, row) (rows_written (emitted (projector db uuidv4 reg r) w)) →
  c = payload incoming !! "chatId" ∧
  u = payload incoming !! "userId" ∧
  m = payload incoming !! "messageText".
Proof.
  intros Hr. destruct (projector_run reg r incoming w Hr) as (w' & t & Hrun & Htr & Hcases).
  rewrite (emitted_add_trace _ _ _ _ _ Hrun Htr).
  destruct Hcases as [(s & err & _ & _ & ->)|[(s & found & _ & _ & _ & ->)|
    [(s & found & s2 & err & _ & _ & _ & _ & ->)
    |(s & found & s2 & row' & tb & _ & _ & _ & Hbus & ->)]]]; simpl; try done.
  fold (rows_written tb). rewrite (bus_step_rows_written tb Hbus).
  intros [[= <- <- <- <-]|[]]. done.
Qed.

(** C5. When the re-fetch by logId finds nothing, or finds a record whose
    type is not ['incoming-message'], the projector stops there: it has
    asked the store once, it writes no row, publishes nothing, and says
    so on the error console; the heap is untouched. *)
Theorem projector_aborts_on_invalid_source reg r w incoming s found :
  heap w !! r = Some incoming →
  getEventByLogId db (logId (metadata incoming)) (store w) = (s, inr found) →
  (found = None ∨ ∃ record, found = Some record ∧ rec_type record ≠ "incoming-message") →
  emitted (projector db uuidv4 reg r) w =
    [Console (ProjectorReceived (logId (metadata incoming)));
     GetEventByLogIdCall (logId (metadata incoming)) (inr found);
     Console (ProjectorInvalid (logId (metadata incoming)))] ∧
  rows_written (emitted (projector db uuidv4 reg r) w) = [] ∧
  published (emitted (projector db uuidv4 reg r) w) = [] ∧
  fetches (emitted (projector db uuidv4 reg r) w) = [logId (metadata incoming)] ∧
  errors_logged (emitted (projector db uuidv4 reg r) w) =
    [ProjectorInvalid (logId (metadata incoming))] ∧
  heap (projector db uuidv4 reg r w).1 = heap w ∧
  store (projector db uuidv4 reg r w).1 = s ∧
  (projector db uuidv4 reg r w).2 = Ret tt.
Proof.
  intros Hr Hget Hfound.
  assert (Hinv : invalid_source found = true).
  { destruct Hfound as [-> | (record & -> & Hty)]; [done|].
    simpl. by apply bool_decide_eq_true_2. }
  destruct (projector_run reg r incoming w Hr) as (w' & t & Hrun & Htr & Hcases).
  rewrite (emitted_add_trace _ _ _ _ _ Hrun Htr), Hrun.
  rewrite Hget in Hcases.
  destruct Hcases as [(s' & err & [=] & _)|[(s' & found' & [= <- <-] & _ & -> & ->)|
    [(s' & found' & s2 & err & [= <- <-] & Hinv' & _)
    |(s' & found' & s2 & row' & tb & [= <- <-] & Hinv' & _)]]]; [|congruence..].
  split_and!; done.
Qed.

(** C6. When the projector's write to the read model resolves with
    [row], exactly one event is handed to the bus: a new object of type
    ['message-projected'] with payload [row], whose correlationId is the
    triggering event's and whose causationId is the triggering event's
    eventId.  The triggering event's identifiers are as the constructor
    leaves them: a non-empty eventId, a correlationId that is null or
    non-empty. *)
Theorem projected_event_causal_chain reg r w incoming c u m row :
  heap w !! r = Some incoming →
  ids_normalised incoming →
  In (c, u, m, row) (rows_written (emitted (projector db uuidv4 reg r) w)) →
  ∃ pe,
    published (emitted (projector db uuidv4 reg r) w) = [(length (heap w), pe)] ∧
    heap w !! length (heap w) = None ∧
    type pe = "message-projected" ∧
    payload pe = row ∧
    correlationId (metadata pe) = correlationId (metadata incoming) ∧
    causationId (metadata pe) = Some (eventId incoming).
Proof.
  intros Hr [Hid Hcorr].
  destruct (projector_run reg r incoming w Hr) as (w' & t & Hrun & Htr & Hcases).
  rewrite (emitted_add_trace _ _ _ _ _ Hrun Htr).
  destruct Hcases as [(s & err & _ & _ & ->)|[(s & found & _ & _ & _ & ->)|
    [(s & found & s2 & err & _ & _ & _ & _ & ->)
    |(s & found & s2 & row' & tb & _ & _ & _ & Hbus & ->)]]]; simpl; try done.
  fold (rows_written tb). fold (published tb).
  rewrite (bus_step_rows_written tb Hbus), (bus_step_published tb Hbus).
  intros [[= <- <- <- <-]|[]].
  eexists. split_and!; try done.
  - by apply lookup_ge_None_2.
  - simpl. destruct (correlationId (metadata incoming)) as [cid|]; simpl; [|done].
    case_decide; [by subst|done].
  - simpl. by case_decide.
Qed.

(** *** The constructor *)

Lemma constructor_ids_normalised uuid now ty pl md :
  uuid ≠ "" → ids_normalised (DomainEvent_constructor uuid now ty pl md).
Proof.
  intros Hu. split; [done|]. simpl.
  destruct (arg_correlationId (default empty_metadata md)) as [cid|]; simpl; [|done].
  case_decide; [done|]. by intros [= ->].
Qed.

Lemma promote_ids_normalised l e : ids_normalised e → ids_normalised (promote l e).
Proof. by intros []. Qed.

Lemma constructor_sets_no_logId uuid now ty pl md :
  logId (metadata (DomainEvent_constructor uuid now ty pl md)) = None.
Proof. reflexivity. Qed.

(** C7, amended. [new DomainEvent(type, payload, metadata)] allocates
    one new object and does nothing else.  Its eventId is the uuid just
    drawn, which no other draw yields; it carries the given type and
    payload, the time of the call as timestamp, and no logId; its
    correlationId and causationId are the supplied ones when these are
    non-empty strings, and null when they are missing or empty. *)
Theorem constructor_builds_event ty pl md w :
  (∀ i j, uuidv4 i = uuidv4 j → i = j) →
  ∃ e,
    new_DomainEvent db uuidv4 ty pl md w =
      (Build_World db (heap w ++ [e]) (store w) (trace w) (S (uuidSeed w)) (clock w),
       Ret (length (heap w))) ∧
    eventId e = uuidv4 (uuidSeed w) ∧
    (∀ k, k ≠ uuidSeed w → uuidv4 k ≠ eventId e) ∧
    type e = ty ∧
    payload e = pl ∧
    timestamp (metadata e) = clock w ∧
    logId (metadata e) = None ∧
    (∀ s, arg_correlationId (default empty_metadata md) = Some s → s ≠ "" →
          correlationId (metadata e) = Some s) ∧
    (arg_correlationId (default empty_metadata md) = None ∨
     arg_correlationId (default empty_metadata md) = Some "" →
          correlationId (metadata e) = None) ∧
    (∀ s, arg_causationId (default empty_metadata md) = Some s → s ≠ "" →
          causationId (metadata e) = Some s) ∧
    (arg_causationId (default empty_metadata md) = None ∨
     arg_causationId (default empty_metadata md) = Some "" →
          causationId (metadata e) = None).
Proof.
  intros Hinj. eexists. split; [reflexivity|]. simpl. split_and!; try done.
  - intros k Hk Heq. by apply Hinj in Heq.
  - intros s -> Hs. simpl. by case_decide.
  - by intros [-> | ->].
  - intros s -> Hs. simpl. by case_decide.
  - by intros [-> | ->].
Qed.

End Facts.

(** ** The bus, for listeners that rewrite the event

    The claims about the double emit, for any listeners: each may rewrite
    the event it is handed and may throw. *)

Section AnyListeners.

Variable db : Database.
Implicit Types (w : World db) (t : list Obs) (e : DomainEvent) (reg : Registry).

Ltac same_steps :=
  f_equal; apply world_ext;
  cbn [heap store trace uuidSeed clock add_trace with_heap with_store];
  rewrite ?list_insert_insert_eq; try done; by norm_app.

(** *** One phase, for any listeners *)

Lemma callListeners_run ph name r e idx ls w :
  heap w !! r = Some e →
  callListeners db ph name r idx ls w =
    (add_trace (phase_steps ph name r e idx ls)
       (with_heap (<[r := left_by e ls]> (heap w)) w),
     match thrown_by e ls with None => Ret tt | Some err => Throw err end).
Proof.
  revert idx e w. induction ls as [|h rest IH]; intros idx e w Hr.
  - simpl. by rewrite add_trace_nil, (with_heap_id db w r e Hr).
  - assert (Hlt : r < length (heap w)) by (by eapply lookup_lt_Some).
    simpl. unfold mbind, M_bind, deref, observe, call_handler, mbind, M_bind, deref.
    rewrite Hr. cbn [heap add_trace]. rewrite Hr.
    destruct (h e) as [e' c]. unfold modify. cbn [heap add_trace fst snd]. rewrite Hr.
    unfold mret, M_ret.
    destruct c as [|err].
    + rewrite (IH (S idx) e')
        by (cbn [heap with_heap add_trace]; by apply list_lookup_insert_eq).
      destruct (thrown_by e' rest); same_steps.
    + unfold throw. same_steps.
Qed.

Lemma originalMethod_run ph reg name r e w :
  heap w !! r = Some e →
  originalMethod db ph reg name r w =
    (add_trace (phase_steps ph name r e 0 (listeners reg name))
       (with_heap (<[r := left_by e (listeners reg name)]> (heap w)) w),
     match native_thrown reg name e with None => Ret tt | Some err => Throw err end).
Proof.
  intros Hr. unfold originalMethod, native_thrown.
  destruct (decide (name = "error" ∧ listeners reg name = [])) as [[_ ->]|_].
  - simpl. by rewrite add_trace_nil, (with_heap_id db w r e Hr).
  - by apply callListeners_run.
Qed.

(** *** The double emit, for any listeners *)

Lemma emit_run reg r e w :
  heap w !! r = Some e →
  emit db reg r w = (add_trace (emit_steps reg r e w).2 (emit_steps reg r e w).1, Ret tt).
Proof.
  intros Hr. unfold emit, emit_steps, try_catch.
  assert (Hlt : r < length (heap w)) by (by eapply lookup_lt_Some).
  unfold mbind at 1. unfold M_bind at 1. unfold deref at 1. rewrite Hr.
  unfold mbind at 1. unfold M_bind at 1. unfold observe at 1.
  unfold mbind at 1. unfold M_bind at 1.
  rewrite (originalMethod_run Eager reg (type e) r e) by done.
  set (e1 := left_by e (listeners reg (type e))).
  destruct (native_thrown reg (type e) e) as [err|].
  { unfold mbind, M_bind, deref, observe. cbn [heap add_trace with_heap fst snd].
    rewrite list_lookup_insert_eq by done. same_steps. }
  unfold mbind at 1. unfold M_bind at 1. unfold deref at 1.
  cbn [heap add_trace with_heap]. rewrite list_lookup_insert_eq by done.
  unfold mbind at 1. unfold M_bind at 1. unfold db_logEvent.
  cbn [store add_trace with_heap].
  destruct (logEvent db e1 (store w)) as [s [err|receipt]].
  { unfold mbind, M_bind, deref, observe.
    cbn [heap add_trace with_heap with_store fst snd].
    rewrite list_lookup_insert_eq by done. same_steps. }
  set (l := receipt_eventId receipt).
  set (e2 := promote l e1).
  unfold mbind at 1. unfold M_bind at 1. unfold observe at 1.
  unfold mbind at 1. unfold M_bind at 1. unfold modify at 1.
  cbn [heap add_trace with_heap with_store].
  rewrite list_lookup_insert_eq by done.
  unfold mbind at 1. unfold M_bind at 1. unfold modify at 1.
  cbn [heap add_trace with_heap with_store].
  rewrite list_lookup_insert_eq by (by rewrite length_insert).
  rewrite !list_insert_insert_eq.
  fold (promote l e1). fold e2.
  change (type e1 +:+ KAFKED) with (type e2).
  match goal with |- context [originalMethod db Guaranteed reg (type e2) r ?w'] =>
    rewrite (originalMethod_run Guaranteed reg (type e2) r e2 w')
      by (cbn [heap with_heap add_trace with_store]; by apply list_lookup_insert_eq)
  end.
  cbn [heap add_trace with_heap with_store].
  destruct (native_thrown reg (type e2) e2) as [err|]; cbn [fst snd].
  - unfold mbind, M_bind, deref, observe. cbn [heap add_trace with_heap with_store].
    rewrite list_insert_insert_eq, list_lookup_insert_eq by done. same_steps.
  - same_steps.
Qed.

Lemma emit_steps_trace reg r e w : trace (emit_steps reg r e w).1 = trace w.
Proof.
  unfold emit_steps. destruct (native_thrown reg (type e) e); [done|].
  by destruct (logEvent db _ (store w)) as [s [err|receipt]].
Qed.

Lemma emitted_emit reg r e w :
  heap w !! r = Some e → emitted (emit db reg r) w = (emit_steps reg r e w).2.
Proof.
  intros Hr. eapply emitted_add_trace; [by apply emit_run | apply emit_steps_trace].
Qed.

(** *** Reading the steps of a phase *)

Lemma delivered_phase_steps ph name r e idx ls :
  delivered ph (phase_steps ph name r e idx ls) = through r (handed e ls).
Proof.
  revert e idx. induction ls as [|h rest IH]; intros e idx; simpl; [done|].
  destruct (decide (ph = ph)); [|done]. unfold through. simpl. f_equal.
  destruct (h e).2; [apply IH | done].
Qed.

Lemma delivered_phase_steps_other ph ph' name r e idx ls :
  ph ≠ ph' → delivered ph' (phase_steps ph name r e idx ls) = [].
Proof.
  intros Hne. revert e idx. induction ls as [|h rest IH]; intros e idx; simpl; [done|].
  destruct (decide (ph = ph')); [done|].
  destruct (h e).2; [apply IH | done].
Qed.

Lemma append_outcome_phase_steps ph name r e idx ls :
  append_outcome (phase_steps ph name r e idx ls) = None.
Proof.
  revert e idx. induction ls as [|h rest IH]; intros e idx; simpl; [done|].
  destruct (h e).2; [apply IH | done].
Qed.

Lemma appends_phase_steps ph name r e idx ls :
  appends (phase_steps ph name r e idx ls) = [].
Proof.
  revert e idx. induction ls as [|h rest IH]; intros e idx; simpl; [done|].
  destruct (h e).2; [apply IH | done].
Qed.

Lemma errors_logged_phase_steps ph name r e idx ls :
  errors_logged (phase_steps ph name r e idx ls) = [].
Proof.
  revert e idx. induction ls as [|h rest IH]; intros e idx; simpl; [done|].
  destruct (h e).2; [apply IH | done].
Qed.

Lemma staged_phase_steps ph name r e idx ls :
  Forall (λ ob, stage ob = Some (stage_of ph)) (phase_steps ph name r e idx ls).
Proof.
  revert e idx. induction ls as [|h rest IH]; intros e idx; simpl; [constructor|].
  constructor; [by destruct ph|].
  destruct (h e).2; [apply IH | constructor; [by destruct ph | constructor]].
Qed.

Lemma times_invoked_phase_steps_other ph ph' i name r e idx ls :
  ph ≠ ph' → times_invoked ph' i (phase_steps ph name r e idx ls) = 0.
Proof.
  intros Hne. revert e idx. induction ls as [|h rest IH]; intros e idx; [done|].
  unfold times_invoked in *. simpl.
  rewrite bool_decide_eq_false_2 by (intros [? ?]; done).
  destruct (h e).2; [apply IH | done].
Qed.

Lemma times_invoked_phase_steps ph i name r e idx ls :
  times_invoked ph i (phase_steps ph name r e idx ls) =
    if decide (idx ≤ i < idx + length (handed e ls)) then 1 else 0.
Proof.
  revert e idx. induction ls as [|h rest IH]; intros e idx.
  - simpl. case_decide; [lia | done].
  - unfold times_invoked in *. simpl.
    destruct (decide (idx = i)) as [Heq|Hne].
    + rewrite bool_decide_eq_true_2 by done.
      destruct (h e).2 as [|err]; simpl; rewrite ?IH; repeat case_decide; lia.
    + rewrite bool_decide_eq_false_2 by (intros [_ ?]; done).
      destruct (h e).2 as [|err]; simpl; rewrite ?IH; repeat case_decide; lia.
Qed.

Lemma threw_phase_steps ph ph' name name' r e idx i ls err :
  In (Threw ph' name' i err) (phase_steps ph name r e idx ls) →
  ph' = ph ∧ thrown_by e ls = Some err.
Proof.
  revert e idx. induction ls as [|h rest IH]; intros e idx; simpl; [done|].
  intros [Heq|Hin]; [done|].
  destruct (h e).2 as [|err'].
  - by eapply IH.
  - destruct Hin as [[= -> _ _ ->]|[]]. done.
Qed.

(** *** What the listeners are handed *)

Lemma handed_length_le e ls : length (handed e ls) ≤ length ls.
Proof.
  revert e. induction ls as [|h rest IH]; intros e; simpl; [done|].
  destruct (h e).2; [specialize (IH (h e).1) | simpl]; lia.
Qed.

Lemma handed_all e ls : thrown_by e ls = None → length (handed e ls) = length ls.
Proof.
  revert e. induction ls as [|h rest IH]; intros e; simpl; [done|].
  destruct (h e).2; [|done]. intros H. by rewrite IH.
Qed.

(** Each listener that is called is handed what the listeners called
    before it made of [e], and these returned normally; the last one
    called is the one that throws, if any does. *)
Lemma handed_lookup e ls i c :
  handed e ls !! i = Some c →
  c = left_by e (take i ls) ∧ thrown_by e (take i ls) = None.
Proof.
  revert e i. induction ls as [|h rest IH]; intros e i; simpl; [done|].
  destruct i as [|i]; simpl; [by intros [= ->]|].
  destruct (h e).2; [apply IH | done].
Qed.

Lemma handed_first e ls : ls ≠ [] → handed e ls !! 0 = Some e.
Proof. by destruct ls. Qed.

(** Over listeners that leave the event alone every call is handed the
    same content. *)
Lemma left_by_read_only e ls : Forall read_only ls → left_by e ls = e.
Proof.
  induction 1 as [|h rest Hh _ IH]; simpl; [done|].
  rewrite (Hh e). by destruct (h e).2.
Qed.

Lemma handed_read_only e ls c : Forall read_only ls → c ∈ handed e ls → c = e.
Proof.
  induction 1 as [|h rest Hh _ IH]; simpl; [by intros ?%elem_of_nil|].
  intros [->|Hin]%elem_of_cons; [done|]. rewrite (Hh e) in Hin.
  destruct (h e).2; [auto | by apply elem_of_nil in Hin].
Qed.

Lemma thrown_by_read_only e ls : Forall read_only ls → thrown_by e ls = phase_error e ls.
Proof.
  induction 1 as [|h rest Hh _ IH]; simpl; [done|].
  rewrite (Hh e). by destruct (h e).2.
Qed.

(** The listeners that are called: those before which no listener has
    thrown. *)
Lemma handed_lt e ls i :
  i < length (handed e ls) ↔ i < length ls ∧ thrown_by e (take i ls) = None.
Proof.
  revert e i. induction ls as [|h rest IH]; intros e i; simpl.
  - split; [lia | intros [? _]; lia].
  - destruct i as [|i]; simpl; [split; [intros _; split; [lia | done] | lia]|].
    destruct (h e).2.
    + rewrite <- !Nat.succ_lt_mono. apply IH.
    + simpl. split; [lia | by intros [_ ?]].
Qed.

Lemma through_lookup r cs i d :
  through r cs !! i = Some d → ∃ c, cs !! i = Some c ∧ d = (r, c).
Proof.
  unfold through. rewrite list_lookup_fmap. destruct (cs !! i) as [c|]; [|done].
  intros [= <-]. eauto.
Qed.

(** *** Where a step stands in a run *)

Lemma split_after {A} (P : A → Prop) (front back pre post : list A) o :
  Forall (λ x, ¬ P x) front → P o →
  front ++ back = pre ++ o :: post →
  ∃ mid, pre = front ++ mid ∧ back = mid ++ o :: post.
Proof.
  intros Hfront Ho. revert pre. induction Hfront as [|x front Hx _ IH]; intros pre Heq.
  - by exists pre.
  - destruct pre as [|y pre]; simplify_eq/=; [done|].
    destruct (IH pre) as (mid & -> & ->); [done|]. by exists mid.
Qed.

Lemma split_unique {A} (P : A → Prop) (front back pre post : list A) a o :
  Forall (λ x, ¬ P x) front → Forall (λ x, ¬ P x) back → P o →
  front ++ a :: back = pre ++ o :: post →
  pre = front ∧ o = a ∧ post = back.
Proof.
  intros Hfront Hback Ho Heq.
  destruct (split_after P front (a :: back) pre post o Hfront Ho Heq) as (mid & -> & Hmid).
  destruct mid as [|x mid]; simplify_eq/=; [by rewrite app_nil_r|].
  rewrite Forall_app, Forall_cons in Hback. by destruct Hback as (_ & ? & _).
Qed.

Lemma staged_not k k' (t : list Obs) :
  k ≠ k' → Forall (λ ob, stage ob = Some k) t → Forall (λ ob, ¬ stage ob = Some k') t.
Proof. intros Hk Hst. eapply Forall_impl; [exact Hst|]. intros ob -> [= ?]. done. Qed.

Lemma through_Forall r (P : nat * DomainEvent → Prop) cs :
  (∀ c, c ∈ cs → P (r, c)) → Forall P (through r cs).
Proof.
  intros H. unfold through. apply Forall_fmap, Forall_forall. intros c Hc. by apply H.
Qed.


Lemma native_thrown_None reg name e :
  native_thrown reg name e = None → thrown_by e (listeners reg name) = None.
Proof. unfold native_thrown. by case_decide. Qed.

Lemma native_thrown_None_registered reg name e :
  native_thrown reg name e = None → name = "error" → listeners reg name ≠ [].
Proof. unfold native_thrown. case_decide; [done|]. intros _ Hn Hl. tauto. Qed.

Lemma suffixed_not_error ty : ty +:+ KAFKED ≠ "error".
Proof.
  intros Heq. pose proof (ends_with_app ty KAFKED) as Hends.
  rewrite Heq in Hends. discriminate Hends.
Qed.

(** *** The three ways a publish goes *)

Lemma emitted_emit_cases reg r e w :
  heap w !! r = Some e →
  (∃ err,
     native_thrown reg (type e) e = Some err ∧
     emitted (emit db reg r) w =
       [EmitCalled r e] ++ phase_steps Eager (type e) r e 0 (listeners reg (type e))
         ++ [Console (BusCritical (type (left_by e (listeners reg (type e)))) err)] ∧
     heap (emit db reg r w).1 = <[r := left_by e (listeners reg (type e))]> (heap w)) ∨
  (∃ s err,
     native_thrown reg (type e) e = None ∧
     logEvent db (left_by e (listeners reg (type e))) (store w) = (s, inl err) ∧
     emitted (emit db reg r) w =
       [EmitCalled r e] ++ phase_steps Eager (type e) r e 0 (listeners reg (type e))
         ++ [LogEventCall (left_by e (listeners reg (type e))) (inl err)]
         ++ [Console (BusCritical (type (left_by e (listeners reg (type e)))) err)] ∧
     heap (emit db reg r w).1 = <[r := left_by e (listeners reg (type e))]> (heap w)) ∨
  (∃ s receipt tail,
     native_thrown reg (type e) e = None ∧
     logEvent db (left_by e (listeners reg (type e))) (store w) = (s, inr receipt) ∧
     emitted (emit db reg r) w =
       [EmitCalled r e] ++ phase_steps Eager (type e) r e 0 (listeners reg (type e))
         ++ [LogEventCall (left_by e (listeners reg (type e))) (inr (receipt_eventId receipt))]
         ++ [Console (BusPersisted (type (left_by e (listeners reg (type e))))
                        (receipt_eventId receipt))]
         ++ phase_steps Guaranteed
              (type (left_by e (listeners reg (type e))) +:+ KAFKED) r
              (promote (receipt_eventId receipt) (left_by e (listeners reg (type e)))) 0
              (listeners reg (type (left_by e (listeners reg (type e))) +:+ KAFKED))
         ++ tail ∧
     tail =
       match thrown_by (promote (receipt_eventId receipt) (left_by e (listeners reg (type e))))
               (listeners reg (type (left_by e (listeners reg (type e))) +:+ KAFKED)) with
       | Some err =>
           [Console (BusCritical
              (type (left_by (promote (receipt_eventId receipt)
                               (left_by e (listeners reg (type e))))
                       (listeners reg (type (left_by e (listeners reg (type e))) +:+ KAFKED))))
              err)]
       | None => []
       end ∧
     heap (emit db reg r w).1 =
       <[r := left_by (promote (receipt_eventId receipt) (left_by e (listeners reg (type e))))
                (listeners reg (type (left_by e (listeners reg (type e))) +:+ KAFKED))]>
         (heap w)).
Proof.
  intros Hr. rewrite (emitted_emit reg r e w Hr), (emit_run reg r e w Hr).
  unfold emit_steps. cbn [fst snd].
  destruct (native_thrown reg (type e) e) as [err|] eqn:Hth.
  { left. exists err. split_and!; [done | by norm_app | done]. }
  right. destruct (logEvent db _ (store w)) as [s [err|receipt]] eqn:Hlog.
  { left. exists s, err. split_and!; [done | done | by norm_app | done]. }
  right.
  change (type (promote (receipt_eventId receipt) (left_by e (listeners reg (type e)))))
    with (type (left_by e (listeners reg (type e))) +:+ KAFKED).
  unfold native_thrown at 1 2.
  destruct (decide (_ ∧ _)) as [[Hname _]|_].
  { by apply suffixed_not_error in Hname. }
  destruct (thrown_by _ _) as [err|] eqn:Hth2; cbn [fst snd].
  - eexists s, receipt, _. rewrite Hth2.
    split_and!; [done | done | | reflexivity | done]. by norm_app.
  - exists s, receipt, []. rewrite Hth2.
    split_and!; [done | done | rewrite app_nil_r; by norm_app | done | done].
Qed.


(** Reading a run given as an append of phases and single steps. *)
Ltac read_run :=
  rewrite ?delivered_app, ?appends_app, ?errors_logged_app, ?times_invoked_app,
    ?append_outcome_app;
  rewrite ?delivered_phase_steps, ?appends_phase_steps, ?errors_logged_phase_steps,
    ?append_outcome_phase_steps, ?times_invoked_phase_steps;
  rewrite ?(delivered_phase_steps_other Eager Guaranteed),
    ?(delivered_phase_steps_other Guaranteed Eager),
    ?(times_invoked_phase_steps_other Eager Guaranteed),
    ?(times_invoked_phase_steps_other Guaranteed Eager) by discriminate;
  cbn [delivered appends errors_logged append_outcome times_invoked is_invocation
       omap list_omap mbind option_bind List.filter length is_error_line
       decide_rel bool_decide];
  rewrite ?app_nil_l, ?app_nil_r.

Lemma phase_ordered_emit reg r e w :
  heap w !! r = Some e → phase_ordered (emitted (emit db reg r) w).
Proof.
  intros Hr.
  destruct (emit_general db reg r e w Hr) as (w' & t & Hrun & Htr & _ & Hord & _).
  by rewrite (emitted_emit_general _ _ _ _ _ _ _ Hrun Htr).
Qed.

Lemma emit_resolves reg r e w : heap w !! r = Some e → (emit db reg r w).2 = Ret tt.
Proof. intros Hr. by rewrite (emit_run reg r e w Hr). Qed.

Lemma exactly_once_all ph reg ty e t :
  (∀ i, times_invoked ph i t =
        if decide (i < length (handed e (listeners reg ty))) then 1 else 0) →
  thrown_by e (listeners reg ty) = None →
  exactly_once ph reg ty t.
Proof.
  intros Hcnt Hth i Hi. rewrite Hcnt, (handed_all _ _ Hth). by case_decide.
Qed.

(** C3. When the store rejects the append: no guaranteed-phase
    listener is called.  Every eager-phase listener has been called exactly
    once, in registration order, the first handed the event as published
    and each later one the event as the listeners before it left it, and
    each has returned; what they wrote is in the object when [emit] is
    over.  The store was handed the event as the eager phase left it.
    The bus has written nothing to the event, which reads as the eager
    phase left it; so, when the eager listeners leave it alone, it reads as
    it was published (no suffix added, no logId set), and no object of the
    heap has changed.  The failure is written by the bus to the error
    console, once, and [emit] itself resolves. *)
Theorem append_failure_terminal reg r w e err :
  heap w !! r = Some e →
  append_outcome (emitted (emit db reg r) w) = Some (inl err) →
  delivered Guaranteed (emitted (emit db reg r) w) = [] ∧
  exactly_once Eager reg (type e) (emitted (emit db reg r) w) ∧
  delivered Eager (emitted (emit db reg r) w)
    = through r (handed e (listeners reg (type e))) ∧
  length (handed e (listeners reg (type e))) = length (listeners reg (type e)) ∧
  thrown_by e (listeners reg (type e)) = None ∧
  appends (emitted (emit db reg r) w) = [(after_eager reg e, inl err)] ∧
  errors_logged (emitted (emit db reg r) w)
    = [BusCritical (type (after_eager reg e)) err] ∧
  (emit db reg r w).2 = Ret tt ∧
  heap (emit db reg r w).1 = <[r := after_eager reg e]> (heap w) ∧
  heap (emit db reg r w).1 !! r = Some (after_eager reg e) ∧
  (Forall read_only (listeners reg (type e)) →
   after_eager reg e = e ∧
   heap (emit db reg r w).1 = heap w ∧
   heap (emit db reg r w).1 !! r = Some e ∧
   Forall (λ d, d = (r, e)) (delivered Eager (emitted (emit db reg r) w)) ∧
   errors_logged (emitted (emit db reg r) w) = [BusCritical (type e) err]).
Proof.
  intros Hr Ha. pose proof (emit_resolves reg r e w Hr) as Hret.
  assert (Hlt : r < length (heap w)) by (by eapply lookup_lt_Some).
  unfold after_eager.
  destruct (emitted_emit_cases reg r e w Hr)
    as [(err0 & Hth & Ht & Hh) | [(s & err0 & Hth & Hlog & Ht & Hh)
       | (s & receipt & tail & Hth & Hlog & Ht & Htail & Hh)]];
    rewrite Ht in Ha |- *; revert Ha; read_run; intros Ha; try discriminate Ha.
  injection Ha as ->.
  pose proof (native_thrown_None _ _ _ Hth) as Hnone.
  split_and!; try done.
  - intros i Hi. read_run. rewrite (handed_all _ _ Hnone). case_decide; [done | lia].
  - by apply handed_all.
  - rewrite Hh. by apply list_lookup_insert_eq.
  - intros Hro. rewrite (left_by_read_only e _ Hro) in *.
    rewrite Hh, list_insert_id by done. split_and!; try done.
    apply through_Forall. intros c Hc. f_equal. by eapply handed_read_only.
Qed.


(** Proves that no step of a run given in closed form is of stage [k]. *)
Ltac no_stage :=
  repeat first
    [ apply Forall_nil_2
    | apply Forall_app_2
    | apply Forall_cons_2; [discriminate|]
    | eapply staged_not; [|apply staged_phase_steps]; discriminate ].

Lemma eager_deliveries reg r e w :
  heap w !! r = Some e →
  delivered Eager (emitted (emit db reg r) w) = through r (handed e (listeners reg (type e))) ∧
  ∀ i, times_invoked Eager i (emitted (emit db reg r) w) =
       if decide (i < length (handed e (listeners reg (type e)))) then 1 else 0.
Proof.
  intros Hr.
  destruct (emitted_emit_cases reg r e w Hr)
    as [(err0 & Hth & Ht & Hh) | [(s & err0 & Hth & Hlog & Ht & Hh)
       | (s & receipt & tail & Hth & Hlog & Ht & Htail & Hh)]];
    rewrite Ht; try (destruct (thrown_by _ _) in Htail; subst tail);
    (split; [by read_run | intros i; read_run; repeat case_decide; lia]).
Qed.

(** Where the append stands: right after the eager phase, which has
    ended without a throw. *)
Lemma append_position reg r e w pre e' res post :
  heap w !! r = Some e →
  emitted (emit db reg r) w = pre ++ LogEventCall e' res :: post →
  pre = [EmitCalled r e] ++ phase_steps Eager (type e) r e 0 (listeners reg (type e)) ∧
  e' = after_eager reg e ∧
  native_thrown reg (type e) e = None ∧
  delivered Eager post = [] ∧ appends post = [].
Proof.
  intros Hr Heq. unfold after_eager.
  destruct (emitted_emit_cases reg r e w Hr)
    as [(err0 & Hth & Ht & Hh) | [(s & err0 & Hth & Hlog & Ht & Hh)
       | (s & receipt & tail & Hth & Hlog & Ht & Htail & Hh)]];
    rewrite Ht in Heq.
  - apply (f_equal appends) in Heq. revert Heq. read_run.
    intros Heq. by destruct (appends pre).
  - apply (split_unique (λ o, stage o = Some 1)
             ([EmitCalled r e] ++ phase_steps Eager (type e) r e 0 (listeners reg (type e))))
      in Heq as (-> & [= -> ->] & ->); [done | no_stage | no_stage | done].
  - assert (Hback : Forall (λ o, ¬ stage o = Some 1) tail).
    { destruct (thrown_by _ _) in Htail; subst tail; no_stage. }
    apply (split_unique (λ o, stage o = Some 1)
             ([EmitCalled r e] ++ phase_steps Eager (type e) r e 0 (listeners reg (type e))))
      in Heq as (-> & [= -> ->] & ->); [|no_stage|no_stage; done|done].
    split_and!; try done.
    + read_run. by destruct (thrown_by _ _) in Htail; subst tail.
    + read_run. by destruct (thrown_by _ _) in Htail; subst tail.
Qed.

(** Where a step of the guaranteed phase stands: after the append, which
    has resolved. *)
Lemma guaranteed_position reg r e w pre o post :
  heap w !! r = Some e →
  emitted (emit db reg r) w = pre ++ o :: post →
  stage o = Some 2 →
  ∃ l mid,
    pre = ([EmitCalled r e] ++ phase_steps Eager (type e) r e 0 (listeners reg (type e))
           ++ [LogEventCall (after_eager reg e) (inr l)]
           ++ [Console (BusPersisted (type (after_eager reg e)) l)]) ++ mid ∧
    native_thrown reg (type e) e = None ∧
    delivered Eager mid = [] ∧ appends mid = [] ∧
    delivered Eager post = [] ∧ appends post = [] ∧
    ∀ i, times_invoked Eager i mid = 0.
Proof.
  intros Hr Heq Ho. unfold after_eager.
  destruct (emitted_emit_cases reg r e w Hr)
    as [(err0 & Hth & Ht & Hh) | [(s & err0 & Hth & Hlog & Ht & Hh)
       | (s & receipt & tail & Hth & Hlog & Ht & Htail & Hh)]];
    rewrite Ht in Heq.
  - exfalso.
    assert (Hno : Forall (λ x, ¬ stage x = Some 2) (pre ++ o :: post))
      by (rewrite <- Heq; no_stage).
    rewrite Forall_app, Forall_cons in Hno. by destruct Hno as (_ & ? & _).
  - exfalso.
    assert (Hno : Forall (λ x, ¬ stage x = Some 2) (pre ++ o :: post))
      by (rewrite <- Heq; no_stage).
    rewrite Forall_app, Forall_cons in Hno. by destruct Hno as (_ & ? & _).
  - rewrite !app_assoc in Heq. rewrite <- (app_assoc _ _ tail) in Heq.
    apply (split_after (λ x, stage x = Some 2)) in Heq as (mid & -> & Hback);
      [|no_stage|done].
    exists (receipt_eventId receipt), mid.
    assert (Hd : delivered Eager (mid ++ [o] ++ post) = [] ∧
                 appends (mid ++ [o] ++ post) = [] ∧
                 ∀ i, times_invoked Eager i (mid ++ [o] ++ post) = 0).
    { change (mid ++ [o] ++ post) with (mid ++ o :: post). rewrite <- Hback.
      destruct (thrown_by _ _) in Htail; subst tail; split_and!; try intros i; by read_run. }
    rewrite !delivered_app, !appends_app in Hd. destruct Hd as (Hd1 & Hd2 & Hd3).
    apply app_eq_nil in Hd1 as [Hd1 [_ Hd1']%app_eq_nil].
    apply app_eq_nil in Hd2 as [Hd2 [_ Hd2']%app_eq_nil].
    split_and!; try done; [by rewrite !app_assoc|].
    intros i. specialize (Hd3 i). rewrite times_invoked_app in Hd3. lia.
Qed.


(** The append is attempted exactly when the eager phase ends without a
    throw, and then once. *)
Lemma append_attempted reg r e w :
  heap w !! r = Some e →
  match native_thrown reg (type e) e with
  | None => ∃ res, appends (emitted (emit db reg r) w) = [(after_eager reg e, res)] ∧
                   append_outcome (emitted (emit db reg r) w) = Some res
  | Some _ => appends (emitted (emit db reg r) w) = [] ∧
              append_outcome (emitted (emit db reg r) w) = None ∧
              delivered Guaranteed (emitted (emit db reg r) w) = []
  end.
Proof.
  intros Hr. unfold after_eager.
  destruct (emitted_emit_cases reg r e w Hr)
    as [(err0 & Hth & Ht & Hh) | [(s & err0 & Hth & Hlog & Ht & Hh)
       | (s & receipt & tail & Hth & Hlog & Ht & Htail & Hh)]];
    rewrite Ht, Hth; try (destruct (thrown_by _ _) in Htail; subst tail);
    try (eexists; split); by read_run.
Qed.

(** The guaranteed phase runs exactly when the append has resolved. *)
Lemma guaranteed_deliveries reg r e w :
  heap w !! r = Some e →
  delivered Guaranteed (emitted (emit db reg r) w) =
    match append_outcome (emitted (emit db reg r) w) with
    | Some (inr l) =>
        through r (handed (promote l (after_eager reg e)) (guaranteed_listeners reg e))
    | _ => []
    end.
Proof.
  intros Hr. unfold guaranteed_listeners, after_eager.
  destruct (emitted_emit_cases reg r e w Hr)
    as [(err0 & Hth & Ht & Hh) | [(s & err0 & Hth & Hlog & Ht & Hh)
       | (s & receipt & tail & Hth & Hlog & Ht & Htail & Hh)]];
    rewrite Ht; try (destruct (thrown_by _ _) in Htail; subst tail); by read_run.
Qed.

(** The run when the append resolves with [l]. *)
Lemma resolved_run reg r e w l :
  heap w !! r = Some e →
  append_outcome (emitted (emit db reg r) w) = Some (inr l) →
  native_thrown reg (type e) e = None ∧
  appends (emitted (emit db reg r) w) = [(after_eager reg e, inr l)] ∧
  (∀ i, times_invoked Guaranteed i (emitted (emit db reg r) w) =
        if decide (i < length (handed (promote l (after_eager reg e))
                                     (guaranteed_listeners reg e)))
        then 1 else 0) ∧
  heap (emit db reg r w).1 =
    <[r := left_by (promote l (after_eager reg e)) (guaranteed_listeners reg e)]> (heap w) ∧
  errors_logged (emitted (emit db reg r) w) =
    match thrown_by (promote l (after_eager reg e)) (guaranteed_listeners reg e) with
    | Some err =>
        [BusCritical
           (type (left_by (promote l (after_eager reg e)) (guaranteed_listeners reg e))) err]
    | None => []
    end.
Proof.
  intros Hr Ha. unfold guaranteed_listeners, after_eager.
  destruct (emitted_emit_cases reg r e w Hr)
    as [(err0 & Hth & Ht & Hh) | [(s & err0 & Hth & Hlog & Ht & Hh)
       | (s & receipt & tail & Hth & Hlog & Ht & Htail & Hh)]];
    rewrite Ht in Ha |- *; revert Ha; read_run; intros Ha; try discriminate Ha.
  injection Ha as <-.
  destruct (thrown_by _ _) in Htail |- *; subst tail;
    (split_and!; [done | by read_run | | done | by read_run]);
    intros i; read_run; repeat case_decide; lia.
Qed.


Lemma thrown_by_prefix_read_only e ls i :
  Forall read_only ls →
  (∀ j h, j < i → ls !! j = Some h → (h e).2 = Normal) →
  thrown_by e (take i ls) = None.
Proof.
  intros Hro. revert i. induction Hro as [|h rest Hh _ IH]; intros i Hnorm.
  - by destruct i.
  - destruct i as [|i]; simpl; [done|].
    rewrite (Hnorm 0 h) by (done || lia). rewrite (Hh e).
    apply IH. intros j h' Hj Hl. apply (Hnorm (S j) h'); [lia | done].
Qed.

Lemma thrown_by_all_normal e ls :
  Forall read_only ls → (∀ h, h ∈ ls → (h e).2 = Normal) → thrown_by e ls = None.
Proof.
  intros Hro Hnorm. rewrite <- (firstn_all ls).
  apply thrown_by_prefix_read_only; [done|].
  intros j h _ Hl. apply Hnorm. by eapply list_elem_of_lookup_2.
Qed.

Lemma through_handed_lookup r e ls i d :
  through r (handed e ls) !! i = Some d →
  d = (r, left_by e (take i ls)) ∧ thrown_by e (take i ls) = None.
Proof.
  intros (c & Hc & ->)%through_lookup.
  by destruct (handed_lookup _ _ _ _ Hc) as [-> ?].
Qed.

Lemma count_invoked ph e ls t i :
  (∀ i, times_invoked ph i t = if decide (i < length (handed e ls)) then 1 else 0) →
  (i < length ls → thrown_by e (take i ls) = None → times_invoked ph i t = 1) ∧
  (thrown_by e (take i ls) ≠ None → times_invoked ph i t = 0) ∧
  times_invoked ph i t ≤ 1.
Proof.
  intros Hcnt. rewrite Hcnt. pose proof (handed_lt e ls i) as Hlt.
  split_and!.
  - intros Hi Hth. rewrite decide_True; [done | by apply Hlt].
  - intros Hth. rewrite decide_False; [done|]. intros Hi. by apply Hlt in Hi as [_ ?].
  - case_decide; lia.
Qed.

(** C4, amended. The eager-phase listeners of the event's type are
    called in registration order, each at most once: the first is handed
    the event as published, each later one the event as the listeners
    before it left it; a listener is called exactly once when none before
    it has thrown, and not at all otherwise.  The append is attempted
    exactly when the eager phase ends without a throw (for the type
    ['error'], only if it has a listener), and then once, with the event as
    the eager phase left it; the steps before it are the calls of all the
    eager listeners, once each, none of which threw, and no eager call
    and no append follows it.  A step of the guaranteed phase has before it
    the calls of all the eager listeners and the append, resolved, and after
    it no eager call and no append.  The stages never go backwards.  The
    eager listeners are handed the event without a logId when it had none
    as it was published and they leave it alone. *)
Theorem eager_append_guaranteed_order reg r w e :
  heap w !! r = Some e →
  phase_ordered (emitted (emit db reg r) w) ∧
  delivered Eager (emitted (emit db reg r) w)
    = through r (handed e (listeners reg (type e))) ∧
  (∀ i d, delivered Eager (emitted (emit db reg r) w) !! i = Some d →
     d = (r, left_by e (take i (listeners reg (type e)))) ∧
     thrown_by e (take i (listeners reg (type e))) = None) ∧
  (∀ i, (i < length (listeners reg (type e)) →
         thrown_by e (take i (listeners reg (type e))) = None →
         times_invoked Eager i (emitted (emit db reg r) w) = 1) ∧
        (thrown_by e (take i (listeners reg (type e))) ≠ None →
         times_invoked Eager i (emitted (emit db reg r) w) = 0) ∧
        times_invoked Eager i (emitted (emit db reg r) w) ≤ 1) ∧
  match native_thrown reg (type e) e with
  | None => ∃ res, appends (emitted (emit db reg r) w) = [(after_eager reg e, res)] ∧
                   append_outcome (emitted (emit db reg r) w) = Some res
  | Some _ => appends (emitted (emit db reg r) w) = [] ∧
              append_outcome (emitted (emit db reg r) w) = None ∧
              delivered Guaranteed (emitted (emit db reg r) w) = []
  end ∧
  (∀ pre e' res post,
     emitted (emit db reg r) w = pre ++ LogEventCall e' res :: post →
     e' = after_eager reg e ∧
     delivered Eager pre = through r (handed e (listeners reg (type e))) ∧
     exactly_once Eager reg (type e) pre ∧
     thrown_by e (listeners reg (type e)) = None ∧
     appends pre = [] ∧ delivered Guaranteed pre = [] ∧
     delivered Eager post = [] ∧ appends post = []) ∧
  (∀ pre o post,
     emitted (emit db reg r) w = pre ++ o :: post → stage o = Some 2 →
     (∃ l, appends pre = [(after_eager reg e, inr l)]) ∧
     delivered Eager pre = through r (handed e (listeners reg (type e))) ∧
     exactly_once Eager reg (type e) pre ∧
     delivered Eager post = [] ∧ appends post = []) ∧
  (logId (metadata e) = None → Forall read_only (listeners reg (type e)) →
   Forall (λ d, d = (r, e) ∧ logId (metadata d.2) = None)
          (delivered Eager (emitted (emit db reg r) w))).
Proof.
  intros Hr. destruct (eager_deliveries reg r e w Hr) as [Hd Hcnt].
  split_and!.
  - by apply (phase_ordered_emit reg r e).
  - done.
  - intros i d. rewrite Hd. apply through_handed_lookup.
  - intros i. by apply (count_invoked Eager e).
  - by apply append_attempted.
  - intros pre e' res post Heq.
    destruct (append_position reg r e w pre e' res post Hr Heq) as (-> & -> & Hth & Hp1 & Hp2).
    pose proof (native_thrown_None _ _ _ Hth) as Hnone.
    split_and!; try done; try by read_run.
    intros i Hi. read_run. rewrite (handed_all _ _ Hnone). case_decide; [done | lia].
  - intros pre o post Heq Ho.
    destruct (guaranteed_position reg r e w pre o post Hr Heq Ho)
      as (l & mid & -> & Hth & Hm1 & Hm2 & Hp1 & Hp2 & Hmi).
    pose proof (native_thrown_None _ _ _ Hth) as Hnone.
    split_and!; try done.
    + exists l. read_run. by rewrite Hm2.
    + read_run. by rewrite Hm1, app_nil_r.
    + intros i Hi. read_run. rewrite (handed_all _ _ Hnone).
      rewrite Hmi. case_decide; [done | lia].
  - intros Hl Hro. rewrite Hd. apply through_Forall. intros c Hc.
    by rewrite (handed_read_only e _ c Hro Hc).
Qed.


Lemma after_eager_read_only reg e :
  Forall read_only (listeners reg (type e)) → after_eager reg e = e.
Proof. apply left_by_read_only. Qed.

Lemma guaranteed_listeners_read_only reg e :
  Forall read_only (listeners reg (type e)) →
  guaranteed_listeners reg e = listeners reg (type e +:+ KAFKED).
Proof. intros Hro. unfold guaranteed_listeners. by rewrite after_eager_read_only. Qed.

(** C2, amended. When the append resolves with [l], it is the one
    append of the publish, made with the event as the eager phase left it,
    and every step of the guaranteed phase comes after it.  The listeners
    of the suffixed type are called in registration order, each at most
    once: the first is handed the promoted event (the type the event has
    when the eager phase is over, followed by "-KAFKED"; logId [l]), each
    later one the event as the guaranteed listeners before it left it; a
    listener is called exactly once when none before it has thrown, and not
    at all otherwise, so all are called exactly once when none throws.
    What they wrote is in the object when [emit] is over.  When the
    listeners leave the event alone, each call is handed the published
    object, whose type is now the original type followed by "-KAFKED" and
    whose logId is [l]. *)
Theorem guaranteed_after_append reg r w e l :
  heap w !! r = Some e →
  append_outcome (emitted (emit db reg r) w) = Some (inr l) →
  phase_ordered (emitted (emit db reg r) w) ∧
  appends (emitted (emit db reg r) w) = [(after_eager reg e, inr l)] ∧
  (∀ pre o post,
     emitted (emit db reg r) w = pre ++ o :: post → stage o = Some 2 →
     appends pre = [(after_eager reg e, inr l)]) ∧
  delivered Guaranteed (emitted (emit db reg r) w)
    = through r (handed (promote l (after_eager reg e)) (guaranteed_listeners reg e)) ∧
  (∀ i d, delivered Guaranteed (emitted (emit db reg r) w) !! i = Some d →
     d = (r, left_by (promote l (after_eager reg e)) (take i (guaranteed_listeners reg e))) ∧
     thrown_by (promote l (after_eager reg e)) (take i (guaranteed_listeners reg e)) = None) ∧
  (∀ i, (i < length (guaranteed_listeners reg e) →
         thrown_by (promote l (after_eager reg e)) (take i (guaranteed_listeners reg e)) = None →
         times_invoked Guaranteed i (emitted (emit db reg r) w) = 1) ∧
        (thrown_by (promote l (after_eager reg e)) (take i (guaranteed_listeners reg e)) ≠ None →
         times_invoked Guaranteed i (emitted (emit db reg r) w) = 0) ∧
        times_invoked Guaranteed i (emitted (emit db reg r) w) ≤ 1) ∧
  (thrown_by (promote l (after_eager reg e)) (guaranteed_listeners reg e) = None →
   exactly_once Guaranteed reg (type (after_eager reg e) +:+ KAFKED)
     (emitted (emit db reg r) w)) ∧
  (type (promote l (after_eager reg e)) = type (after_eager reg e) +:+ "-KAFKED" ∧
   logId (metadata (promote l (after_eager reg e))) = Some l) ∧
  heap (emit db reg r w).1 !! r
    = Some (left_by (promote l (after_eager reg e)) (guaranteed_listeners reg e)) ∧
  (handlers_read_only reg →
   after_eager reg e = e ∧
   guaranteed_listeners reg e = listeners reg (type e +:+ KAFKED) ∧
   (∀ idx, idx < length (listeners reg (type e +:+ KAFKED)) →
      (∀ j h, j < idx → listeners reg (type e +:+ KAFKED) !! j = Some h →
              (h (promote l e)).2 = Normal) →
      times_invoked Guaranteed idx (emitted (emit db reg r) w) = 1) ∧
   ((∀ h, h ∈ listeners reg (type e +:+ KAFKED) → (h (promote l e)).2 = Normal) →
      exactly_once Guaranteed reg (type e +:+ KAFKED) (emitted (emit db reg r) w)) ∧
   Forall (λ d, d = (r, promote l e) ∧ type d.2 = type e +:+ "-KAFKED" ∧
                logId (metadata d.2) = Some l)
          (delivered Guaranteed (emitted (emit db reg r) w)) ∧
   heap (emit db reg r w).1 !! r = Some (promote l e)).
Proof.
  intros Hr Ha.
  assert (Hlt : r < length (heap w)) by (by eapply lookup_lt_Some).
  destruct (resolved_run reg r e w l Hr Ha) as (Hth & Happ & Hcnt & Hh & Hlog).
  pose proof (guaranteed_deliveries reg r e w Hr) as Hd. rewrite Ha in Hd.
  assert (Hall : thrown_by (promote l (after_eager reg e)) (guaranteed_listeners reg e) = None →
                 exactly_once Guaranteed reg (type (after_eager reg e) +:+ KAFKED)
                   (emitted (emit db reg r) w)).
  { intros Hnone. by apply (exactly_once_all _ _ _ (promote l (after_eager reg e))). }
  assert (Hobj : heap (emit db reg r w).1 !! r
                 = Some (left_by (promote l (after_eager reg e)) (guaranteed_listeners reg e))).
  { rewrite Hh. by apply list_lookup_insert_eq. }
  split_and!.
  - by apply (phase_ordered_emit reg r e).
  - done.
  - intros pre o post Heq Ho.
    destruct (guaranteed_position reg r e w pre o post Hr Heq Ho)
      as (l' & mid & -> & _ & _ & Hm2 & _).
    rewrite Heq in Happ. revert Happ. read_run. rewrite Hm2.
    intros [= <-]. done.
  - done.
  - intros i d. rewrite Hd. apply through_handed_lookup.
  - intros i. by apply (count_invoked Guaranteed (promote l (after_eager reg e))).
  - done.
  - done.
  - done.
  - done.
  - intros Hro.
    assert (He1 : after_eager reg e = e) by apply after_eager_read_only, Hro.
    assert (Hls : guaranteed_listeners reg e = listeners reg (type e +:+ KAFKED))
      by apply guaranteed_listeners_read_only, Hro.
    rewrite He1, Hls in *.
    assert (Hro2 : Forall read_only (listeners reg (type e +:+ KAFKED))) by apply Hro.
    split_and!; try done.
    + intros idx Hidx Hnorm.
      apply (count_invoked Guaranteed (promote l e) (listeners reg (type e +:+ KAFKED)));
        [done | done |].
      by apply thrown_by_prefix_read_only.
    + intros Hnorm. apply Hall. by apply thrown_by_all_normal.
    + rewrite Hd. apply through_Forall. intros c Hc.
      by rewrite (handed_read_only _ _ c Hro2 Hc).
    + by rewrite Hobj, left_by_read_only.
Qed.

(** C8, amended. The listeners of each phase are handed the event in
    turn, the first eager one as it was published, the first guaranteed one
    as the bus promoted it: with a suffixed type and a logId.  When the
    listeners leave the event alone: whatever a guaranteed-phase listener
    is handed has a suffixed type and a logId, so it satisfies the
    invariant; whatever an eager-phase listener is handed is the event as
    it was published, so it satisfies the invariant when the published
    event does, as does every event published with no logId and a type
    without the suffix. *)
Theorem kafked_invariant_delivered reg r w e :
  heap w !! r = Some e →
  delivered Eager (emitted (emit db reg r) w)
    = through r (handed e (listeners reg (type e))) ∧
  delivered Guaranteed (emitted (emit db reg r) w) =
    match append_outcome (emitted (emit db reg r) w) with
    | Some (inr l) =>
        through r (handed (promote l (after_eager reg e)) (guaranteed_listeners reg e))
    | _ => []
    end ∧
  (∀ d, delivered Guaranteed (emitted (emit db reg r) w) !! 0 = Some d →
     ends_with KAFKED (type d.2) = true ∧ logId (metadata d.2) ≠ None) ∧
  (∀ d, delivered Eager (emitted (emit db reg r) w) !! 0 = Some d → d = (r, e)) ∧
  (handlers_read_only reg →
   Forall (λ d, ends_with KAFKED (type d.2) = true ∧ logId (metadata d.2) ≠ None)
          (delivered Guaranteed (emitted (emit db reg r) w)) ∧
   Forall (λ d, kafked_invariant d.2)
          (delivered Guaranteed (emitted (emit db reg r) w)) ∧
   Forall (λ d, d = (r, e)) (delivered Eager (emitted (emit db reg r) w)) ∧
   (kafked_invariant e →
    Forall (λ d, kafked_invariant d.2) (delivered Eager (emitted (emit db reg r) w))) ∧
   (logId (metadata e) = None → ends_with KAFKED (type e) = false →
    Forall (λ d, kafked_invariant d.2) (delivered Eager (emitted (emit db reg r) w)))).
Proof.
  intros Hr. destruct (eager_deliveries reg r e w Hr) as [Hd _].
  pose proof (guaranteed_deliveries reg r e w Hr) as Hg.
  assert (Hpromoted : ∀ l e1, ends_with KAFKED (type (promote l e1)) = true ∧
                              logId (metadata (promote l e1)) ≠ None).
  { intros l e1. split; [apply ends_with_app | done]. }
  split_and!; try done.
  - intros d. rewrite Hg. destruct (append_outcome _) as [[err|l]|]; try done.
    intros [-> _]%through_handed_lookup. apply Hpromoted.
  - intros d. rewrite Hd. by intros [-> _]%through_handed_lookup.
  - intros Hro.
    assert (Heager : Forall (λ d, d = (r, e)) (delivered Eager (emitted (emit db reg r) w))).
    { rewrite Hd. apply through_Forall. intros c Hc.
      by rewrite (handed_read_only _ _ c (Hro _) Hc). }
    assert (Hguar : Forall (λ d, ends_with KAFKED (type d.2) = true ∧
                                 logId (metadata d.2) ≠ None)
                      (delivered Guaranteed (emitted (emit db reg r) w))).
    { rewrite Hg. destruct (append_outcome _) as [[err|l]|]; try constructor.
      apply through_Forall. intros c Hc.
      rewrite (handed_read_only _ _ c (Hro _) Hc). apply Hpromoted. }
    split_and!; try done.
    + eapply Forall_impl; [exact Hguar|]. intros d [Hs Hl]. split; [done|].
      intros Hn. by rewrite Hs in Hn.
    + intros Hinv. eapply Forall_impl; [exact Heager|]. by intros d ->.
    + intros Hl Hs. eapply Forall_impl; [exact Heager|]. intros d ->.
      split; simpl; [by rewrite Hs | done].
Qed.

End AnyListeners.

(** ** The statements at concrete inputs *)

Lemma quiet_read_only : read_only quiet.
Proof. by intros e. Qed.

Lemma failing_read_only : read_only failing.
Proof. by intros e. Qed.

Lemma handlers_read_only_empty : handlers_read_only ∅.
Proof. intros name. unfold listeners. rewrite lookup_empty. constructor. Qed.

Lemma handlers_read_only_on name h reg :
  read_only h → handlers_read_only reg → handlers_read_only (on name h reg).
Proof.
  intros Hh Hreg name'. unfold on, listeners at 1.
  destruct (decide (name = name')) as [<-|Hne].
  - rewrite lookup_insert_eq. simpl. apply Forall_app. split; [apply Hreg | by constructor].
  - rewrite lookup_insert_ne by done. apply Hreg.
Qed.

Lemma sample_registry_read_only : handlers_read_only sample_registry.
Proof.
  repeat apply handlers_read_only_on;
    auto using quiet_read_only, handlers_read_only_empty.
Qed.

Lemma sample_uuid_length n : String.length (sample_uuid n) = S n.
Proof. induction n as [|n IH]; [done|]. simpl. by f_equal. Qed.

Lemma sample_uuid_inj i j : sample_uuid i = sample_uuid j → i = j.
Proof.
  intros Heq. apply (f_equal String.length) in Heq.
  rewrite !sample_uuid_length in Heq. lia.
Qed.

(** Scenario A with stamping subscribers: the order of the steps, what
    each eager subscriber is handed, and what reaches the store. *)
Lemma eager_append_guaranteed_order_witness :
  heap scenario_a !! 0 = Some incoming_message ∧
  phase_ordered (emitted (emit memDb stamping_registry 0) scenario_a) ∧
  delivered Eager (emitted (emit memDb stamping_registry 0) scenario_a)
    = [(0, incoming_message); (0, set_logId 99 incoming_message)] ∧
  times_invoked Eager 1 (emitted (emit memDb stamping_registry 0) scenario_a) = 1 ∧
  (∃ res, appends (emitted (emit memDb stamping_registry 0) scenario_a)
          = [(set_logId 99 incoming_message, res)] ∧
          append_outcome (emitted (emit memDb stamping_registry 0) scenario_a) = Some res) ∧
  (∀ pre o post,
     emitted (emit memDb stamping_registry 0) scenario_a = pre ++ o :: post →
     stage o = Some 2 →
     (∃ l, appends pre = [(set_logId 99 incoming_message, inr l)]) ∧
     delivered Eager pre = [(0, incoming_message); (0, set_logId 99 incoming_message)] ∧
     exactly_once Eager stamping_registry "incoming-message" pre ∧
     delivered Eager post = [] ∧ appends post = []).
Proof.
  destruct (eager_append_guaranteed_order memDb stamping_registry 0
              scenario_a incoming_message eq_refl)
    as (Hord & Hd & _ & Hcnt & Happ & _ & Hpos & _).
  split_and!; [reflexivity | exact Hord | exact Hd | | exact Happ | exact Hpos].
  apply (Hcnt 1); [vm_compute; lia | reflexivity].
Defined.

(** An eager subscriber is handed an event that carries a logId: when
    the event is one the bus has promoted before and is published again,
    and when an eager subscriber registered earlier has written one. *)
Lemma eager_handler_sees_logId :
  delivered Eager (emitted (emit memDb sample_registry 0) scenario_b)
    = [(0, hello_notification)] ∧
  logId (metadata hello_notification) = Some 42%Z ∧
  ¬ Forall (λ d, logId (metadata d.2) = None)
           (delivered Eager (emitted (emit memDb sample_registry 0) scenario_b)) ∧
  logId (metadata incoming_message) = None ∧
  delivered Eager (emitted (emit memDb stamping_registry 0) scenario_a)
    = [(0, incoming_message); (0, set_logId 99 incoming_message)] ∧
  logId (metadata (set_logId 99 incoming_message)) = Some 99%Z ∧
  ¬ Forall (λ d, logId (metadata d.2) = None)
           (delivered Eager (emitted (emit memDb stamping_registry 0) scenario_a)).
Proof.
  assert (Hb : delivered Eager (emitted (emit memDb sample_registry 0) scenario_b)
               = [(0, hello_notification)]) by (vm_compute; reflexivity).
  assert (Ha : delivered Eager (emitted (emit memDb stamping_registry 0) scenario_a)
               = [(0, incoming_message); (0, set_logId 99 incoming_message)])
    by (vm_compute; reflexivity).
  split_and!; try done.
  - rewrite Hb. intros H. apply Forall_inv in H. discriminate H.
  - rewrite Ha. intros H. apply Forall_inv_tail, Forall_inv in H. discriminate H.
Qed.

(** Scenario C with stamping subscribers: the store rejects the append;
    and with subscribers that leave the event alone. *)
Lemma append_failure_terminal_witness :
  heap scenario_c !! 0 = Some incoming_message ∧
  append_outcome (emitted (emit memDb stamping_registry 0) scenario_c)
    = Some (inl (Exn "StoreWriteError")) ∧
  delivered Guaranteed (emitted (emit memDb stamping_registry 0) scenario_c) = [] ∧
  exactly_once Eager stamping_registry "incoming-message"
    (emitted (emit memDb stamping_registry 0) scenario_c) ∧
  delivered Eager (emitted (emit memDb stamping_registry 0) scenario_c)
    = [(0, incoming_message); (0, set_logId 99 incoming_message)] ∧
  appends (emitted (emit memDb stamping_registry 0) scenario_c)
    = [(set_logId 99 incoming_message, inl (Exn "StoreWriteError"))] ∧
  errors_logged (emitted (emit memDb stamping_registry 0) scenario_c)
    = [BusCritical "incoming-message" (Exn "StoreWriteError")] ∧
  (emit memDb stamping_registry 0 scenario_c).2 = Ret tt ∧
  heap (emit memDb stamping_registry 0 scenario_c).1 = [set_logId 99 incoming_message] ∧
  heap (emit memDb sample_registry 0 scenario_c).1 = [incoming_message] ∧
  delivered Eager (emitted (emit memDb sample_registry 0) scenario_c)
    = [(0, incoming_message)] ∧
  errors_logged (emitted (emit memDb sample_registry 0) scenario_c)
    = [BusCritical "incoming-message" (Exn "StoreWriteError")].
Proof.
  assert (Ha : append_outcome (emitted (emit memDb stamping_registry 0) scenario_c)
               = Some (inl (Exn "StoreWriteError"))) by (vm_compute; reflexivity).
  assert (Ha' : append_outcome (emitted (emit memDb sample_registry 0) scenario_c)
                = Some (inl (Exn "StoreWriteError"))) by (vm_compute; reflexivity).
  destruct (append_failure_terminal memDb stamping_registry 0
              scenario_c incoming_message (Exn "StoreWriteError") eq_refl Ha)
    as (Hg & He & Hd & _ & _ & Happ & Hl & Hret & Hh & _).
  destruct (append_failure_terminal memDb sample_registry 0
              scenario_c incoming_message (Exn "StoreWriteError") eq_refl Ha')
    as (_ & _ & Hd' & _ & _ & _ & _ & _ & _ & _ & Hro).
  destruct (Hro (sample_registry_read_only "incoming-message")) as (_ & Hh' & _ & _ & Hl').
  split_and!;
    [reflexivity | exact Ha | exact Hg | exact He | exact Hd | exact Happ | exact Hl
    | exact Hret | exact Hh | exact Hh' | exact Hd' | exact Hl'].
Defined.

(** Scenario A with stamping subscribers, read for the guaranteed phase:
    the store answers 1; and with subscribers that leave the event
    alone. *)
Lemma guaranteed_after_append_witness :
  heap scenario_a !! 0 = Some incoming_message ∧
  append_outcome (emitted (emit memDb stamping_registry 0) scenario_a) = Some (inr 1%Z) ∧
  appends (emitted (emit memDb stamping_registry 0) scenario_a)
    = [(set_logId 99 incoming_message, inr 1%Z)] ∧
  delivered Guaranteed (emitted (emit memDb stamping_registry 0) scenario_a)
    = [(0, promote 1 (set_logId 99 incoming_message));
       (0, set_logId 99 (promote 1 (set_logId 99 incoming_message)))] ∧
  exactly_once Guaranteed stamping_registry "incoming-message-KAFKED"
    (emitted (emit memDb stamping_registry 0) scenario_a) ∧
  heap (emit memDb stamping_registry 0 scenario_a).1 !! 0
    = Some (set_logId 99 (promote 1 (set_logId 99 incoming_message))) ∧
  exactly_once Guaranteed sample_registry "incoming-message-KAFKED"
    (emitted (emit memDb sample_registry 0) scenario_a) ∧
  delivered Guaranteed (emitted (emit memDb sample_registry 0) scenario_a)
    = [(0, promote 1 incoming_message)] ∧
  Forall (λ d, d = (0, promote 1 incoming_message) ∧
               type d.2 = "incoming-message-KAFKED" ∧
               logId (metadata d.2) = Some 1%Z)
         (delivered Guaranteed (emitted (emit memDb sample_registry 0) scenario_a)).
Proof.
  assert (Ha : append_outcome (emitted (emit memDb stamping_registry 0) scenario_a)
               = Some (inr 1%Z)) by (vm_compute; reflexivity).
  assert (Ha' : append_outcome (emitted (emit memDb sample_registry 0) scenario_a)
                = Some (inr 1%Z)) by (vm_compute; reflexivity).
  destruct (guaranteed_after_append memDb stamping_registry 0
              scenario_a incoming_message 1%Z eq_refl Ha)
    as (_ & Happ & _ & Hd & _ & _ & Hall & _ & Hh & _).
  destruct (guaranteed_after_append memDb sample_registry 0
              scenario_a incoming_message 1%Z eq_refl Ha')
    as (_ & _ & _ & Hd' & _ & _ & _ & _ & _ & Hro).
  destruct (Hro sample_registry_read_only) as (_ & _ & _ & Hall' & Hseen & _).
  split_and!;
    [reflexivity | exact Ha | exact Happ | exact Hd | exact (Hall eq_refl) | exact Hh
    | | exact Hd' | exact Hseen].
  apply Hall'. intros h Hh0. vm_compute in Hh0.
  apply list_elem_of_In in Hh0 as [<-|[]]. reflexivity.
Defined.

(** Scenario A: what the subscribers of each phase are handed, and the
    invariant on it; and the same with stamping subscribers, where it
    holds of the first guaranteed subscriber. *)
Lemma kafked_invariant_delivered_witness :
  heap scenario_a !! 0 = Some incoming_message ∧
  handlers_read_only sample_registry ∧
  delivered Eager (emitted (emit memDb sample_registry 0) scenario_a)
    = [(0, incoming_message)] ∧
  delivered Guaranteed (emitted (emit memDb sample_registry 0) scenario_a)
    = [(0, promote 1 incoming_message)] ∧
  Forall (λ d, ends_with KAFKED (type d.2) = true ∧ logId (metadata d.2) ≠ None)
         (delivered Guaranteed (emitted (emit memDb sample_registry 0) scenario_a)) ∧
  Forall (λ d, kafked_invariant d.2)
         (delivered Guaranteed (emitted (emit memDb sample_registry 0) scenario_a)) ∧
  Forall (λ d, kafked_invariant d.2)
         (delivered Eager (emitted (emit memDb sample_registry 0) scenario_a)) ∧
  delivered Eager (emitted (emit memDb stamping_registry 0) scenario_a)
    = [(0, incoming_message); (0, set_logId 99 incoming_message)] ∧
  delivered Guaranteed (emitted (emit memDb stamping_registry 0) scenario_a)
    = [(0, promote 1 (set_logId 99 incoming_message));
       (0, set_logId 99 (promote 1 (set_logId 99 incoming_message)))] ∧
  (ends_with KAFKED (type (promote 1 (set_logId 99 incoming_message))) = true ∧
   logId (metadata (promote 1 (set_logId 99 incoming_message))) ≠ None).
Proof.
  destruct (kafked_invariant_delivered memDb sample_registry 0
              scenario_a incoming_message eq_refl)
    as (Hd & Hg & _ & _ & Hro).
  destruct (Hro sample_registry_read_only) as (Hsuffixed & Hinv & _ & _ & He).
  destruct (kafked_invariant_delivered memDb stamping_registry 0
              scenario_a incoming_message eq_refl)
    as (Hd' & Hg' & Hfirst & _).
  split_and!;
    [reflexivity | apply sample_registry_read_only | exact Hd | exact Hg
    | exact Hsuffixed | exact Hinv | exact (He eq_refl eq_refl)
    | exact Hd' | exact Hg'
    | exact (proj1 (Hfirst (0, promote 1 (set_logId 99 incoming_message)) eq_refl))
    | exact (proj2 (Hfirst (0, promote 1 (set_logId 99 incoming_message)) eq_refl)) ].
Defined.

(** The starved listener: the first guaranteed subscriber throws, the
    second is registered and never called although the append resolved. *)
Lemma guaranteed_listener_starved :
  append_outcome (emitted (emit memDb failing_first_registry 0) scenario_a)
    = Some (inr 1%Z) ∧
  length (listeners failing_first_registry "incoming-message-KAFKED") = 2 ∧
  times_invoked Guaranteed 1 (emitted (emit memDb failing_first_registry 0) scenario_a) = 0 ∧
  ¬ exactly_once Guaranteed failing_first_registry "incoming-message-KAFKED"
      (emitted (emit memDb failing_first_registry 0) scenario_a).
Proof.
  assert (H0 : times_invoked Guaranteed 1
                 (emitted (emit memDb failing_first_registry 0) scenario_a) = 0)
    by (vm_compute; reflexivity).
  split_and!; [vm_compute; reflexivity | reflexivity | exact H0 |].
  intros H. specialize (H 1). rewrite H0 in H.
  assert (H1 : 0 = 1) by (apply H; vm_compute; lia). discriminate H1.
Qed.

Lemma promotion_in_place_witness :
  heap scenario_a !! 0 = Some incoming_message ∧
  handlers_read_only sample_registry ∧
  append_outcome (emitted (emit memDb sample_registry 0) scenario_a) = Some (inr 1%Z) ∧
  Forall (λ d, d = (0, incoming_message))
         (delivered Eager (emitted (emit memDb sample_registry 0) scenario_a)) ∧
  Forall (λ d, d = (0, promote 1 incoming_message))
         (delivered Guaranteed (emitted (emit memDb sample_registry 0) scenario_a)) ∧
  heap (emit memDb sample_registry 0 scenario_a).1 !! 0 = Some (promote 1 incoming_message).
Proof.
  assert (Ha : append_outcome (emitted (emit memDb sample_registry 0) scenario_a)
               = Some (inr 1%Z)) by (vm_compute; reflexivity).
  destruct (promotion_in_place memDb sample_registry 0
              scenario_a incoming_message 1%Z
              eq_refl sample_registry_read_only Ha)
    as (He & Hg & _ & _ & Hh).
  split_and!; solve [reflexivity | apply sample_registry_read_only | assumption].
Defined.

(** An event born with the suffix reaches the subscribers of
    ['incoming-message-KAFKED'] in the eager phase, with no logId. *)
Lemma suffix_without_logId_delivered :
  delivered Eager (emitted (emit memDb sample_registry 0) scenario_suffixed)
    = [(0, suffixed_from_birth)] ∧
  ¬ Forall (λ d, kafked_invariant d.2)
           (delivered Eager (emitted (emit memDb sample_registry 0) scenario_suffixed)).
Proof.
  assert (Hd : delivered Eager (emitted (emit memDb sample_registry 0) scenario_suffixed)
               = [(0, suffixed_from_birth)]) by (vm_compute; reflexivity).
  split; [exact Hd|]. rewrite Hd. intros H.
  apply Forall_inv in H. destruct H as [Hsuffix _].
  by apply Hsuffix.
Qed.

(** An eager subscriber throws: nothing reaches the store, [emit]
    resolves. *)
Lemma emit_swallows_failures_witness :
  heap scenario_a !! 0 = Some incoming_message ∧
  (emit memDb failing_eager_registry 0 scenario_a).2 = Ret tt ∧
  append_outcome (emitted (emit memDb failing_eager_registry 0) scenario_a) = None ∧
  store (emit memDb failing_eager_registry 0 scenario_a).1 = empty_db.
Proof.
  destruct (emit_swallows_failures memDb failing_eager_registry 0
              scenario_a incoming_message eq_refl)
    as [Hret Hthrew].
  destruct (Hthrew "incoming-message" 0 (Exn "listener failed")) as (Ha & Hs & _).
  { vm_compute. right; right; left; reflexivity. }
  split_and!; [reflexivity | exact Hret | exact Ha | exact Hs].
Defined.

(** Scenario D: the store has no record 42. *)
Lemma projector_aborts_on_invalid_source_witness :
  heap scenario_d !! 0 = Some hello_notification ∧
  getEventByLogId memDb (logId (metadata hello_notification)) (store scenario_d)
    = (empty_db, inr None) ∧
  rows_written (emitted (projector memDb sample_uuid sample_registry 0) scenario_d) = [] ∧
  published (emitted (projector memDb sample_uuid sample_registry 0) scenario_d) = [] ∧
  errors_logged (emitted (projector memDb sample_uuid sample_registry 0) scenario_d)
    = [ProjectorInvalid (Some 42%Z)].
Proof.
  destruct (projector_aborts_on_invalid_source memDb sample_uuid sample_registry 0
              scenario_d hello_notification
              empty_db None eq_refl eq_refl (or_introl eq_refl))
    as (_ & Hrows & Hpub & _ & Herr & _).
  split_and!; solve [reflexivity | assumption].
Defined.

(** Scenario B: the store holds record 42; the projector writes the row
    and publishes ['message-projected']. *)
Lemma projected_event_causal_chain_witness :
  heap scenario_b !! 0 = Some hello_notification ∧
  ids_normalised hello_notification ∧
  In (Some (VNum 1), Some (VNum 7), Some (VStr "hi"),
      projected_record (Some (VNum 1)) (Some (VNum 7)) (Some (VStr "hi")))
     (rows_written (emitted (projector memDb sample_uuid sample_registry 0) scenario_b)) ∧
  ∃ pe, published (emitted (projector memDb sample_uuid sample_registry 0) scenario_b)
          = [(1, pe)] ∧
        type pe = "message-projected" ∧
        correlationId (metadata pe) = Some "corr-1" ∧
        causationId (metadata pe) = Some "c0ffee".
Proof.
  assert (Hids : ids_normalised hello_notification) by (split; discriminate).
  assert (Hrow : In (Some (VNum 1), Some (VNum 7), Some (VStr "hi"),
                     projected_record (Some (VNum 1)) (Some (VNum 7)) (Some (VStr "hi")))
                    (rows_written
                       (emitted (projector memDb sample_uuid sample_registry 0) scenario_b)))
    by (vm_compute; left; reflexivity).
  destruct (projected_event_causal_chain memDb sample_uuid sample_registry 0
              scenario_b hello_notification _ _ _ _ eq_refl Hids Hrow)
    as (pe & Hpub & _ & Hty & _ & Hcorr & Hcause).
  split_and!; [reflexivity | exact Hids | exact Hrow |].
  exists pe. split_and!; assumption.
Defined.

(** C1. The store holds the text "hi" under logId 42; the notification for
    logId 42 carries the text "tampered".  The re-fetch succeeds and the
    record passes the type check, yet the row written to the read model
    has the notification's text: the fetched payload is never read. *)
Lemma projector_projects_notification_payload :
  getEventByLogId memDb (logId (metadata tampered_notification)) (store scenario_tampered)
    = (db_with_hello, inr (Some stored_hello)) ∧
  rec_payload stored_hello !! "messageText" = Some (VStr "hi") ∧
  rows_written (emitted (projector memDb sample_uuid sample_registry 0) scenario_tampered) =
    [(Some (VNum 1), Some (VNum 7), Some (VStr "tampered"),
      projected_record (Some (VNum 1)) (Some (VNum 7)) (Some (VStr "tampered")))] ∧
  messages (store (projector memDb sample_uuid sample_registry 0 scenario_tampered).1) =
    [(Some (VNum 1), Some (VNum 7), Some (VStr "tampered"))].
Proof. split_and!; vm_compute; reflexivity. Qed.

(** The empty string is supplied and is not copied. *)
Lemma empty_correlationId_not_copied :
  correlationId (metadata
    (DomainEvent_constructor "c0ffee" "2024-01-01T00:00:00.000Z" "incoming-message"
       hello (Some empty_correlation))) = None ∧
  ¬ copies_supplied_ids (Some empty_correlation)
      (DomainEvent_constructor "c0ffee" "2024-01-01T00:00:00.000Z" "incoming-message"
         hello (Some empty_correlation)).
Proof.
  split; [reflexivity|]. intros [Hcorr _]. vm_compute in Hcorr. discriminate Hcorr.
Qed.

Lemma constructor_builds_event_witness :
  (∀ i j, sample_uuid i = sample_uuid j → i = j) ∧
  ∃ e,
    new_DomainEvent memDb sample_uuid "incoming-message" hello
      (Some empty_correlation) (mem_world [] empty_db)
      = (Build_World memDb [e] empty_db [] 1 "2024-01-01T00:00:00.000Z", Ret 0) ∧
    eventId e = "u" ∧
    correlationId (metadata e) = None.
Proof.
  destruct (constructor_builds_event memDb sample_uuid "incoming-message" hello
              (Some empty_correlation) (mem_world [] empty_db) sample_uuid_inj)
    as (e & Hrun & Hid & _ & _ & _ & _ & _ & _ & Hnull & _).
  split; [exact sample_uuid_inj|].
  exists e. split_and!; [exact Hrun | exact Hid | apply Hnull; by right].
Defined.

(** ** Further facts: the bus, the projector and the constructor *)

Section Coverage.

Variable db : Database.
Variable uuidv4 : nat → string.
Implicit Types (w : World db) (t : list Obs) (e : DomainEvent) (reg : Registry).

(** Equal runs: same outcome, and worlds equal field by field. *)
Ltac same_world :=
  f_equal; apply world_ext;
  cbn [heap store trace uuidSeed clock add_trace with_heap with_store];
  try done; by norm_app.

(** *** Subscribing *)

Lemma listeners_on_eq name h reg :
  listeners (on name h reg) name = listeners reg name ++ [h].
Proof. unfold on, listeners at 1. by rewrite lookup_insert_eq. Qed.

Lemma listeners_on_ne name name' h reg :
  name ≠ name' → listeners (on name h reg) name' = listeners reg name'.
Proof. intros Hne. unfold on, listeners at 1. by rewrite lookup_insert_ne. Qed.

(** *** Reading the closed form *)

Lemma appends_phase_trace ph name r e idx ls :
  appends (phase_trace ph name r e idx ls) = [].
Proof.
  revert idx. induction ls as [|h rest IH]; intros idx; simpl; [done|].
  destruct (h e).2; [apply IH | done].
Qed.

Lemma threw_phase_trace ph ph' name name' r e idx i ls err :
  In (Threw ph' name' i err) (phase_trace ph name r e idx ls) →
  ph' = ph ∧ phase_error e ls = Some err.
Proof.
  revert idx. induction ls as [|h rest IH]; intros idx; simpl; [done|].
  intros [Heq|Hin]; [done|].
  destruct (h e).2 as [|err'].
  - by eapply IH.
  - destruct Hin as [[= -> _ _ ->]|[]]. done.
Qed.

Lemma reached_all e ls : phase_error e ls = None → reached e ls = length ls.
Proof.
  induction ls as [|h rest IH]; simpl; [done|].
  destruct (h e).2; [|done]. intros H. by rewrite IH.
Qed.

Lemma reached_le e ls : reached e ls ≤ length ls.
Proof.
  induction ls as [|h rest IH]; simpl; [done|].
  destruct (h e).2; lia.
Qed.

Lemma reached_app_throw e ls ls' :
  phase_error e ls ≠ None → reached e (ls ++ ls') ≤ length ls.
Proof.
  induction ls as [|h rest IH]; simpl; [done|].
  destruct (h e).2; [|lia]. intros H. specialize (IH H). lia.
Qed.

Lemma phase_error_None e ls :
  (∀ h, h ∈ ls → (h e).2 = Normal) → phase_error e ls = None.
Proof.
  induction ls as [|h rest IH]; simpl; [done|]. intros Hall.
  rewrite (Hall h) by left. apply IH. intros h' Hh'. apply Hall. by right.
Qed.

Lemma phase_error_Some e ls h err :
  h ∈ ls → (h e).2 = Abrupt err → phase_error e ls ≠ None.
Proof.
  induction ls as [|h' rest IH]; simpl; [by intros ?%elem_of_nil|].
  intros [->|Hin]%elem_of_cons Hh.
  - by rewrite Hh.
  - destruct (h' e).2; [by apply IH | done].
Qed.

(** How often the eager phase called listener [idx], over read-only
    listeners. *)
Lemma emit_read_only_eager_count reg r e w idx :
  times_invoked Eager idx (emit_read_only reg r e w).2 =
    if decide (idx < reached e (listeners reg (type e))) then 1 else 0.
Proof.
  unfold emit_read_only.
  destruct (native_error reg (type e) e) as [err|].
  { cbn [snd]. rewrite !times_invoked_app, times_invoked_phase_trace.
    change (times_invoked Eager idx [EmitCalled r e]) with 0.
    change (times_invoked Eager idx [Console _]) with 0.
    repeat case_decide; lia. }
  destruct (logEvent db e (store w)) as [s [err|receipt]].
  { cbn [snd]. rewrite !times_invoked_app, times_invoked_phase_trace.
    change (times_invoked Eager idx [EmitCalled r e]) with 0.
    change (times_invoked Eager idx [_; _]) with 0.
    repeat case_decide; lia. }
  destruct (native_error reg _ _); cbn [snd].
  all: rewrite !times_invoked_app, times_invoked_phase_trace.
  all: rewrite (times_invoked_phase_trace_other Guaranteed Eager) by discriminate.
  all: change (times_invoked Eager idx [EmitCalled r e]) with 0.
  all: change (times_invoked Eager idx [LogEventCall _ _; _]) with 0.
  all: try change (times_invoked Eager idx [Console _]) with 0.
  all: repeat case_decide; lia.
Qed.

(** What the double emit leaves behind when the append resolved. *)
Lemma emit_read_only_resolved reg r e w l :
  append_outcome (emit_read_only reg r e w).2 = Some (inr l) →
  ∃ receipt,
    logEvent db e (store w) = ((logEvent db e (store w)).1, inr receipt) ∧
    receipt_eventId receipt = l ∧
    native_error reg (type e) e = None ∧
    (emit_read_only reg r e w).1 =
      with_heap (<[r := promote l e]> (heap w))
                (with_store (logEvent db e (store w)).1 w) ∧
    (emit_read_only reg r e w).2 =
      ([EmitCalled r e] ++ phase_trace Eager (type e) r e 0 (listeners reg (type e)))
      ++ [LogEventCall e (inr l); Console (BusPersisted (type e) l)]
      ++ phase_trace Guaranteed (type e +:+ KAFKED) r (promote l e) 0
           (listeners reg (type e +:+ KAFKED))
      ++ match native_error reg (type e +:+ KAFKED) (promote l e) with
         | Some err => [Console (BusCritical (type e +:+ KAFKED) err)]
         | None => []
         end.
Proof.
  unfold emit_read_only.
  destruct (native_error reg (type e) e) as [err|] eqn:Hn.
  { cbn [fst snd]. rewrite !append_outcome_app, append_outcome_phase_trace. done. }
  destruct (logEvent db e (store w)) as [s [err|receipt]].
  { cbn [fst snd]. rewrite !append_outcome_app, append_outcome_phase_trace. done. }
  change (type (promote (receipt_eventId receipt) e)) with (type e +:+ KAFKED).
  destruct (native_error reg (type e +:+ KAFKED) _) as [err|] eqn:Hn2; cbn [fst snd];
    rewrite !append_outcome_app, append_outcome_phase_trace;
    intros [= <-]; exists receipt; rewrite Hn2.
  - split_and!; [done | done | done | done | by rewrite <- !app_assoc].
  - split_and!; [done | done | done | done | by rewrite app_nil_r].
Qed.

Lemma append_assoc_string (a b c : string) : (a +:+ b) +:+ c = a +:+ (b +:+ c).
Proof.
  induction a as [|x a IH]; [done|].
  change (String x ((a +:+ b) +:+ c) = String x (a +:+ (b +:+ c))). by f_equal.
Qed.

(** *** The bus *)

(** X1. [emit] called with nothing ([undefined] or [null] instead of an
    event) rejects with a TypeError: the [try] block throws on
    [event.type], and so does the [catch] block while it formats its
    message.  Nothing is delivered, stored or logged. *)
Theorem emit_of_nothing_rejects reg r w :
  heap w !! r = None →
  emit db reg r w = (w, Throw TypeError).
Proof.
  intros Hr. unfold emit, try_catch, mbind, M_bind, deref. rewrite Hr. simpl.
  by rewrite Hr.
Qed.

(** X2. An event whose type is ['error'] is lost when nobody listens to
    ['error']: the native emitter throws on that name, so nothing is
    appended to the store or delivered, the object is left as it was, and
    the bus writes one line to the error console. *)
Theorem error_typed_event_is_lost reg r w e :
  heap w !! r = Some e →
  type e = "error" →
  listeners reg "error" = [] →
  emit db reg r w =
    (add_trace [EmitCalled r e; Console (BusCritical "error" UnhandledError)] w, Ret tt).
Proof.
  intros Hr Hty Hls. unfold emit, try_catch.
  unfold mbind at 1. unfold M_bind at 1. unfold deref at 1. rewrite Hr.
  unfold mbind at 1. unfold M_bind at 1. unfold observe at 1.
  unfold mbind at 1. unfold M_bind at 1. unfold originalMethod.
  rewrite Hty, Hls. rewrite decide_True by done. unfold throw.
  unfold mbind, M_bind, deref, observe. cbn [heap add_trace]. rewrite Hr, Hty.
  same_world.
Qed.

(** X3. Over listeners that leave the event alone, one publish calls
    [db.logEvent] at most once, and what it hands to the store is the
    event as it was published: the type without the suffix, the metadata
    without the logId the store is about to assign. *)
Theorem append_receives_published_event reg r w e :
  heap w !! r = Some e →
  handlers_read_only reg →
  match append_outcome (emitted (emit db reg r) w) with
  | Some res => appends (emitted (emit db reg r) w) = [(e, res)]
  | None => appends (emitted (emit db reg r) w) = []
  end.
Proof.
  intros Hr Hro. rewrite (emitted_emit_read_only db reg r e w) by done.
  unfold emit_read_only.
  destruct (native_error reg (type e) e) as [err|].
  { cbn [snd]. by rewrite !append_outcome_app, !appends_app,
      append_outcome_phase_trace, appends_phase_trace. }
  destruct (logEvent db e (store w)) as [s [err|receipt]].
  { cbn [snd]. by rewrite !append_outcome_app, !appends_app,
      append_outcome_phase_trace, appends_phase_trace. }
  destruct (native_error reg _ _); cbn [snd];
    by rewrite !append_outcome_app, !appends_app,
      append_outcome_phase_trace, !appends_phase_trace.
Qed.

(** X4. A guaranteed-phase listener that throws undoes nothing: the
    append stays in the store, the published object stays promoted
    (suffixed type, logId set), [emit] resolves, and the only sign of the
    failure is one line on the error console, which names the suffixed
    type. *)
Theorem guaranteed_failure_keeps_append reg r w e l name idx err :
  heap w !! r = Some e →
  handlers_read_only reg →
  append_outcome (emitted (emit db reg r) w) = Some (inr l) →
  In (Threw Guaranteed name idx err) (emitted (emit db reg r) w) →
  (emit db reg r w).2 = Ret tt ∧
  heap (emit db reg r w).1 !! r = Some (promote l e) ∧
  store (emit db reg r w).1 = (logEvent db e (store w)).1 ∧
  errors_logged (emitted (emit db reg r) w) = [BusCritical (type e +:+ "-KAFKED") err].
Proof.
  intros Hr Hro. rewrite (emitted_emit_read_only db reg r e w) by done.
  rewrite (emit_read_only_run db reg r e w) by done. cbn [fst snd].
  intros Ha Hin.
  destruct (emit_read_only_resolved _ _ _ _ _ Ha) as (receipt & Hlog & Hl & Hn & Hw & Ht).
  rewrite Hw, Ht in *. clear Hw Ht.
  assert (Herr : native_error reg (type e +:+ KAFKED) (promote l e) = Some err).
  { apply in_app_or in Hin as [Hin|Hin].
    { apply in_app_or in Hin as [[?|[]]|Hin]; [done|].
      by apply threw_phase_trace in Hin as [? _]. }
    apply in_app_or in Hin as [[?|[?|[]]]|Hin]; [done..|].
    apply in_app_or in Hin as [Hin|Hin].
    - apply threw_phase_trace in Hin as [_ Hpe].
      unfold native_error. case_decide as Hd; [|done].
      destruct Hd as [_ Hnil]. by rewrite Hnil in Hpe.
    - destruct (native_error reg _ _); [by destruct Hin as [?|[]] | destruct Hin]. }
  rewrite Herr. split_and!.
  - done.
  - cbn [heap add_trace with_heap]. apply list_lookup_insert_eq. by eapply lookup_lt_Some.
  - done.
  - rewrite !errors_logged_app, !errors_logged_phase_trace. done.
Qed.

(** X5. Publishing is not idempotent.  When an object that a first
    publish has promoted (logId [l1]) is handed to [emit] again, the
    listeners of the suffixed type are served in the eager phase, with the
    first logId; and when the second append resolves with [l2], the store
    has been handed the promoted event, every listener of the suffixed type
    was called once more, the logId is overwritten by [l2] and the type
    carries the suffix twice. *)
Theorem republish_appends_and_suffixes_again reg r w e l1 :
  heap w !! r = Some e →
  handlers_read_only reg →
  append_outcome (emitted (emit db reg r) w) = Some (inr l1) →
  let w1 := (emit db reg r w).1 in
  heap w1 !! r = Some (promote l1 e) ∧
  Forall (λ d, d = (r, promote l1 e)) (delivered Eager (emitted (emit db reg r) w1)) ∧
  ∀ l2, append_outcome (emitted (emit db reg r) w1) = Some (inr l2) →
    appends (emitted (emit db reg r) w1) = [(promote l1 e, inr l2)] ∧
    exactly_once Eager reg (type e +:+ "-KAFKED") (emitted (emit db reg r) w1) ∧
    heap (emit db reg r w1).1 !! r = Some (promote l2 (promote l1 e)) ∧
    type (promote l2 (promote l1 e)) = type e +:+ "-KAFKED-KAFKED" ∧
    logId (metadata (promote l2 (promote l1 e))) = Some l2.
Proof.
  intros Hr Hro Ha w1.
  rewrite (emitted_emit_read_only db reg r e w) in Ha by done.
  assert (Hr1 : heap w1 !! r = Some (promote l1 e)).
  { subst w1. rewrite (emit_read_only_run db reg r e w) by done. cbn [fst].
    destruct (emit_read_only_resolved _ _ _ _ _ Ha) as (_ & _ & _ & _ & Hw & _).
    rewrite Hw. cbn [heap add_trace with_heap].
    apply list_lookup_insert_eq. by eapply lookup_lt_Some. }
  split; [done|].
  rewrite (emitted_emit_read_only db reg r (promote l1 e) w1) by done.
  split; [apply emit_read_only_eager|].
  intros l2 Ha2.
  rewrite (emit_read_only_run db reg r (promote l1 e) w1) by done. cbn [fst].
  destruct (emit_read_only_resolved _ _ _ _ _ Ha2) as (receipt & _ & _ & Hn & Hw & Ht).
  split_and!.
  - rewrite Ht, !appends_app, !appends_phase_trace.
    match goal with |- context [match ?x with _ => _ end] => by destruct x end.
  - intros idx Hidx. rewrite emit_read_only_eager_count.
    change (type (promote l1 e)) with (type e +:+ KAFKED).
    rewrite (reached_all (promote l1 e)) by by apply native_error_None.
    by rewrite decide_True.
  - rewrite Hw. cbn [heap add_trace with_heap].
    apply list_lookup_insert_eq. by eapply lookup_lt_Some.
  - simpl. apply append_assoc_string.
  - done.
Qed.

(** X6. Subscribing to a name changes nothing for the events it does not
    concern: over listeners that leave the event alone, a publish of an
    event whose type and suffixed type both differ from that name runs
    exactly as it did before the subscription. *)
Theorem subscription_is_local reg r w e name h :
  heap w !! r = Some e →
  handlers_read_only reg →
  read_only h →
  name ≠ type e →
  name ≠ type e +:+ "-KAFKED" →
  emit db (on name h reg) r w = emit db reg r w.
Proof.
  intros Hr Hro Hh Hne Hne2.
  rewrite (emit_read_only_run db (on name h reg) r e w)
    by (done || by apply handlers_read_only_on).
  rewrite (emit_read_only_run db reg r e w) by done.
  assert (Heq : emit_read_only (on name h reg) r e w = emit_read_only reg r e w).
  { unfold emit_read_only, native_error.
    change (type (promote _ e)) with (type e +:+ KAFKED).
    rewrite !(listeners_on_ne name (type e)) by done.
    destruct (logEvent db e (store w)) as [s [err|receipt]]; [done|].
    change (type (promote _ e)) with (type e +:+ KAFKED).
    by rewrite !(listeners_on_ne name (type e +:+ KAFKED)) by done. }
  by rewrite Heq.
Qed.

(** X7. Listeners are served in registration order.  Over listeners
    that leave the event alone, a listener subscribed to the type of an
    event comes after those already there: it is called exactly once by a
    publish of that event when none of the earlier ones throws, and not at
    all when one of them throws. *)
Theorem new_subscriber_is_served_last reg r w e h :
  heap w !! r = Some e →
  handlers_read_only reg →
  read_only h →
  let n := length (listeners reg (type e)) in
  let t := emitted (emit db (on (type e) h reg) r) w in
  listeners (on (type e) h reg) (type e) !! n = Some h ∧
  ((∀ h', h' ∈ listeners reg (type e) → (h' e).2 = Normal) →
     ∀ idx, idx ≤ n → times_invoked Eager idx t = 1) ∧
  (∀ h' err, h' ∈ listeners reg (type e) → (h' e).2 = Abrupt err →
     times_invoked Eager n t = 0).
Proof.
  intros Hr Hro Hh n t. subst t.
  rewrite (emitted_emit_read_only db (on (type e) h reg) r e w)
    by (done || by apply handlers_read_only_on).
  split_and!.
  - rewrite listeners_on_eq. by apply list_lookup_middle.
  - intros Hall idx Hidx. rewrite emit_read_only_eager_count, listeners_on_eq.
    pose proof (phase_error_None e _ Hall) as Hnone.
    assert (Hlt : idx < reached e (listeners reg (type e) ++ [h])).
    { apply reached_lt; [rewrite length_app; simpl; lia|].
      intros j h' Hj Hl. apply Hall.
      apply lookup_app_Some in Hl as [Hl|[Hge _]]; [by eapply list_elem_of_lookup_2|].
      exfalso. unfold n in Hidx. apply (Nat.lt_irrefl j).
      eapply Nat.lt_le_trans; [exact Hj|]. etransitivity; [exact Hidx | exact Hge]. }
    by rewrite decide_True.
  - intros h' err Hin Hthrow. rewrite emit_read_only_eager_count, listeners_on_eq.
    pose proof (reached_app_throw e _ [h] (phase_error_Some e _ h' err Hin Hthrow)).
    rewrite decide_False; [done|]. unfold n. lia.
Qed.

(** X25. An eager-phase listener that throws leaves the event as it was
    published (listeners that do not mutate the event): no object of the
    heap has changed, the event is not promoted, the store is untouched,
    and the one line on the error console names the original type and the
    error thrown. *)
Theorem eager_failure_leaves_event_unpromoted reg r w e name idx err :
  heap w !! r = Some e →
  handlers_read_only reg →
  In (Threw Eager name idx err) (emitted (emit db reg r) w) →
  heap (emit db reg r w).1 = heap w ∧
  store (emit db reg r w).1 = store w ∧
  appends (emitted (emit db reg r) w) = [] ∧
  errors_logged (emitted (emit db reg r) w) = [BusCritical (type e) err].
Proof.
  intros Hr Hro. rewrite (emitted_emit_read_only db reg r e w) by done.
  rewrite (emit_read_only_run db reg r e w) by done. cbn [fst snd].
  unfold emit_read_only.
  assert (Heager : ∀ n i err',
            In (Threw Eager n i err')
               ([EmitCalled r e] ++ phase_trace Eager (type e) r e 0 (listeners reg (type e))) →
            native_error reg (type e) e = Some err').
  { intros n i err' Hin. apply in_app_or in Hin as [[?|[]]|Hin]; [done|].
    apply threw_phase_trace in Hin as [_ Hpe].
    unfold native_error. case_decide as Hd; [|done].
    destruct Hd as [_ Hnil]. by rewrite Hnil in Hpe. }
  destruct (native_error reg (type e) e) as [err0|] eqn:Hn.
  { cbn [fst snd]. intros Hin.
    apply in_app_or in Hin as [Hin|[?|[]]]; [|done].
    apply Heager in Hin as [= ->].
    rewrite !appends_app, !errors_logged_app, appends_phase_trace,
      errors_logged_phase_trace. done. }
  destruct (logEvent db e (store w)) as [s [err0|receipt]].
  { cbn [fst snd]. intros Hin.
    apply in_app_or in Hin as [Hin|[?|[?|[]]]]; [|done..].
    by apply Heager in Hin. }
  match goal with |- context [match ?x with _ => _ end] => destruct x end;
    cbn [fst snd]; intros Hin.
  - apply in_app_or in Hin as [Hin|[?|[]]]; [|done].
    apply in_app_or in Hin as [Hin|Hin]; [by apply Heager in Hin|].
    apply in_app_or in Hin as [[?|[?|[]]]|Hin]; [done..|].
    by apply threw_phase_trace in Hin as [? _].
  - apply in_app_or in Hin as [Hin|Hin]; [by apply Heager in Hin|].
    apply in_app_or in Hin as [[?|[?|[]]]|Hin]; [done..|].
    by apply threw_phase_trace in Hin as [? _].
Qed.

(** *** What a publish leaves alone *)

Lemma same_elsewhere_refl r w : same_elsewhere r w w.
Proof. by split_and!. Qed.

Lemma same_elsewhere_trans r w1 w2 w3 :
  same_elsewhere r w1 w2 → same_elsewhere r w2 w3 → same_elsewhere r w1 w3.
Proof.
  intros (Hl1 & Hh1 & Hu1 & Hc1) (Hl2 & Hh2 & Hu2 & Hc2). split_and!; try congruence.
  intros r' Hne. by rewrite Hh2, Hh1.
Qed.

Lemma touches_only_ret {A} r (a : A) : touches_only r (mret a : M db A).
Proof. intros w. apply same_elsewhere_refl. Qed.

Lemma touches_only_throw {A} r err : touches_only r (throw db err : M db A).
Proof. intros w. apply same_elsewhere_refl. Qed.

Lemma touches_only_bind {A B} r (m : M db A) (k : A → M db B) :
  touches_only r m → (∀ a, touches_only r (k a)) → touches_only r (m ≫= k).
Proof.
  intros Hm Hk w. unfold mbind, M_bind. specialize (Hm w).
  destruct (m w) as [w1 [a|err]]; [|done].
  eapply same_elsewhere_trans; [exact Hm | apply Hk].
Qed.

Lemma touches_only_try_catch {A} r (m : M db A) (k : Error → M db A) :
  touches_only r m → (∀ err, touches_only r (k err)) → touches_only r (try_catch db m k).
Proof.
  intros Hm Hk w. unfold try_catch. specialize (Hm w).
  destruct (m w) as [w1 [a|err]]; [done|].
  eapply same_elsewhere_trans; [exact Hm | apply Hk].
Qed.

Lemma touches_only_deref r : touches_only r (deref db r).
Proof. intros w. unfold deref. destruct (heap w !! r); apply same_elsewhere_refl. Qed.

Lemma touches_only_observe r o : touches_only r (observe db o).
Proof. intros w. by split_and!. Qed.

Lemma touches_only_modify r f : touches_only r (modify db r f).
Proof.
  intros w. unfold modify. destruct (heap w !! r); [|apply same_elsewhere_refl].
  split_and!; cbn [fst heap with_heap uuidSeed clock]; try done.
  - apply length_insert.
  - intros r' Hne. by apply list_lookup_insert_ne.
Qed.

Lemma touches_only_db_logEvent r e : touches_only r (db_logEvent db e).
Proof.
  intros w. unfold db_logEvent.
  destruct (logEvent db e (store w)) as [s [err|receipt]]; by split_and!.
Qed.

Lemma touches_only_callListeners ph name r idx ls :
  touches_only r (callListeners db ph name r idx ls).
Proof.
  revert idx. induction ls as [|h rest IH]; intros idx; simpl.
  - apply touches_only_ret.
  - apply touches_only_bind; [apply touches_only_deref|]. intros seen.
    apply touches_only_bind; [apply touches_only_observe|]. intros _.
    apply touches_only_bind.
    + unfold call_handler.
      apply touches_only_bind; [apply touches_only_deref|]. intros e.
      destruct (h e) as [e' c].
      apply touches_only_bind; [apply touches_only_modify|]. intros _.
      apply touches_only_ret.
    + intros [|err]; [apply IH|].
      apply touches_only_bind; [apply touches_only_observe|]. intros _.
      apply touches_only_throw.
Qed.

Lemma touches_only_originalMethod ph reg name r :
  touches_only r (originalMethod db ph reg name r).
Proof.
  unfold originalMethod. case_decide.
  - apply touches_only_throw.
  - apply touches_only_callListeners.
Qed.

Lemma touches_only_emit reg r : touches_only r (emit db reg r).
Proof.
  unfold emit. apply touches_only_try_catch.
  - apply touches_only_bind; [apply touches_only_deref|]. intros event.
    apply touches_only_bind; [apply touches_only_observe|]. intros _.
    apply touches_only_bind; [apply touches_only_originalMethod|]. intros _.
    apply touches_only_bind; [apply touches_only_deref|]. intros event'.
    apply touches_only_bind; [apply touches_only_db_logEvent|]. intros receipt.
    apply touches_only_bind; [apply touches_only_observe|]. intros _.
    apply touches_only_bind; [apply touches_only_modify|]. intros _.
    apply touches_only_bind; [apply touches_only_modify|]. intros _.
    apply touches_only_originalMethod.
  - intros err.
    apply touches_only_bind; [apply touches_only_deref|]. intros event.
    apply touches_only_observe.
Qed.

(** X8. The bus writes to no object but the one it is handed.  Over
    listeners that act on the event they are handed and on nothing else
    (they may rewrite it and may throw), a publish allocates nothing, every
    other object of the heap reads as before, and no identifier is drawn. *)
Theorem emit_touches_only_the_published_object reg r w :
  length (heap (emit db reg r w).1) = length (heap w) ∧
  (∀ r', r' ≠ r → heap (emit db reg r w).1 !! r' = heap w !! r') ∧
  uuidSeed (emit db reg r w).1 = uuidSeed w ∧
  clock (emit db reg r w).1 = clock w.
Proof. apply touches_only_emit. Qed.

(** *** The projector *)

Lemma bus_step_fetches t : Forall bus_step t → fetches t = [].
Proof. induction 1 as [|[] t Ho _ IH]; simpl in *; done. Qed.

Lemma published_app t1 t2 : published (t1 ++ t2) = published t1 ++ published t2.
Proof. apply omap_app. Qed.

Lemma rows_written_app t1 t2 : rows_written (t1 ++ t2) = rows_written t1 ++ rows_written t2.
Proof. apply omap_app. Qed.

Lemma fetches_app t1 t2 : fetches (t1 ++ t2) = fetches t1 ++ fetches t2.
Proof. apply omap_app. Qed.

(** A trace with a single publish splits around it in one way only. *)
Lemma unique_emit_split pre r0 e0 post t1 r' pe t2 :
  published pre = [] → published post = [] →
  pre ++ EmitCalled r0 e0 :: post = t1 ++ EmitCalled r' pe :: t2 →
  t1 = pre ∧ r' = r0 ∧ pe = e0.
Proof.
  intros Hpre Hpost. revert t1.
  induction pre as [|a pre IH]; intros [|x t1]; simpl; intros Heq.
  - by injection Heq as <- <- _.
  - injection Heq as _ Heq. rewrite Heq, published_app in Hpost.
    by destruct (published t1).
  - injection Heq as -> _. done.
  - injection Heq as <- Heq.
    assert (Hpre' : published pre = []) by (by destruct a).
    destruct (IH Hpre' _ Heq) as (-> & -> & ->). done.
Qed.

Lemma no_emit_split t t1 r' pe t2 :
  published t = [] → t ≠ t1 ++ EmitCalled r' pe :: t2.
Proof.
  intros Hp ->. rewrite published_app in Hp. by destruct (published t1).
Qed.

(** X9. Whatever the store answers and whatever the listeners do, one
    run of the projector asks the store for exactly one event, the one the
    notification's logId names; writes at most one row and publishes at
    most one event; publishes only after a row has been written, and then
    an event whose payload is that row; and resolves. *)
Theorem projector_publishes_only_after_writing reg r w incoming :
  heap w !! r = Some incoming →
  (projector db uuidv4 reg r w).2 = Ret tt ∧
  fetches (emitted (projector db uuidv4 reg r) w) = [logId (metadata incoming)] ∧
  length (rows_written (emitted (projector db uuidv4 reg r) w)) ≤ 1 ∧
  length (published (emitted (projector db uuidv4 reg r) w)) ≤ 1 ∧
  (∀ t1 r' pe t2,
     emitted (projector db uuidv4 reg r) w = t1 ++ EmitCalled r' pe :: t2 →
     ∃ c u m, rows_written t1 = [(c, u, m, payload pe)]).
Proof.
  intros Hr.
  destruct (projector_run db uuidv4 reg r incoming w Hr) as (w' & t & Hrun & Htr & Hcases).
  rewrite (emitted_add_trace _ _ _ _ _ _ Hrun Htr), Hrun.
  destruct Hcases as [(s & err & _ & _ & ->)|[(s & found & _ & _ & _ & ->)|
    [(s & found & s2 & err & _ & _ & _ & _ & ->)
    |(s & found & s2 & row & tb & _ & _ & _ & Hbus & ->)]]].
  1-3: split_and!; [done | done | simpl; lia | simpl; lia |];
       intros t1 r' pe t2 Heq; by apply no_emit_split in Heq.
  simpl. fold (fetches tb) (rows_written tb) (published tb).
  rewrite (bus_step_fetches tb Hbus), (bus_step_rows_written tb Hbus),
    (bus_step_published tb Hbus).
  split_and!; [done | done | simpl; lia | simpl; lia |].
  intros t1 r' pe t2 Heq.
  apply (unique_emit_split
           [Console (ProjectorReceived (logId (metadata incoming)));
            GetEventByLogIdCall (logId (metadata incoming)) (inr found);
            AddMessageCall (payload incoming !! "chatId") (payload incoming !! "userId")
              (payload incoming !! "messageText") (inr row)]) in Heq
    as (-> & -> & ->); [|done|by apply bus_step_published].
  by eexists _, _, _.
Qed.

(** X10. When the re-fetch by logId is rejected, the projector stops
    there: the failure goes to the error console, no row is written,
    nothing is published, no object is allocated or changed. *)
Theorem projector_logs_fetch_failure reg r w incoming s err :
  heap w !! r = Some incoming →
  getEventByLogId db (logId (metadata incoming)) (store w) = (s, inl err) →
  projector db uuidv4 reg r w =
    (add_trace [Console (ProjectorReceived (logId (metadata incoming)));
                GetEventByLogIdCall (logId (metadata incoming)) (inl err);
                Console (ProjectorFailed err)]
               (with_store s w),
     Ret tt).
Proof.
  intros Hr Hget.
  destruct (projector_run db uuidv4 reg r incoming w Hr) as (w' & t & Hrun & Htr & Hcases).
  rewrite Hrun. rewrite Hget in Hcases.
  destruct Hcases as [(s' & err' & [= <- <-] & -> & ->)|[(s' & found & [=] & _)|
    [(s' & found & s2 & err' & [=] & _)
    |(s' & found & s2 & row & tb & [=] & _)]]].
  done.
Qed.

(** X11. When the write to the read model is rejected, the projector
    publishes nothing: the failure goes to the error console, and no
    event object is allocated, no identifier drawn. *)
Theorem projector_logs_write_failure reg r w incoming s found s2 err :
  heap w !! r = Some incoming →
  getEventByLogId db (logId (metadata incoming)) (store w) = (s, inr found) →
  invalid_source found = false →
  addMessage db (payload incoming !! "chatId") (payload incoming !! "userId")
    (payload incoming !! "messageText") s = (s2, inl err) →
  projector db uuidv4 reg r w =
    (add_trace [Console (ProjectorReceived (logId (metadata incoming)));
                GetEventByLogIdCall (logId (metadata incoming)) (inr found);
                AddMessageCall (payload incoming !! "chatId") (payload incoming !! "userId")
                  (payload incoming !! "messageText") (inl err);
                Console (ProjectorFailed err)]
               (with_store s2 w),
     Ret tt).
Proof.
  intros Hr Hget Hinv Hadd.
  destruct (projector_run db uuidv4 reg r incoming w Hr) as (w' & t & Hrun & Htr & Hcases).
  rewrite Hrun. rewrite Hget in Hcases.
  destruct Hcases as [(s' & err' & [=] & _)|[(s' & found' & [= <- <-] & Hinv' & _)|
    [(s' & found' & s2' & err' & [= <- <-] & _ & Hadd' & -> & ->)
    |(s' & found' & s2' & row & tb & [= <- <-] & _ & Hadd' & _)]]].
  - congruence.
  - rewrite Hadd in Hadd'. by injection Hadd' as <- <-.
  - rewrite Hadd in Hadd'. done.
Qed.

(** X12. The projector rewrites no event object.  Whatever the store
    answers, and over listeners of ['message-projected'] that act on the
    event they are handed and on nothing else (they may rewrite it and may
    throw), every object that existed before the run reads as before, the
    notification included, and at most one object is allocated. *)
Theorem projector_leaves_existing_objects reg r w :
  (∀ r', r' < length (heap w) →
     heap (projector db uuidv4 reg r w).1 !! r' = heap w !! r') ∧
  length (heap w) ≤ length (heap (projector db uuidv4 reg r w).1) ≤ S (length (heap w)).
Proof.
  assert (Hkept : ∀ w' : World db, heap w' = heap w →
            (∀ r', r' < length (heap w) → heap w' !! r' = heap w !! r') ∧
            length (heap w) ≤ length (heap w') ≤ S (length (heap w))).
  { intros w' ->. split; [done|lia]. }
  remember (projector db uuidv4 reg r w) as p eqn:Hp.
  unfold projector in Hp.
  unfold mbind at 1 in Hp. unfold M_bind at 1 in Hp. unfold deref at 1 in Hp.
  destruct (heap w !! r) as [incoming|] eqn:Hr; [|subst p; by apply Hkept].
  unfold mbind at 1 in Hp. unfold M_bind at 1 in Hp. unfold observe at 1 in Hp.
  unfold try_catch in Hp.
  unfold mbind at 1 in Hp. unfold M_bind at 1 in Hp. unfold db_getEventByLogId in Hp.
  cbn [store add_trace] in Hp.
  destruct (getEventByLogId db _ (store w)) as [s [err|found]];
    [subst p; by apply Hkept|].
  destruct (invalid_source found); [subst p; by apply Hkept|].
  unfold mbind at 1 in Hp. unfold M_bind at 1 in Hp. unfold db_addMessage in Hp.
  cbn [store add_trace with_store] in Hp.
  destruct (addMessage db _ _ _ s) as [s2 [err|row]]; [subst p; by apply Hkept|].
  unfold mbind at 1 in Hp. unfold M_bind at 1 in Hp. unfold new_DomainEvent in Hp.
  cbn [heap store trace uuidSeed clock add_trace with_store] in Hp.
  unfold not_awaited in Hp. subst p. cbn [fst].
  match goal with |- context [emit db reg ?r0 ?w0] =>
    destruct (touches_only_emit reg r0 w0) as (Hlen & Hh & _) end.
  cbn [heap] in Hlen, Hh. rewrite Hlen, length_app. simpl. split; [|lia].
  intros r' Hlt. rewrite Hh by lia. by apply lookup_app_l.
Qed.

(** *** Publish, then project *)

(** X13. A publish followed by the projector's run.  When the append of
    an event resolves with [l], the store returns under [l] a record of type
    ['incoming-message'], and the write to the read model resolves with
    [row], then: the store was asked for [l] and nothing else, one row was
    written, from the chat, user and text of the published event, and two
    events were handed to the bus, the published one and then a new
    ['message-projected'] event that carries the row, the correlationId of
    the published event and its eventId as causationId, and no logId. *)
Theorem publish_then_project reg r w e l s2 record s3 row :
  heap w !! r = Some e →
  handlers_read_only reg →
  ids_normalised e →
  append_outcome (emitted (emit db reg r) w) = Some (inr l) →
  getEventByLogId db (Some l) (logEvent db e (store w)).1 = (s2, inr (Some record)) →
  rec_type record = "incoming-message" →
  addMessage db (payload e !! "chatId") (payload e !! "userId")
    (payload e !! "messageText") s2 = (s3, inr row) →
  let run := emit db reg r ≫= λ _, projector db uuidv4 reg r in
  fetches (emitted run w) = [Some l] ∧
  rows_written (emitted run w) =
    [(payload e !! "chatId", payload e !! "userId", payload e !! "messageText", row)] ∧
  ∃ pe,
    published (emitted run w) = [(r, e); (length (heap w), pe)] ∧
    type pe = "message-projected" ∧
    payload pe = row ∧
    correlationId (metadata pe) = correlationId (metadata e) ∧
    causationId (metadata pe) = Some (eventId e) ∧
    logId (metadata pe) = None.
Proof.
  intros Hr Hro [Hid Hcorr] Ha Hget Hty Hadd run.
  rewrite (emitted_emit_read_only db reg r e w) in Ha by done.
  destruct (emit_read_only_resolved _ _ _ _ _ Ha) as (receipt & _ & _ & _ & Hw & _).
  destruct (emit_general db reg r e w Hr) as (w0 & tb0 & Hrun0 & Htr0 & Hbus0 & _).
  set (w1 := (emit db reg r w).1).
  assert (Hemit : emit db reg r w = (w1, Ret tt)) by (subst w1; by rewrite Hrun0).
  assert (Hr1 : heap w1 !! r = Some (promote l e)).
  { subst w1. rewrite (emit_read_only_run db reg r e w) by done. cbn [fst].
    rewrite Hw. cbn [heap add_trace with_heap].
    apply list_lookup_insert_eq. by eapply lookup_lt_Some. }
  assert (Hs1 : store w1 = (logEvent db e (store w)).1).
  { subst w1. rewrite (emit_read_only_run db reg r e w) by done. cbn [fst].
    by rewrite Hw. }
  assert (Ht1 : trace w1 = trace w ++ EmitCalled r e :: tb0).
  { subst w1. rewrite Hrun0. cbn [fst trace add_trace]. by rewrite Htr0. }
  assert (Hl1 : length (heap w1) = length (heap w)) by apply touches_only_emit.
  assert (Hu1 : uuidSeed w1 = uuidSeed w) by apply touches_only_emit.
  destruct (projector_run db uuidv4 reg r (promote l e) w1 Hr1)
    as (w' & t & Hrun & Htr & Hcases).
  assert (Hem : emitted run w =
                (EmitCalled r e :: tb0) ++ Console (ProjectorReceived (Some l)) :: t).
  { unfold emitted, run, mbind, M_bind. rewrite Hemit, Hrun.
    cbn [fst trace add_trace]. rewrite Htr, Ht1, <- app_assoc.
    apply drop_app_length. }
  rewrite Hem. clear Hem.
  change (logId (metadata (promote l e))) with (Some l) in Hcases.
  change (payload (promote l e)) with (payload e) in Hcases.
  rewrite Hs1, Hget in Hcases.
  destruct Hcases as [(s' & err' & [=] & _)|[(s' & found' & [= <- <-] & Hinv' & _)|
    [(s' & found' & s2' & err' & [= <- <-] & _ & Hadd' & _)
    |(s' & found' & s2' & row' & tb & [= <- <-] & _ & Hadd' & Hbus & ->)]]].
  { simpl in Hinv'. by apply bool_decide_eq_true_1 in Hinv'. }
  { rewrite Hadd in Hadd'. done. }
  rewrite Hadd in Hadd'. injection Hadd' as <- <-.
  rewrite fetches_app, rows_written_app, published_app. simpl.
  fold (fetches tb0) (rows_written tb0) (published tb0).
  fold (fetches tb) (rows_written tb) (published tb).
  rewrite (bus_step_fetches tb0 Hbus0), (bus_step_rows_written tb0 Hbus0),
    (bus_step_published tb0 Hbus0).
  rewrite (bus_step_fetches tb Hbus), (bus_step_rows_written tb Hbus),
    (bus_step_published tb Hbus).
  split_and!; [done | done |].
  rewrite Hl1. eexists. split_and!; try done.
  - simpl. destruct (correlationId (metadata e)) as [cid|]; simpl; [|done].
    case_decide; [by subst|done].
  - simpl. by case_decide.
Qed.

(** *** The constructor *)

Lemma or_null_idempotent x : or_null (or_null x) = or_null x.
Proof.
  destruct x as [s|]; simpl; [|done]. case_decide; [done|]. simpl. by case_decide.
Qed.

(** X14. A correlationId survives any chain of constructions.  An event
    built with the correlationId of a constructed event and with that
    event's eventId as cause carries exactly that correlationId, and names
    that event as its cause unless its eventId is the empty string. *)
Theorem correlation_is_inherited uuid1 now1 ty1 pl1 md uuid2 now2 ty2 pl2 :
  let cause := DomainEvent_constructor uuid1 now1 ty1 pl1 md in
  let effect :=
    DomainEvent_constructor uuid2 now2 ty2 pl2
      (Some {| arg_correlationId := correlationId (metadata cause);
               arg_causationId := Some (eventId cause) |}) in
  correlationId (metadata effect) = correlationId (metadata cause) ∧
  causationId (metadata effect) = (if decide (uuid1 = "") then None else Some uuid1).
Proof. simpl. split; [apply or_null_idempotent | done]. Qed.

End Coverage.

(** ** Further facts: the gateway *)

Section GatewayFacts.

Variable db : Database.
Variable uuidv4 : nat → string.
Variable queries : ChatQueries db.
Implicit Types (g : Gateway db) (w : World db) (reg : Registry) (ws : nat).

Lemma gateway_ext g1 g2 :
  world g1 = world g2 → clients g1 = clients g2 → conns g1 = conns g2 →
  gateway_log g1 = gateway_log g2 → g1 = g2.
Proof. destruct g1, g2; simpl; by intros -> -> -> ->. Qed.

(** Unfold the monadic plumbing of the gateway. *)
Ltac gw_unfold :=
  unfold gw_try_catch, gw_throw, lift, next_uuid, get_conn, get_clients, set_clients,
    gw_observe, set_userId, set_participants, field,
    db_getChatParticipants, db_getChatHistory;
  unfold mbind, G_bind, mret, G_ret.

Ltac gw_step :=
  cbn [fst snd world clients conns gateway_log conn_of negb ws_userId participants].

Ltac same_gateway :=
  f_equal; apply gateway_ext;
  cbn [fst snd world clients conns gateway_log];
  try done; try (by rewrite <- ?app_assoc).

(** *** Routing *)

(** A frame that parses to an object: the uuid is drawn, two lines are
    logged, and the frame is routed inside the [try]. *)
Lemma on_message_json reg ws ty payload g :
  on_message db uuidv4 queries reg ws (Json ty payload) g =
    gw_try_catch db
      (route db uuidv4 queries reg ws ty payload (uuidv4 (uuidSeed (world g))))
      (λ error, gw_observe db (GwConsole (GwFailed error)))
      {| world := with_uuid_drawn (world g);
         clients := clients g;
         conns := conns g;
         gateway_log := gateway_log g ++
           [GwConsole (GwReceived ty (ws_userId (conn_of g ws)));
            GwConsole (GwPayload payload)] |}.
Proof.
  unfold on_message.
  unfold mbind at 1. unfold G_bind at 1. unfold lift at 1, next_uuid. cbn [fst snd].
  unfold gw_try_catch.
  unfold mbind at 1. unfold G_bind at 1. unfold get_conn at 1.
  unfold mbind at 1. unfold G_bind at 1. unfold gw_observe at 1.
  unfold mbind at 1. unfold G_bind at 1. unfold gw_observe at 1.
  cbn [world clients conns gateway_log].
  match goal with |- context [route _ _ _ _ _ _ _ _ ?a] =>
    replace a with
      {| world := with_uuid_drawn (world g); clients := clients g; conns := conns g;
         gateway_log := gateway_log g ++
           [GwConsole (GwReceived ty (ws_userId (conn_of g ws)));
            GwConsole (GwPayload payload)] |}
      by (apply gateway_ext; cbn [world clients conns gateway_log];
          try done; by rewrite <- app_assoc) end.
  done.
Qed.

Lemma route_select reg ws payload corr :
  route db uuidv4 queries reg ws (Some "chat.select") payload corr =
    chat_select db queries ws payload.
Proof. unfold route. rewrite decide_False by discriminate. by rewrite decide_True. Qed.

Lemma route_post reg ws payload corr :
  route db uuidv4 queries reg ws (Some "chat.message.new") payload corr =
    chat_message_new db uuidv4 reg ws payload corr.
Proof.
  unfold route. rewrite !decide_False by discriminate. by rewrite decide_True.
Qed.

Lemma route_identify reg ws payload corr :
  route db uuidv4 queries reg ws (Some "user.identify") payload corr =
    user_identify db ws payload.
Proof. unfold route. by rewrite decide_True. Qed.

(** *** The cases, one by one *)

Lemma chat_select_ignored ws payload g :
  truthy (ws_userId (conn_of g ws)) = false →
  chat_select db queries ws payload g = (g, Ret tt).
Proof. intros Hid. unfold chat_select. gw_unfold. by rewrite Hid. Qed.

Lemma chat_message_new_ignored reg ws payload corr g :
  truthy (ws_userId (conn_of g ws)) = false →
  chat_message_new db uuidv4 reg ws payload corr g = (g, Ret tt).
Proof. intros Hid. unfold chat_message_new. gw_unfold. by rewrite Hid. Qed.

Lemma chat_message_new_refused reg ws object corr g :
  truthy (ws_userId (conn_of g ws)) = true →
  not_participant (ws_userId (conn_of g ws)) (participants (conn_of g ws)) = true →
  chat_message_new db uuidv4 reg ws (Some object) corr g =
    ({| world := world g; clients := clients g; conns := conns g;
        gateway_log := gateway_log g ++
          [GwConsole (GwSecurityAlert (ws_userId (conn_of g ws)) (object !! "chatId"))] |},
     Ret tt).
Proof.
  intros Hid Hno. unfold chat_message_new. gw_unfold. rewrite Hid. cbn [negb].
  by rewrite Hno.
Qed.

Lemma chat_message_new_authorised reg ws object corr g :
  truthy (ws_userId (conn_of g ws)) = true →
  not_participant (ws_userId (conn_of g ws)) (participants (conn_of g ws)) = false →
  chat_message_new db uuidv4 reg ws (Some object) corr g =
    ({| world :=
          (emit db reg (length (heap (world g)))
             (new_DomainEvent db uuidv4 "incoming-message"
                (message_payload (object !! "chatId") (ws_userId (conn_of g ws))
                   (object !! "messageText"))
                (Some {| arg_correlationId := Some corr; arg_causationId := None |})
                (world g)).1).1;
        clients := clients g; conns := conns g;
        gateway_log := gateway_log g ++ [GwConsole (GwPublishing corr)] |},
     Ret tt).
Proof.
  intros Hid Hno. unfold chat_message_new. gw_unfold. rewrite Hid. cbn [negb].
  rewrite Hno. unfold not_awaited, new_DomainEvent.
  cbn [fst snd world clients conns gateway_log]. done.
Qed.

Lemma chat_select_refused ws object g s found :
  truthy (ws_userId (conn_of g ws)) = true →
  getChatParticipants queries (object !! "chatId") (store (world g)) = (s, inr found) →
  not_participant (ws_userId (conn_of g ws)) found = true →
  chat_select db queries ws (Some object) g =
    ({| world := with_store s (world g); clients := clients g;
        conns := <[ws := {| ws_userId := ws_userId (conn_of g ws);
                            participants := found |}]> (conns g);
        gateway_log := gateway_log g ++
          [GetChatParticipantsCall (object !! "chatId") (inr found)] |},
     Throw (Exn "ReferenceError")).
Proof.
  intros Hid Hget Hno. unfold chat_select. gw_unfold. rewrite Hid. cbn [negb].
  rewrite Hget. cbn [fst snd world clients conns gateway_log conn_of].
  by rewrite Hno.
Qed.

Lemma chat_select_authorised ws object g s found s2 res :
  truthy (ws_userId (conn_of g ws)) = true →
  getChatParticipants queries (object !! "chatId") (store (world g)) = (s, inr found) →
  not_participant (ws_userId (conn_of g ws)) found = false →
  getChatHistory queries (object !! "chatId") s = (s2, res) →
  chat_select db queries ws (Some object) g =
    ({| world := with_store s2 (world g); clients := clients g;
        conns := <[ws := {| ws_userId := ws_userId (conn_of g ws);
                            participants := found |}]> (conns g);
        gateway_log := gateway_log g ++
          [GetChatParticipantsCall (object !! "chatId") (inr found);
           Subscribe ws (object !! "chatId");
           GetChatHistoryCall (object !! "chatId") res] ++
          match res with inr history => [Send ws history] | inl _ => [] end |},
     match res with inr _ => Ret tt | inl err => Throw err end).
Proof.
  intros Hid Hget Hno Hhist. unfold chat_select. gw_unfold. rewrite Hid. cbn [negb].
  rewrite Hget. cbn [fst snd world clients conns gateway_log conn_of].
  rewrite Hno. cbn [fst snd world clients conns gateway_log store with_store].
  rewrite Hhist. destruct res as [err|history]; same_gateway.
Qed.

Lemma message_payload_lookup chatId userId messageText :
  message_payload chatId userId messageText !! "chatId" = chatId ∧
  message_payload chatId userId messageText !! "userId" = userId ∧
  message_payload chatId userId messageText !! "messageText" = messageText.
Proof. destruct chatId, userId, messageText; split_and!; reflexivity. Qed.

Lemma logged_app {A} (m : G db A) g g' t o :
  m g = (g', o) → gateway_log g' = gateway_log g ++ t → logged m g = t.
Proof. intros Hm Hl. unfold logged. rewrite Hm. simpl. rewrite Hl. apply drop_app_length. Qed.

(** An authorised post, from the state the router starts it in. *)
Lemma authorised_post reg ws g object :
  truthy (ws_userId (conn_of g ws)) = true →
  not_participant (ws_userId (conn_of g ws)) (participants (conn_of g ws)) = false →
  ∃ w' tb,
    on_message db uuidv4 queries reg ws (Json (Some "chat.message.new") (Some object)) g =
      ({| world :=
            add_trace
              (EmitCalled (length (heap (world g)))
                 (DomainEvent_constructor (uuidv4 (S (uuidSeed (world g))))
                    (clock (world g)) "incoming-message"
                    (message_payload (object !! "chatId") (ws_userId (conn_of g ws))
                       (object !! "messageText"))
                    (Some {| arg_correlationId := Some (uuidv4 (uuidSeed (world g)));
                             arg_causationId := None |})) :: tb) w';
          clients := clients g;
          conns := conns g;
          gateway_log := gateway_log g ++
            [GwConsole (GwReceived (Some "chat.message.new") (ws_userId (conn_of g ws)));
             GwConsole (GwPayload (Some object));
             GwConsole (GwPublishing (uuidv4 (uuidSeed (world g))))] |},
       Ret tt) ∧
    trace w' = trace (world g) ∧
    Forall bus_step tb.
Proof.
  intros Hid Hno. rewrite on_message_json, route_post. unfold gw_try_catch.
  rewrite chat_message_new_authorised by done.
  cbn [world clients conns gateway_log conn_of].
  unfold new_DomainEvent. cbn [fst heap store trace uuidSeed clock with_uuid_drawn].
  set (e := DomainEvent_constructor _ _ _ _ _).
  set (w2 := Build_World _ _ _ _ _ _).
  assert (Hr : heap w2 !! length (heap (world g)) = Some e).
  { subst w2. cbn [heap]. by rewrite list_lookup_middle. }
  destruct (emit_general db reg _ e w2 Hr) as (w' & tb & Hrun & Htr & Hbus & _).
  exists w', tb. rewrite Hrun. split_and!; [|done|done].
  f_equal. apply gateway_ext; cbn [fst world clients conns gateway_log]; try done.
  by rewrite <- app_assoc.
Qed.

Lemma bus_trace_add_trace {A} (m : G db A) g g' o t w' :
  m g = (g', o) → world g' = add_trace t w' → trace w' = trace (world g) →
  bus_trace m g = t.
Proof.
  intros Hm Hw Htr. unfold bus_trace. rewrite Hm. cbn [fst]. rewrite Hw.
  cbn [trace add_trace]. rewrite Htr. apply drop_app_length.
Qed.

(** *** Frames from a connection that has not identified *)

(** X15. A connection whose [ws.userId] is falsy (nobody identified on
    it, or somebody identified as [0], as [''] or without an id) is
    ignored when it selects a chat or posts: a correlation id is drawn and
    the frame is logged, and nothing else happens; the store is not
    asked, nothing is published, subscribed or sent. *)
Theorem unidentified_connection_is_ignored reg ws g ty payload :
  truthy (ws_userId (conn_of g ws)) = false →
  ty = "chat.select" ∨ ty = "chat.message.new" →
  on_message db uuidv4 queries reg ws (Json (Some ty) payload) g =
    ({| world := with_uuid_drawn (world g);
        clients := clients g;
        conns := conns g;
        gateway_log := gateway_log g ++
          [GwConsole (GwReceived (Some ty) (ws_userId (conn_of g ws)));
           GwConsole (GwPayload payload)] |},
     Ret tt).
Proof.
  intros Hid [-> | ->]; rewrite on_message_json; unfold gw_try_catch.
  - rewrite route_select, chat_select_ignored by done. done.
  - rewrite route_post, chat_message_new_ignored by done. done.
Qed.

(** *** Posting *)

(** X16. A post is checked against the participants the connection
    stored at its last [chat.select], not against the chat the post names.
    When the user of the connection is one of the stored participants, the
    gateway publishes an ['incoming-message'] event for whatever chat the
    frame names, with the connection's user as author, a fresh eventId and
    the correlation id drawn for the frame; the store is not asked who
    belongs to that chat. *)
Theorem post_is_checked_against_selected_chat reg ws g object :
  truthy (ws_userId (conn_of g ws)) = true →
  not_participant (ws_userId (conn_of g ws)) (participants (conn_of g ws)) = false →
  let run := on_message db uuidv4 queries reg ws
               (Json (Some "chat.message.new") (Some object)) in
  let e := DomainEvent_constructor (uuidv4 (S (uuidSeed (world g)))) (clock (world g))
             "incoming-message"
             (message_payload (object !! "chatId") (ws_userId (conn_of g ws))
                (object !! "messageText"))
             (Some {| arg_correlationId := Some (uuidv4 (uuidSeed (world g)));
                      arg_causationId := None |}) in
  published (bus_trace run g) = [(length (heap (world g)), e)] ∧
  payload e !! "chatId" = object !! "chatId" ∧
  payload e !! "userId" = ws_userId (conn_of g ws) ∧
  payload e !! "messageText" = object !! "messageText" ∧
  logged run g =
    [GwConsole (GwReceived (Some "chat.message.new") (ws_userId (conn_of g ws)));
     GwConsole (GwPayload (Some object));
     GwConsole (GwPublishing (uuidv4 (uuidSeed (world g))))] ∧
  clients (run g).1 = clients g ∧
  conns (run g).1 = conns g ∧
  (run g).2 = Ret tt.
Proof.
  intros Hid Hno run e.
  destruct (authorised_post reg ws g object Hid Hno) as (w' & tb & Hrun & Htr & Hbus).
  fold run in Hrun. fold e in Hrun.
  destruct (message_payload_lookup (object !! "chatId") (ws_userId (conn_of g ws))
              (object !! "messageText")) as (Hc & Hu & Hm).
  split_and!; try done.
  - rewrite (bus_trace_add_trace run g _ _ _ w' Hrun eq_refl Htr). simpl.
    fold (published tb). by rewrite (bus_step_published tb Hbus).
  - by rewrite (logged_app run g _ _ _ Hrun eq_refl).
  - by rewrite Hrun.
  - by rewrite Hrun.
  - by rewrite Hrun.
Qed.

(** X17. A post from a connection whose user is not one of the stored
    participants, or that has selected no chat, is refused: a security
    alert goes to the error console, and nothing is published, allocated
    or stored. *)
Theorem unauthorised_post_is_refused reg ws g object :
  truthy (ws_userId (conn_of g ws)) = true →
  not_participant (ws_userId (conn_of g ws)) (participants (conn_of g ws)) = true →
  on_message db uuidv4 queries reg ws (Json (Some "chat.message.new") (Some object)) g =
    ({| world := with_uuid_drawn (world g);
        clients := clients g;
        conns := conns g;
        gateway_log := gateway_log g ++
          [GwConsole (GwReceived (Some "chat.message.new") (ws_userId (conn_of g ws)));
           GwConsole (GwPayload (Some object));
           GwConsole (GwSecurityAlert (ws_userId (conn_of g ws)) (object !! "chatId"))] |},
     Ret tt).
Proof.
  intros Hid Hno. rewrite on_message_json, route_post. unfold gw_try_catch.
  rewrite chat_message_new_refused by done. same_gateway.
Qed.

(** *** Selecting a chat *)

(** X18. A [chat.select] for a chat the user does not belong to, or that
    the store does not know, subscribes nothing and sends nothing.  It
    still overwrites the participants the connection had stored with what
    the store answered, and what reaches the error console is not the
    security alert but the handler's catch-all line, with a
    ReferenceError. *)
Theorem refused_select_overwrites_participants reg ws g object s found :
  truthy (ws_userId (conn_of g ws)) = true →
  getChatParticipants queries (object !! "chatId") (store (world g)) = (s, inr found) →
  not_participant (ws_userId (conn_of g ws)) found = true →
  on_message db uuidv4 queries reg ws (Json (Some "chat.select") (Some object)) g =
    ({| world := with_store s (with_uuid_drawn (world g));
        clients := clients g;
        conns := <[ws := {| ws_userId := ws_userId (conn_of g ws);
                            participants := found |}]> (conns g);
        gateway_log := gateway_log g ++
          [GwConsole (GwReceived (Some "chat.select") (ws_userId (conn_of g ws)));
           GwConsole (GwPayload (Some object));
           GetChatParticipantsCall (object !! "chatId") (inr found);
           GwConsole (GwFailed (Exn "ReferenceError"))] |},
     Ret tt).
Proof.
  intros Hid Hget Hno. rewrite on_message_json, route_select. unfold gw_try_catch.
  rewrite (chat_select_refused ws object _ s found) by done.
  unfold gw_observe. same_gateway.
Qed.

(** X19. A [chat.select] for a chat the user belongs to stores the
    chat's participants in the connection, subscribes the socket to the
    chat, and then asks for the history: when the history arrives it is
    sent to the socket; when the query is rejected the failure goes to the
    error console, and the socket stays subscribed. *)
Theorem authorised_select_subscribes_then_sends reg ws g object s found s2 res :
  truthy (ws_userId (conn_of g ws)) = true →
  getChatParticipants queries (object !! "chatId") (store (world g)) = (s, inr found) →
  not_participant (ws_userId (conn_of g ws)) found = false →
  getChatHistory queries (object !! "chatId") s = (s2, res) →
  on_message db uuidv4 queries reg ws (Json (Some "chat.select") (Some object)) g =
    ({| world := with_store s2 (with_uuid_drawn (world g));
        clients := clients g;
        conns := <[ws := {| ws_userId := ws_userId (conn_of g ws);
                            participants := found |}]> (conns g);
        gateway_log := gateway_log g ++
          [GwConsole (GwReceived (Some "chat.select") (ws_userId (conn_of g ws)));
           GwConsole (GwPayload (Some object));
           GetChatParticipantsCall (object !! "chatId") (inr found);
           Subscribe ws (object !! "chatId");
           GetChatHistoryCall (object !! "chatId") res;
           match res with
           | inr history => Send ws history
           | inl err => GwConsole (GwFailed err)
           end] |},
     Ret tt).
Proof.
  intros Hid Hget Hno Hhist. rewrite on_message_json, route_select. unfold gw_try_catch.
  rewrite (chat_select_authorised ws object _ s found s2 res) by done.
  destruct res as [err|history]; unfold gw_observe; same_gateway.
Qed.

(** X20. Selecting one chat opens all of them.  After a [chat.select]
    for a chat the user belongs to, a post on the same connection is
    published whatever chat it names, with that chat's id in the payload
    and the connection's user as author; the store is not asked who
    belongs to the chat of the post. *)
Theorem select_one_chat_post_to_any reg ws g selected s found s2 res object :
  truthy (ws_userId (conn_of g ws)) = true →
  getChatParticipants queries (selected !! "chatId") (store (world g)) = (s, inr found) →
  not_participant (ws_userId (conn_of g ws)) found = false →
  getChatHistory queries (selected !! "chatId") s = (s2, res) →
  let g1 := (on_message db uuidv4 queries reg ws
               (Json (Some "chat.select") (Some selected)) g).1 in
  let run := on_message db uuidv4 queries reg ws
               (Json (Some "chat.message.new") (Some object)) in
  ∃ e,
    published (bus_trace run g1) = [(length (heap (world g)), e)] ∧
    type e = "incoming-message" ∧
    payload e !! "chatId" = object !! "chatId" ∧
    payload e !! "userId" = ws_userId (conn_of g ws) ∧
    participant_lookups (logged run g1) = [].
Proof.
  intros Hid Hget Hno Hhist g1 run.
  assert (Hconn : conn_of g1 ws = {| ws_userId := ws_userId (conn_of g ws);
                                     participants := found |}).
  { subst g1. rewrite on_message_json, route_select. unfold gw_try_catch.
    rewrite (chat_select_authorised ws selected _ s found s2 res) by done.
    unfold conn_of at 1.
    destruct res as [err|history]; unfold gw_observe;
      cbn [fst world clients conns gateway_log]; by rewrite lookup_insert_eq. }
  assert (Hheap : heap (world g1) = heap (world g)).
  { subst g1. rewrite on_message_json, route_select. unfold gw_try_catch.
    rewrite (chat_select_authorised ws selected _ s found s2 res) by done.
    by destruct res as [err|history]. }
  assert (Hid1 : truthy (ws_userId (conn_of g1 ws)) = true) by (by rewrite Hconn).
  assert (Hno1 : not_participant (ws_userId (conn_of g1 ws))
                   (participants (conn_of g1 ws)) = false) by (by rewrite Hconn).
  destruct (authorised_post reg ws g1 object Hid1 Hno1) as (w' & tb & Hrun & Htr & Hbus).
  fold run in Hrun.
  destruct (message_payload_lookup (object !! "chatId") (ws_userId (conn_of g1 ws))
              (object !! "messageText")) as (Hc & Hu & Hm).
  eexists. split_and!.
  - rewrite (bus_trace_add_trace run g1 _ _ _ w' Hrun eq_refl Htr). simpl.
    fold (published tb). rewrite (bus_step_published tb Hbus), Hheap. done.
  - done.
  - exact Hc.
  - cbn [payload DomainEvent_constructor]. rewrite Hu. by rewrite Hconn.
  - by rewrite (logged_app run g1 _ _ _ Hrun eq_refl).
Qed.

(** *** Frames that cannot be used *)

(** X26. Frames the gateway cannot use are dropped, and change nothing
    but the count of uuids drawn.  A frame that is not JSON, or that is
    the JSON value [null], leaves one line on the error console.  A frame
    of a known type that has no payload does the same after the two
    receipt lines, before anything is stored or asked of the database.  A
    frame of any other type leaves the two receipt lines and nothing
    else. *)
Theorem unusable_frames_are_dropped reg ws g :
  (∀ message err,
     (message = Malformed ∧ err = Exn "SyntaxError") ∨ (message = JsonNull ∧ err = TypeError) →
     on_message db uuidv4 queries reg ws message g =
       ({| world := with_uuid_drawn (world g);
           clients := clients g;
           conns := conns g;
           gateway_log := gateway_log g ++ [GwConsole (GwFailed err)] |},
        Ret tt)) ∧
  (∀ ty,
     ty = "user.identify" ∨
     (truthy (ws_userId (conn_of g ws)) = true ∧
      (ty = "chat.select" ∨ ty = "chat.message.new")) →
     on_message db uuidv4 queries reg ws (Json (Some ty) None) g =
       ({| world := with_uuid_drawn (world g);
           clients := clients g;
           conns := conns g;
           gateway_log := gateway_log g ++
             [GwConsole (GwReceived (Some ty) (ws_userId (conn_of g ws)));
              GwConsole (GwPayload None);
              GwConsole (GwFailed TypeError)] |},
        Ret tt)) ∧
  (∀ ty payload,
     ty ≠ Some "user.identify" → ty ≠ Some "chat.select" → ty ≠ Some "chat.message.new" →
     on_message db uuidv4 queries reg ws (Json ty payload) g =
       ({| world := with_uuid_drawn (world g);
           clients := clients g;
           conns := conns g;
           gateway_log := gateway_log g ++
             [GwConsole (GwReceived ty (ws_userId (conn_of g ws)));
              GwConsole (GwPayload payload)] |},
        Ret tt)).
Proof.
  split_and!.
  - intros message err [[-> ->] | [-> ->]]; unfold on_message; gw_unfold; same_gateway.
  - intros ty [-> | [Hid [-> | ->]]]; rewrite on_message_json; unfold gw_try_catch.
    + rewrite route_identify. unfold user_identify. gw_unfold. same_gateway.
    + rewrite route_select. unfold chat_select. gw_unfold. unfold conn_of in *.
      cbn [fst snd world clients conns gateway_log]. rewrite Hid. same_gateway.
    + rewrite route_post. unfold chat_message_new. gw_unfold. unfold conn_of in *.
      cbn [fst snd world clients conns gateway_log]. rewrite Hid. same_gateway.
  - intros ty payload H1 H2 H3. rewrite on_message_json. unfold gw_try_catch, route.
    by rewrite !decide_False by done.
Qed.

(** *** The registry of connections *)

Lemma filter_other_sockets ws (l : list nat) :
  ws ∉ l → filter (λ socket, socket ≠ ws) l = l.
Proof.
  induction l as [|x l IH]; [done|]. intros Hnot%not_elem_of_cons.
  destruct Hnot as [Hne Hnot]. rewrite filter_cons_True by done. by rewrite IH.
Qed.

Lemma sockets_of_nonempty c k : sockets_of c k ≠ [] → c !! k = Some (sockets_of c k).
Proof. unfold sockets_of. by destruct (c !! k). Qed.

(** What [user.identify] does. *)
Lemma user_identify_run reg ws g object :
  on_message db uuidv4 queries reg ws (Json (Some "user.identify") (Some object)) g =
    ({| world := with_uuid_drawn (world g);
        clients := <[object !! "userId" :=
                       sockets_of (clients g) (object !! "userId") ++ [ws]]> (clients g);
        conns := <[ws := {| ws_userId := object !! "userId";
                            participants := participants (conn_of g ws) |}]> (conns g);
        gateway_log := gateway_log g ++
          [GwConsole (GwReceived (Some "user.identify") (ws_userId (conn_of g ws)));
           GwConsole (GwPayload (Some object));
           GwConsole (GwIdentified (object !! "userId"))] |},
     Ret tt).
Proof.
  rewrite on_message_json, route_identify. unfold gw_try_catch, user_identify, register.
  gw_unfold. cbn [fst snd world clients conns gateway_log conn_of]. same_gateway.
Qed.

(** What [close] leaves in the registry. *)
Lemma on_close_run ws g :
  world (on_close db ws g).1 = world g ∧
  conns (on_close db ws g).1 = conns g ∧
  (on_close db ws g).2 = Ret tt ∧
  clients (on_close db ws g).1 =
    if truthy (ws_userId (conn_of g ws)) then
      match clients g !! ws_userId (conn_of g ws) with
      | None => clients g
      | Some userConnections =>
          if decide (0 < length (filter (λ socket, socket ≠ ws) userConnections)) then
            <[ws_userId (conn_of g ws) :=
                filter (λ socket, socket ≠ ws) userConnections]> (clients g)
          else delete (ws_userId (conn_of g ws)) (clients g)
      end
    else clients g.
Proof.
  unfold on_close. gw_unfold. cbn [fst snd world clients conns gateway_log conn_of].
  destruct (truthy _); cbn [negb]; [|done].
  cbn [fst snd world clients conns gateway_log].
  destruct (clients g !! _) as [l|]; [|done].
  by case_decide.
Qed.

Lemma confined_refl ws g : confined ws g g.
Proof. by split. Qed.

Lemma confined_trans ws g1 g2 g3 :
  confined ws g1 g2 → confined ws g2 g3 → confined ws g1 g3.
Proof.
  intros [Hw1 Hc1] [Hw2 Hc2]. split; [auto|].
  intros ws' Hne. by rewrite Hc2, Hc1.
Qed.

Lemma confined_same ws g g' :
  clients g' = clients g → conns g' = conns g → confined ws g g'.
Proof. intros Hc Hn. split; [by rewrite Hc | intros; by rewrite Hn]. Qed.

Lemma confines_bind {A B} ws (m : G db A) (k : A → G db B) :
  confines ws m → (∀ a, confines ws (k a)) → confines ws (m ≫= k).
Proof.
  intros Hm Hk g. unfold mbind, G_bind. specialize (Hm g).
  destruct (m g) as [g1 [a|err]]; [|done].
  eapply confined_trans; [exact Hm | apply Hk].
Qed.

Lemma confines_try_catch {A} ws (m : G db A) (k : Error → G db A) :
  confines ws m → (∀ err, confines ws (k err)) → confines ws (gw_try_catch db m k).
Proof.
  intros Hm Hk g. unfold gw_try_catch. specialize (Hm g).
  destruct (m g) as [g1 [a|err]]; [done|].
  eapply confined_trans; [exact Hm | apply Hk].
Qed.

Lemma confines_ret {A} ws (a : A) : confines ws (mret a : G db A).
Proof. intros g. apply confined_refl. Qed.

Lemma confines_throw {A} ws err : confines ws (gw_throw db err : G db A).
Proof. intros g. apply confined_refl. Qed.

Lemma confines_lift {A} ws (m : M db A) : confines ws (lift db m).
Proof. intros g. by apply confined_same. Qed.

Lemma confines_observe ws o : confines ws (gw_observe db o).
Proof. intros g. by apply confined_same. Qed.

Lemma confines_get_conn ws ws' : confines ws (get_conn db ws').
Proof. intros g. apply confined_refl. Qed.

Lemma confines_field ws payload key : confines ws (field db payload key).
Proof. destruct payload; [apply confines_ret | apply confines_throw]. Qed.

Lemma confines_set_userId ws u : confines ws (set_userId db ws u).
Proof.
  intros g. split; [done|]. intros ws' Hne. cbn [fst conns set_userId].
  by rewrite lookup_insert_ne.
Qed.

Lemma confines_set_participants ws found : confines ws (set_participants db ws found).
Proof.
  intros g. split; [done|]. intros ws' Hne. cbn [fst conns set_participants].
  by rewrite lookup_insert_ne.
Qed.

Lemma confines_register ws u : confines ws (register db ws u).
Proof.
  intros g. split; [|done]. unfold register. gw_unfold.
  cbn [fst snd world clients conns gateway_log]. intros Hwf.
  apply map_Forall_insert_2; [|done]. by destruct (default [] _).
Qed.

Lemma confines_db_getChatParticipants ws chatId :
  confines ws (db_getChatParticipants db queries chatId).
Proof.
  intros g. unfold db_getChatParticipants.
  destruct (getChatParticipants queries chatId _) as [s res]. by apply confined_same.
Qed.

Lemma confines_db_getChatHistory ws chatId :
  confines ws (db_getChatHistory db queries chatId).
Proof.
  intros g. unfold db_getChatHistory.
  destruct (getChatHistory queries chatId _) as [s res]. by apply confined_same.
Qed.

Lemma confines_on_message reg ws message :
  confines ws (on_message db uuidv4 queries reg ws message).
Proof.
  unfold on_message.
  apply confines_bind; [apply confines_lift|]. intros corr.
  apply confines_try_catch; [|intros err; apply confines_observe].
  destruct message as [| |ty payload]; [apply confines_throw..|].
  apply confines_bind; [apply confines_get_conn|]. intros conn.
  apply confines_bind; [apply confines_observe|]. intros _.
  apply confines_bind; [apply confines_observe|]. intros _.
  unfold route. repeat case_decide.
  - unfold user_identify.
    apply confines_bind; [apply confines_field|]. intros userId.
    apply confines_bind; [apply confines_set_userId|]. intros _.
    apply confines_bind; [apply confines_register|]. intros _.
    apply confines_observe.
  - unfold chat_select.
    apply confines_bind; [apply confines_get_conn|]. intros conn'.
    destruct (negb _); [apply confines_ret|].
    apply confines_bind; [apply confines_field|]. intros chatId.
    apply confines_bind; [apply confines_db_getChatParticipants|]. intros found.
    apply confines_bind; [apply confines_set_participants|]. intros _.
    destruct (not_participant _ _); [apply confines_throw|].
    apply confines_bind; [apply confines_observe|]. intros _.
    apply confines_bind; [apply confines_db_getChatHistory|]. intros history.
    apply confines_observe.
  - unfold chat_message_new.
    apply confines_bind; [apply confines_get_conn|]. intros conn'.
    destruct (negb _); [apply confines_ret|].
    apply confines_bind; [apply confines_field|]. intros chatId.
    apply confines_bind; [apply confines_field|]. intros messageText.
    destruct (not_participant _ _); [apply confines_observe|].
    apply confines_bind; [apply confines_observe|]. intros _.
    apply confines_bind; [apply confines_lift|]. intros r.
    apply confines_lift.
  - apply confines_ret.
Qed.

Lemma confines_on_close ws : confines ws (on_close db ws).
Proof.
  intros g. destruct (on_close_run ws g) as (_ & Hconns & _ & Hclients).
  split; [|intros; by rewrite Hconns].
  intros Hwf. rewrite Hclients.
  destruct (truthy _); [|done].
  destruct (clients g !! _) as [l|]; [|done].
  case_decide as Hlen.
  - apply map_Forall_insert_2; [|done]. intros Hnil. rewrite Hnil in Hlen. simpl in Hlen. lia.
  - by apply map_Forall_delete.
Qed.

(** X21. Whatever frame arrives on a socket, the message handler
    resolves: every failure ends in its [catch].  And whatever frame
    arrives, and when the socket closes, the registry keeps its shape (no
    user is left with an empty list of sockets), and the user and the
    stored participants of every other connection are left as they
    were. *)
Theorem gateway_handlers_are_confined reg ws g message :
  (on_message db uuidv4 queries reg ws message g).2 = Ret tt ∧
  confined ws g (on_message db uuidv4 queries reg ws message g).1 ∧
  confined ws g (on_close db ws g).1.
Proof.
  split_and!.
  - unfold on_message, mbind, G_bind, lift, next_uuid, gw_try_catch. cbn [fst snd].
    match goal with |- context [match ?body ?g0 with _ => _ end] =>
      destruct (body g0) as [g1 [[]|err]] end; done.
  - apply confines_on_message.
  - apply confines_on_close.
Qed.

(** X22. Identifying and then closing leaves the registry as it was.
    When a socket that is not registered for a user identifies as that
    user (with a truthy id), it is appended to the user's sockets; when it
    then closes, the registry is exactly what it was before, the user's
    entry being removed again if the socket was the only one. *)
Theorem identify_then_close_restores_clients reg ws g object :
  truthy (object !! "userId") = true →
  clients_wf (clients g) →
  ws ∉ sockets_of (clients g) (object !! "userId") →
  let g1 := (on_message db uuidv4 queries reg ws
               (Json (Some "user.identify") (Some object)) g).1 in
  ws_userId (conn_of g1 ws) = object !! "userId" ∧
  sockets_of (clients g1) (object !! "userId") =
    sockets_of (clients g) (object !! "userId") ++ [ws] ∧
  clients (on_close db ws g1).1 = clients g.
Proof.
  intros Hid Hwf Hnot g1. subst g1. rewrite user_identify_run. cbn [fst].
  set (g1 := Build_Gateway _ _ _ _ _).
  assert (Hu : ws_userId (conn_of g1 ws) = object !! "userId").
  { unfold conn_of. subst g1. cbn [conns]. by rewrite lookup_insert_eq. }
  split_and!; [done | |].
  { unfold sockets_of at 1. subst g1. cbn [clients]. by rewrite lookup_insert_eq. }
  destruct (on_close_run ws g1) as (_ & _ & _ & ->).
  rewrite Hu, Hid. subst g1. cbn [clients]. rewrite lookup_insert_eq.
  rewrite filter_app, filter_other_sockets by done.
  rewrite filter_cons_False, filter_nil, app_nil_r by (by intros ?).
  case_decide as Hlen.
  - rewrite insert_insert_eq. apply insert_id, sockets_of_nonempty.
    intros Hnil. rewrite Hnil in Hlen. simpl in Hlen. lia.
  - rewrite delete_insert_eq. apply delete_id.
    destruct (clients g !! (object !! "userId")) as [l|] eqn:Hl; [|done].
    exfalso. apply Hlen. unfold sockets_of. rewrite Hl. simpl.
    specialize (Hwf _ _ Hl). simpl in Hwf. destruct l; [done | simpl; lia].
Qed.

(** X23. Closing a socket cleans the registry under one key only, the
    socket's current [ws.userId]: there the socket is filtered out of the
    list (all its occurrences), every other entry is left as it was; and
    when the current id is falsy nothing is cleaned at all.  Nothing else
    of the gateway changes. *)
Theorem close_cleans_only_current_user ws g :
  (∀ k, k ≠ ws_userId (conn_of g ws) →
     clients (on_close db ws g).1 !! k = clients g !! k) ∧
  (truthy (ws_userId (conn_of g ws)) = true →
     sockets_of (clients (on_close db ws g).1) (ws_userId (conn_of g ws)) =
       filter (λ socket, socket ≠ ws) (sockets_of (clients g) (ws_userId (conn_of g ws)))) ∧
  (truthy (ws_userId (conn_of g ws)) = false →
     clients (on_close db ws g).1 = clients g) ∧
  conns (on_close db ws g).1 = conns g ∧
  world (on_close db ws g).1 = world g.
Proof.
  destruct (on_close_run ws g) as (Hworld & Hconns & _ & Hclients).
  rewrite Hclients. split_and!; [| | |done|done].
  - intros k Hne. destruct (truthy _); [|done].
    destruct (clients g !! ws_userId _) as [l|]; [|done].
    case_decide; [by rewrite lookup_insert_ne | by rewrite lookup_delete_ne].
  - intros ->. unfold sockets_of.
    destruct (clients g !! ws_userId _) as [l|] eqn:Hl; [|by rewrite Hl].
    case_decide as Hlen.
    + by rewrite lookup_insert_eq.
    + rewrite lookup_delete_eq. simpl.
      destruct (filter _ l); [done | simpl in Hlen; lia].
  - by intros ->.
Qed.

(** X24. A socket that identifies a second time, under another id, is
    registered under both ids, and closing it removes it only from the
    second: it stays in the registry under the first id for good. *)
Theorem reidentified_socket_stays_registered reg ws g first second :
  first !! "userId" ≠ second !! "userId" →
  let g1 := (on_message db uuidv4 queries reg ws
               (Json (Some "user.identify") (Some first)) g).1 in
  let g2 := (on_message db uuidv4 queries reg ws
               (Json (Some "user.identify") (Some second)) g1).1 in
  ws ∈ sockets_of (clients g2) (first !! "userId") ∧
  ws ∈ sockets_of (clients g2) (second !! "userId") ∧
  ws ∈ sockets_of (clients (on_close db ws g2).1) (first !! "userId").
Proof.
  intros Hne g1 g2.
  assert (Hin : ws ∈ sockets_of (clients g2) (first !! "userId")).
  { subst g2 g1. rewrite !user_identify_run. cbn [fst clients]. unfold sockets_of at 1.
    rewrite lookup_insert_ne by done. rewrite lookup_insert_eq. simpl.
    apply elem_of_app. right. by left. }
  assert (Hu : ws_userId (conn_of g2 ws) = second !! "userId").
  { subst g2. rewrite user_identify_run. unfold conn_of. cbn [fst conns].
    by rewrite lookup_insert_eq. }
  split_and!; [done | |].
  - subst g2. rewrite user_identify_run. cbn [fst clients]. unfold sockets_of at 1.
    rewrite lookup_insert_eq. simpl. apply elem_of_app. right. by left.
  - destruct (on_close_run ws g2) as (_ & _ & _ & Hclients).
    unfold sockets_of in *. rewrite Hclients, Hu. clear Hclients.
    destruct (truthy _); [|exact Hin].
    destruct (clients g2 !! (second !! "userId")) as [l|]; [|exact Hin].
    case_decide; [by rewrite lookup_insert_ne | by rewrite lookup_delete_ne].
Qed.

End GatewayFacts.

(** ** The further statements at concrete inputs *)

Lemma emit_of_nothing_rejects_witness :
  heap (mem_world [] empty_db) !! 0 = None ∧
  emit memDb sample_registry 0 (mem_world [] empty_db)
    = (mem_world [] empty_db, Throw TypeError).
Proof.
  split; [reflexivity|].
  exact (emit_of_nothing_rejects memDb sample_registry 0 (mem_world [] empty_db) eq_refl).
Defined.

Lemma error_typed_event_is_lost_witness :
  heap (mem_world [error_event] empty_db) !! 0 = Some error_event ∧
  type error_event = "error" ∧
  listeners sample_registry "error" = [] ∧
  emit memDb sample_registry 0 (mem_world [error_event] empty_db) =
    (add_trace [EmitCalled 0 error_event; Console (BusCritical "error" UnhandledError)]
       (mem_world [error_event] empty_db), Ret tt).
Proof.
  split_and!; [reflexivity..|].
  exact (error_typed_event_is_lost memDb sample_registry 0
           (mem_world [error_event] empty_db) error_event eq_refl eq_refl eq_refl).
Defined.

Lemma append_receives_published_event_witness :
  heap scenario_a !! 0 = Some incoming_message ∧
  handlers_read_only sample_registry ∧
  appends (emitted (emit memDb sample_registry 0) scenario_a)
    = [(incoming_message, inr 1%Z)].
Proof.
  split_and!; [reflexivity | apply sample_registry_read_only |].
  pose proof (append_receives_published_event memDb sample_registry 0 scenario_a
                incoming_message eq_refl sample_registry_read_only) as H.
  assert (Ha : append_outcome (emitted (emit memDb sample_registry 0) scenario_a)
               = Some (inr 1%Z)) by (vm_compute; reflexivity).
  rewrite Ha in H. exact H.
Defined.

Lemma guaranteed_failure_keeps_append_witness :
  heap scenario_a !! 0 = Some incoming_message ∧
  append_outcome (emitted (emit memDb failing_first_registry 0) scenario_a)
    = Some (inr 1%Z) ∧
  In (Threw Guaranteed "incoming-message-KAFKED" 0 (Exn "listener failed"))
     (emitted (emit memDb failing_first_registry 0) scenario_a) ∧
  heap (emit memDb failing_first_registry 0 scenario_a).1 !! 0
    = Some (promote 1 incoming_message) ∧
  errors_logged (emitted (emit memDb failing_first_registry 0) scenario_a)
    = [BusCritical "incoming-message-KAFKED" (Exn "listener failed")].
Proof.
  assert (Hro : handlers_read_only failing_first_registry).
  { repeat apply handlers_read_only_on;
      auto using quiet_read_only, failing_read_only, handlers_read_only_empty. }
  assert (Ha : append_outcome (emitted (emit memDb failing_first_registry 0) scenario_a)
               = Some (inr 1%Z)) by (vm_compute; reflexivity).
  assert (Hin : In (Threw Guaranteed "incoming-message-KAFKED" 0 (Exn "listener failed"))
                   (emitted (emit memDb failing_first_registry 0) scenario_a)).
  { vm_compute. do 4 right. left. reflexivity. }
  destruct (guaranteed_failure_keeps_append memDb failing_first_registry 0 scenario_a
              incoming_message 1%Z _ _ _ eq_refl Hro Ha Hin) as (_ & Hh & _ & Hl).
  split_and!; [reflexivity | exact Ha | exact Hin | exact Hh | exact Hl].
Defined.

Lemma republish_appends_and_suffixes_again_witness :
  heap scenario_a !! 0 = Some incoming_message ∧
  append_outcome (emitted (emit memDb sample_registry 0) scenario_a) = Some (inr 1%Z) ∧
  heap (emit memDb sample_registry 0 scenario_a).1 !! 0
    = Some (promote 1 incoming_message) ∧
  appends (emitted (emit memDb sample_registry 0)
             (emit memDb sample_registry 0 scenario_a).1)
    = [(promote 1 incoming_message, inr 2%Z)] ∧
  type (promote 2 (promote 1 incoming_message)) = "incoming-message-KAFKED-KAFKED".
Proof.
  assert (Ha : append_outcome (emitted (emit memDb sample_registry 0) scenario_a)
               = Some (inr 1%Z)) by (vm_compute; reflexivity).
  destruct (republish_appends_and_suffixes_again memDb sample_registry 0 scenario_a
              incoming_message 1%Z eq_refl sample_registry_read_only Ha)
    as (Hh & _ & Hsecond).
  destruct (Hsecond 2%Z) as (Happ & _ & _ & Hty & _); [vm_compute; reflexivity|].
  split_and!; [reflexivity | exact Ha | exact Hh | exact Happ | exact Hty].
Defined.

Lemma subscription_is_local_witness :
  heap scenario_a !! 0 = Some incoming_message ∧
  read_only failing ∧
  emit memDb (on "order-placed" failing sample_registry) 0 scenario_a
    = emit memDb sample_registry 0 scenario_a.
Proof.
  split_and!; [reflexivity | apply failing_read_only |].
  apply (subscription_is_local memDb sample_registry 0 scenario_a incoming_message
           "order-placed" failing eq_refl sample_registry_read_only failing_read_only);
    discriminate.
Defined.

Lemma new_subscriber_is_served_last_witness :
  heap scenario_a !! 0 = Some incoming_message ∧
  listeners (on "incoming-message" quiet sample_registry) "incoming-message" !! 1
    = Some quiet ∧
  times_invoked Eager 1
    (emitted (emit memDb (on "incoming-message" quiet sample_registry) 0) scenario_a) = 1.
Proof.
  destruct (new_subscriber_is_served_last memDb sample_registry 0 scenario_a
              incoming_message quiet eq_refl sample_registry_read_only quiet_read_only)
    as (Hlast & Hall & _).
  split_and!; [reflexivity | exact Hlast |].
  apply Hall; [|vm_compute; lia].
  intros h' Hh'. vm_compute in Hh'.
  apply list_elem_of_In in Hh' as [<-|[]]. reflexivity.
Defined.

Lemma projector_publishes_only_after_writing_witness :
  heap scenario_b !! 0 = Some hello_notification ∧
  (projector memDb sample_uuid sample_registry 0 scenario_b).2 = Ret tt ∧
  fetches (emitted (projector memDb sample_uuid sample_registry 0) scenario_b)
    = [Some 42%Z] ∧
  length (published (emitted (projector memDb sample_uuid sample_registry 0) scenario_b))
    ≤ 1.
Proof.
  destruct (projector_publishes_only_after_writing memDb sample_uuid sample_registry 0
              scenario_b hello_notification eq_refl) as (Hret & Hf & _ & Hp & _).
  split_and!; [reflexivity | exact Hret | exact Hf | exact Hp].
Defined.

Lemma projector_logs_fetch_failure_witness :
  heap scenario_unreadable !! 0 = Some hello_notification ∧
  getEventByLogId unreadableDb (Some 42%Z) (store scenario_unreadable)
    = (db_with_hello, inl (Exn "StoreReadError")) ∧
  errors_logged (emitted (projector unreadableDb sample_uuid sample_registry 0)
                   scenario_unreadable)
    = [ProjectorFailed (Exn "StoreReadError")] ∧
  rows_written (emitted (projector unreadableDb sample_uuid sample_registry 0)
                  scenario_unreadable) = [].
Proof.
  pose proof (projector_logs_fetch_failure unreadableDb sample_uuid sample_registry 0
                scenario_unreadable hello_notification db_with_hello
                (Exn "StoreReadError") eq_refl eq_refl) as Hrun.
  split_and!; [reflexivity | reflexivity | |]; unfold emitted; rewrite Hrun; reflexivity.
Defined.

Lemma projector_logs_write_failure_witness :
  heap (mem_world [hello_notification] db_read_model_fault) !! 0
    = Some hello_notification ∧
  getEventByLogId memDb (Some 42%Z) db_read_model_fault
    = (db_read_model_fault, inr (Some stored_hello)) ∧
  invalid_source (Some stored_hello) = false ∧
  addMessage memDb (Some (VNum 1)) (Some (VNum 7)) (Some (VStr "hi")) db_read_model_fault
    = (db_read_model_fault, inl (Exn "ProjectionWriteError")) ∧
  errors_logged
    (emitted (projector memDb sample_uuid sample_registry 0)
       (mem_world [hello_notification] db_read_model_fault))
    = [ProjectorFailed (Exn "ProjectionWriteError")] ∧
  published
    (emitted (projector memDb sample_uuid sample_registry 0)
       (mem_world [hello_notification] db_read_model_fault)) = [].
Proof.
  pose proof (projector_logs_write_failure memDb sample_uuid sample_registry 0
                (mem_world [hello_notification] db_read_model_fault)
                hello_notification db_read_model_fault (Some stored_hello)
                db_read_model_fault (Exn "ProjectionWriteError")
                eq_refl eq_refl eq_refl eq_refl) as Hrun.
  split_and!; [reflexivity..| |]; unfold emitted; rewrite Hrun; reflexivity.
Defined.

Lemma publish_then_project_witness :
  heap scenario_a !! 0 = Some incoming_message ∧
  ids_normalised incoming_message ∧
  append_outcome (emitted (emit memDb sample_registry 0) scenario_a) = Some (inr 1%Z) ∧
  rows_written
    (emitted (emit memDb sample_registry 0 ≫= λ _, projector memDb sample_uuid sample_registry 0)
       scenario_a)
    = [(Some (VNum 1), Some (VNum 7), Some (VStr "hi"),
        projected_record (Some (VNum 1)) (Some (VNum 7)) (Some (VStr "hi")))] ∧
  ∃ pe,
    published
      (emitted (emit memDb sample_registry 0 ≫= λ _, projector memDb sample_uuid sample_registry 0)
         scenario_a)
      = [(0, incoming_message); (1, pe)] ∧
    type pe = "message-projected" ∧
    correlationId (metadata pe) = Some "corr-1" ∧
    causationId (metadata pe) = Some "c0ffee".
Proof.
  assert (Hids : ids_normalised incoming_message) by (split; discriminate).
  assert (Ha : append_outcome (emitted (emit memDb sample_registry 0) scenario_a)
               = Some (inr 1%Z)) by (vm_compute; reflexivity).
  destruct (publish_then_project memDb sample_uuid sample_registry 0 scenario_a
              incoming_message 1%Z
              (mem_logEvent incoming_message empty_db).1
              {| rec_logId := 1; rec_eventId := "c0ffee"; rec_type := "incoming-message";
                 rec_payload := hello; rec_metadata := metadata incoming_message;
                 rec_storedAt := "2024-01-01T00:00:01.000Z" |}
              (mem_addMessage (Some (VNum 1)) (Some (VNum 7)) (Some (VStr "hi"))
                 (mem_logEvent incoming_message empty_db).1).1
              (projected_record (Some (VNum 1)) (Some (VNum 7)) (Some (VStr "hi")))
              eq_refl sample_registry_read_only Hids Ha eq_refl eq_refl eq_refl)
    as (_ & Hrows & pe & Hpub & Hty & _ & Hcorr & Hcause & _).
  split_and!; [reflexivity | exact Hids | exact Ha | exact Hrows |].
  exists pe. split_and!; assumption.
Defined.

(** The gateway: user 7 on socket 0. *)

Lemma unidentified_connection_is_ignored_witness :
  truthy (ws_userId (conn_of gateway_start 0)) = false ∧
  on_message memDb sample_uuid sample_chats sample_registry 0
    (Json (Some "chat.select") (Some select_chat_1)) gateway_start =
    ({| world := with_uuid_drawn (world gateway_start);
        clients := ∅; conns := ∅;
        gateway_log := [GwConsole (GwReceived (Some "chat.select") None);
                        GwConsole (GwPayload (Some select_chat_1))] |},
     Ret tt).
Proof.
  split; [reflexivity|].
  exact (unidentified_connection_is_ignored memDb sample_uuid sample_chats sample_registry
           0 gateway_start "chat.select" (Some select_chat_1) eq_refl (or_introl eq_refl)).
Defined.

Lemma post_is_checked_against_selected_chat_witness :
  truthy (ws_userId (conn_of gateway_selected 0)) = true ∧
  participants (conn_of gateway_selected 0)
    = Some {| id_user1 := Some (VNum 7); id_user2 := Some (VNum 8) |} ∧
  getChatParticipants sample_chats (Some (VNum 2)) (store (world gateway_selected))
    = (empty_db, inr (Some {| id_user1 := Some (VNum 8); id_user2 := Some (VNum 9) |})) ∧
  ∃ e,
    published (bus_trace (on_message memDb sample_uuid sample_chats sample_registry 0
                            (Json (Some "chat.message.new") (Some post_to_chat_2)))
                 gateway_selected) = [(0, e)] ∧
    payload e !! "chatId" = Some (VNum 2) ∧
    payload e !! "userId" = Some (VNum 7).
Proof.
  destruct (post_is_checked_against_selected_chat memDb sample_uuid sample_chats
              sample_registry 0 gateway_selected post_to_chat_2 eq_refl eq_refl)
    as (Hpub & Hc & Hu & _).
  split_and!; [reflexivity..|].
  eexists. split_and!; [exact Hpub | exact Hc | exact Hu].
Defined.

Lemma unauthorised_post_is_refused_witness :
  truthy (ws_userId (conn_of gateway_identified 0)) = true ∧
  participants (conn_of gateway_identified 0) = None ∧
  gateway_errors
    (logged (on_message memDb sample_uuid sample_chats sample_registry 0
               (Json (Some "chat.message.new") (Some post_to_chat_2)))
       gateway_identified)
    = [GwSecurityAlert (Some (VNum 7)) (Some (VNum 2))] ∧
  heap (world (on_message memDb sample_uuid sample_chats sample_registry 0
                 (Json (Some "chat.message.new") (Some post_to_chat_2))
                 gateway_identified).1) = [].
Proof.
  pose proof (unauthorised_post_is_refused memDb sample_uuid sample_chats sample_registry
                0 gateway_identified post_to_chat_2 eq_refl eq_refl) as Hrun.
  split_and!; [reflexivity | reflexivity | |].
  - unfold logged. rewrite Hrun. vm_compute. reflexivity.
  - rewrite Hrun. reflexivity.
Defined.

Lemma refused_select_overwrites_participants_witness :
  truthy (ws_userId (conn_of gateway_selected 0)) = true ∧
  participants (conn_of gateway_selected 0)
    = Some {| id_user1 := Some (VNum 7); id_user2 := Some (VNum 8) |} ∧
  participants
    (conn_of (on_message memDb sample_uuid sample_chats sample_registry 0
                (Json (Some "chat.select") (Some select_chat_2)) gateway_selected).1 0)
    = Some {| id_user1 := Some (VNum 8); id_user2 := Some (VNum 9) |} ∧
  gateway_errors
    (logged (on_message memDb sample_uuid sample_chats sample_registry 0
               (Json (Some "chat.select") (Some select_chat_2))) gateway_selected)
    = [GwFailed (Exn "ReferenceError")] ∧
  subscriptions
    (logged (on_message memDb sample_uuid sample_chats sample_registry 0
               (Json (Some "chat.select") (Some select_chat_2))) gateway_selected) = [].
Proof.
  pose proof (refused_select_overwrites_participants memDb sample_uuid sample_chats
                sample_registry 0 gateway_selected select_chat_2 empty_db
                (Some {| id_user1 := Some (VNum 8); id_user2 := Some (VNum 9) |})
                eq_refl eq_refl eq_refl) as Hrun.
  split_and!; [reflexivity | reflexivity | | |];
    unfold logged; rewrite Hrun; vm_compute; reflexivity.
Defined.

Lemma authorised_select_subscribes_then_sends_witness :
  truthy (ws_userId (conn_of gateway_identified 0)) = true ∧
  subscriptions
    (logged (on_message memDb sample_uuid sample_chats sample_registry 0
               (Json (Some "chat.select") (Some select_chat_1))) gateway_identified)
    = [(0, Some (VNum 1))] ∧
  frames_sent
    (logged (on_message memDb sample_uuid sample_chats sample_registry 0
               (Json (Some "chat.select") (Some select_chat_1))) gateway_identified)
    = [(0, [])].
Proof.
  pose proof (authorised_select_subscribes_then_sends memDb sample_uuid sample_chats
                sample_registry 0 gateway_identified select_chat_1 empty_db
                (Some {| id_user1 := Some (VNum 7); id_user2 := Some (VNum 8) |})
                empty_db (inr []) eq_refl eq_refl eq_refl eq_refl) as Hrun.
  split_and!; [reflexivity | |]; unfold logged; rewrite Hrun; vm_compute; reflexivity.
Defined.

Lemma select_one_chat_post_to_any_witness :
  truthy (ws_userId (conn_of gateway_identified 0)) = true ∧
  ∃ e,
    published
      (bus_trace (on_message memDb sample_uuid sample_chats sample_registry 0
                    (Json (Some "chat.message.new") (Some post_to_chat_2)))
         (on_message memDb sample_uuid sample_chats sample_registry 0
            (Json (Some "chat.select") (Some select_chat_1)) gateway_identified).1)
      = [(0, e)] ∧
    payload e !! "chatId" = Some (VNum 2) ∧
    payload e !! "userId" = Some (VNum 7).
Proof.
  destruct (select_one_chat_post_to_any memDb sample_uuid sample_chats sample_registry
              0 gateway_identified select_chat_1 empty_db
              (Some {| id_user1 := Some (VNum 7); id_user2 := Some (VNum 8) |})
              empty_db (inr []) post_to_chat_2 eq_refl eq_refl eq_refl eq_refl)
    as (e & Hpub & _ & Hc & Hu & _).
  split; [reflexivity|]. exists e. split_and!; [exact Hpub | exact Hc | exact Hu].
Defined.

Lemma identify_then_close_restores_clients_witness :
  truthy (identify_7 !! "userId") = true ∧
  clients_wf (clients gateway_start) ∧
  (0 ∉ sockets_of (clients gateway_start) (identify_7 !! "userId")) ∧
  sockets_of (clients gateway_identified) (Some (VNum 7)) = [0] ∧
  clients (on_close memDb 0 gateway_identified).1 = ∅.
Proof.
  assert (Hwf : clients_wf (clients gateway_start)) by apply map_Forall_empty.
  assert (Hnot : 0 ∉ sockets_of (clients gateway_start) (identify_7 !! "userId"))
    by apply not_elem_of_nil.
  destruct (identify_then_close_restores_clients memDb sample_uuid sample_chats
              sample_registry 0 gateway_start identify_7 eq_refl Hwf Hnot)
    as (_ & Hs & Hc).
  split_and!; [reflexivity | exact Hwf | exact Hnot | exact Hs | exact Hc].
Defined.

Lemma reidentified_socket_stays_registered_witness :
  identify_7 !! "userId" ≠ identify_8 !! "userId" ∧
  0 ∈ sockets_of
        (clients
           (on_close memDb 0
              (on_message memDb sample_uuid sample_chats sample_registry 0
                 (Json (Some "user.identify") (Some identify_8)) gateway_identified).1).1)
        (Some (VNum 7)).
Proof.
  assert (Hne : identify_7 !! "userId" ≠ identify_8 !! "userId") by discriminate.
  destruct (reidentified_socket_stays_registered memDb sample_uuid sample_chats
              sample_registry 0 gateway_start identify_7 identify_8 Hne)
    as (_ & _ & Hin).
  split; [exact Hne | exact Hin].
Defined.

Lemma eager_failure_leaves_event_unpromoted_witness :
  heap scenario_a !! 0 = Some incoming_message ∧
  In (Threw Eager "incoming-message" 0 (Exn "listener failed"))
     (emitted (emit memDb failing_eager_registry 0) scenario_a) ∧
  heap (emit memDb failing_eager_registry 0 scenario_a).1 = [incoming_message] ∧
  errors_logged (emitted (emit memDb failing_eager_registry 0) scenario_a)
    = [BusCritical "incoming-message" (Exn "listener failed")].
Proof.
  assert (Hro : handlers_read_only failing_eager_registry).
  { repeat apply handlers_read_only_on;
      auto using quiet_read_only, failing_read_only, handlers_read_only_empty. }
  assert (Hin : In (Threw Eager "incoming-message" 0 (Exn "listener failed"))
                   (emitted (emit memDb failing_eager_registry 0) scenario_a)).
  { vm_compute. right; right; left; reflexivity. }
  destruct (eager_failure_leaves_event_unpromoted memDb failing_eager_registry 0 scenario_a
              incoming_message _ _ _ eq_refl Hro Hin) as (Hh & _ & _ & Hl).
  split_and!; [reflexivity | exact Hin | exact Hh | exact Hl].
Defined.
